(** * ePACT2 dashboard compiler (SICBL level): the data pipeline of [app.py]

    The script cleans local and national CSV extracts, merges the cleaned
    tables per metric label, outer-joins the per-label tables, pivots each
    metric into a months x organisations grid and writes one worksheet per
    metric.  This file embeds that pipeline and proves the properties the
    specification states about it.

    Modelling conventions.
    - A table is the DataFrame that [read_csv] returns: a list of rows, in
      row order; a missing cell (NaN, NaT) is [None].  Tables have the
      column types of the documented schema: the organisation, practice-code
      and month columns hold text, numerator, denominator and value hold
      numbers.  A practice-code column in which no row has a code is the
      one case in which pandas reads a text column as numbers; lines 58-59
      are modelled with it ([filter_practice]), and the tables cleaned
      below are those of the rows that line 59 keeps.
    - A number is the rational it denotes.  The arithmetic of line 68 is
      float64 arithmetic: every operation returns the float64 nearest to
      its exact result ([float64]; infinities and NaN, which line 68 only
      produces from numbers beyond the largest float64 or discards with
      [np.where], are not numbers of the model), and [numpy.round(_, 2)] is
      multiply by 100, [rint], divide by 100.  The sums of [groupby(...).sum()] are
      exact sums; pandas computes them in int64 or float64, and the two
      agree for whole-number cells whose column totals stay below 2^53
      ([whole_counts]), which the theorems about the values of the sums and
      of the percentages assume.
    - Text is a [string] with one [ascii] per character; this is the text
      Python has when the text is ASCII ([is_ascii]), which the theorems
      that count characters or class them as digits assume.
    - [groupby] sorts its groups by key and drops rows with a missing key
      (pandas defaults [sort=True], [dropna=True]); it is a sorted
      association list built by insertion.
    - A metric label is a text other than the two key column names
      'Commissioner / Provider' and 'Month'; the script collects one label
      per uploaded file, so a run takes its files paired with their labels.
    - The Excel writer is a list of titled worksheets, each a grid of
      cells that starts at the top-left corner; writing to a title the
      workbook already has writes the cells over that worksheet, as the
      openpyxl writer of pandas does when it is opened for writing.  A new
      worksheet gets its title from openpyxl, which raises on an empty
      title and on the characters it forbids, and appends a counter to a
      title that another worksheet has in another case.
    - An exception that the script does not catch ends the run; Streamlit
      shows it in place of the rest of the page. *)

From Stdlib Require Import List Bool Arith ZArith QArith Qpower Qabs Lia Lqa Permutation.
From Stdlib Require Import Ascii String DecimalNat DecimalString.
Import ListNotations.

(** * The pipeline *)

(** ** Ordered keys *)

(** The order [groupby], [merge] and [sort_values] sort keys by. *)
Class Ord (A : Type) := { cmp : A -> A -> comparison }.

#[export] Instance nat_Ord : Ord nat := {| cmp := Nat.compare |}.

(** Text is ordered character by character, by character code. *)
#[export] Instance string_Ord : Ord string := {| cmp := String.compare |}.

(** Lexicographic order on pairs: the order of a two-column sort key. *)
Definition pair_cmp {A B} `{Ord A} `{Ord B} (p q : A * B) : comparison :=
  match cmp (fst p) (fst q) with
  | Eq => cmp (snd p) (snd q)
  | c => c
  end.

#[export] Instance pair_Ord {A B} `{Ord A} `{Ord B} : Ord (A * B) := {| cmp := pair_cmp |}.

Definition key_eqb {A} `{Ord A} (a b : A) : bool :=
  match cmp a b with Eq => true | _ => false end.

(** ** [groupby]: grouped aggregation into a key-sorted table *)

Section GroupBy.
Context {K V A : Type} `{Ord K}.

(** The aggregation: [empty] is the accumulator of a group before its
    first row, [step] folds one more row into it. *)
Variable empty : A.
Variable step : A -> V -> A.

(** One row enters the grouped table: it joins the group of its key, or
    opens a new group at the key's sorted position. *)
Fixpoint upsert (k : K) (v : V) (l : list (K * A)) : list (K * A) :=
  match l with
  | [] => [(k, step empty v)]
  | (k', a) :: l' =>
      match cmp k k' with
      | Eq => (k', step a v) :: l'
      | Lt => (k, step empty v) :: l
      | Gt => (k', a) :: upsert k v l'
      end
  end.

Definition agg_rows (rows : list (K * V)) (acc : list (K * A)) : list (K * A) :=
  fold_left (fun acc kv => upsert (fst kv) (snd kv) acc) rows acc.

Definition groupby (rows : list (K * V)) : list (K * A) := agg_rows rows [].

Fixpoint lookup (k : K) (l : list (K * A)) : option A :=
  match l with
  | [] => None
  | (k', a) :: l' => if key_eqb k k' then Some a else lookup k l'
  end.

(** The values of the rows of key [k], in row order. *)
Definition vals (k : K) (rows : list (K * V)) : list V :=
  map snd (filter (fun kv => key_eqb k (fst kv)) rows).

(** A grouped table is sorted when its keys strictly increase. *)
Definition below (k : K) (l : list (K * A)) : Prop :=
  Forall (fun p => cmp k (fst p) = Lt) l.

Fixpoint sorted (l : list (K * A)) : Prop :=
  match l with
  | [] => True
  | (k, _) :: l' => below k l' /\ sorted l'
  end.

Definition from_acc (o : option A) : A :=
  match o with Some a => a | None => empty end.

(** The accumulator of a group, from the accumulator before its rows. *)
Definition fold_group (o : option A) (vs : list V) : option A :=
  match vs with
  | [] => o
  | _ => Some (fold_left step vs (from_acc o))
  end.

End GroupBy.

(** Distinct keys in sorted order (the labels of an index). *)
Definition sorted_distinct {K} `{Ord K} (ks : list K) : list K :=
  map fst (groupby tt (fun (_ : unit) (_ : unit) => tt) (map (fun k => (k, tt)) ks)).

(** Rows whose key is missing leave a grouping ([dropna=True]). *)
Fixpoint dropna_keys {K V} (rows : list (option K * V)) : list (K * V) :=
  match rows with
  | [] => []
  | (Some k, v) :: rows' => (k, v) :: dropna_keys rows'
  | (None, _) :: rows' => dropna_keys rows'
  end.

(** ** Numbers *)

Open Scope Q_scope.

(** Round to the nearest integer, ties to the even one ([numpy.rint]). *)
Definition rint (q : Q) : Z :=
  let n := Qnum q in
  let d := Z.pos (Qden q) in
  let fl := (n / d)%Z in
  match (2 * (n mod d) ?= d)%Z with
  | Lt => fl
  | Gt => (fl + 1)%Z
  | Eq => if Z.even fl then fl else (fl + 1)%Z
  end.

(** The power of two below a number that is not zero: the [k] with
    2^k <= |q| < 2^(k+1). *)
Definition binade (q : Q) : Z :=
  let k := (Z.log2 (Z.abs (Qnum q)) - Z.log2 (Z.pos (Qden q)))%Z in
  if Qle_bool (2 ^ k) (Qabs q) then k else (k - 1)%Z.

(** The float64 an arithmetic operation returns for the exact result [q]:
    the nearest number with a significand of 53 bits (or, below 2^-1022,
    the nearest multiple of 2^-1074), the one with the even significand
    of two equally near. *)
Definition float64 (q : Q) : Q :=
  if Qeq_bool q 0 then 0
  else
    let e := Z.max (binade q - 52) (-1074) in
    Qred (inject_Z (rint (q / 2 ^ e)) * 2 ^ e).

(** [x.round(2)] as numpy computes it on float64: multiply by 100.0,
    [rint], divide by 100.0. *)
Definition round2 (x : Q) : Q :=
  float64 (inject_Z (rint (float64 (x * 100))) / 100).

(** [np.where(D != 0, (N / D) * 100, 0).round(2)] at one row: the two
    columns as float64, their quotient, the product with 100, the
    rounding. *)
Definition percentage (n d : Q) : Q :=
  round2 (if negb (Qeq_bool d 0)
          then float64 (float64 (float64 n / float64 d) * 100)
          else 0).

(** Adding a cell to a running sum; a missing cell is skipped.  The sum is
    the exact one; the int64 and float64 sums of pandas are this number as
    long as the cells are whole numbers whose totals stay below 2^53. *)
Definition add_skipna (a : Q) (v : option Q) : Q :=
  match v with
  | Some x => a + x
  | None => a
  end.

(** ** Text: the practice-code pattern *)

Open Scope string_scope.

(** The digits 0 to 9: the characters of the class [\d] in ASCII text. *)
Definition is_digit (c : ascii) : bool :=
  let n := nat_of_ascii c in (48 <=? n)%nat && (n <=? 57)%nat.

(** The pieces a pattern is made of: a character class, taken once or
    (with [?]) at most once. *)
Inductive cls :=
| Chr (c : ascii)
| OneOf (cs : list ascii)
| Digit.

Inductive atom :=
| One (c : cls)
| Opt (c : cls).

Definition cls_match (c : cls) (x : ascii) : bool :=
  match c with
  | Chr y => Ascii.eqb x y
  | OneOf ys => existsb (Ascii.eqb x) ys
  | Digit => is_digit x
  end.

(** Does the pattern match a prefix of [s]? *)
Fixpoint match_here (p : list atom) (s : string) : bool :=
  match p with
  | [] => true
  | One c :: p' =>
      match s with
      | String x s' => cls_match c x && match_here p' s'
      | EmptyString => false
      end
  | Opt c :: p' =>
      match s with
      | String x s' => (cls_match c x && match_here p' s') || match_here p' s
      | EmptyString => match_here p' s
      end
  end.

(** [re.search]: does the pattern match at some position of [s]? *)
Fixpoint search (p : list atom) (s : string) : bool :=
  match_here p s ||
  match s with
  | String _ s' => search p s'
  | EmptyString => false
  end.

(** [Series.str.contains(pat, na=False)] at one cell. *)
Definition str_contains (p : list atom) (cell : option string) : bool :=
  match cell with
  | Some s => search p s
  | None => false
  end.

(** The pattern [\( ?[CD] ?\d]. *)
Definition closed_pattern : list atom :=
  [One (Chr "("); Opt (Chr " "); One (OneOf ["C"; "D"]%char); Opt (Chr " "); One Digit].

(** ** Months *)

(** A parsed month: (year, month number 1..12); the day is always 1. *)
Definition Month : Type := nat * nat.

Definition month_abbr : list string :=
  ["Jan"; "Feb"; "Mar"; "Apr"; "May"; "Jun"; "Jul"; "Aug"; "Sep"; "Oct"; "Nov"; "Dec"].

Definition lower (c : ascii) : ascii :=
  let n := nat_of_ascii c in
  if (65 <=? n)%nat && (n <=? 90)%nat then ascii_of_nat (n + 32) else c.

Fixpoint lower_string (s : string) : string :=
  match s with
  | EmptyString => EmptyString
  | String c s' => String (lower c) (lower_string s')
  end.

(** Month number of an abbreviation, compared without case. *)
Fixpoint month_number (names : list string) (i : nat) (s : string) : option nat :=
  match names with
  | [] => None
  | nm :: names' =>
      if String.eqb (lower_string nm) (lower_string s) then Some i
      else month_number names' (S i) s
  end.

Definition digit_val (c : ascii) : nat := nat_of_ascii c - 48.

(** [strptime] with format [%b-%y]: the whole text must be a month
    abbreviation, a hyphen and two digits; years 00..68 are 20xx, 69..99
    are 19xx. *)
Definition strptime (s : string) : option Month :=
  match s with
  | String a (String b (String c (String "-" (String y1 (String y2 EmptyString))))) =>
      if is_digit y1 && is_digit y2 then
        match month_number month_abbr 1 (String a (String b (String c EmptyString))) with
        | Some m =>
            let y := (10 * digit_val y1 + digit_val y2)%nat in
            Some (if (y <=? 68)%nat then (2000 + y)%nat else (1900 + y)%nat, m)
        | None => None
        end
      else None
  | _ => None
  end.

(** [pd.to_datetime(col, format='%b-%y', errors='coerce')] at one cell. *)
Definition to_datetime (cell : option string) : option Month :=
  match cell with
  | Some s => strptime s
  | None => None
  end.

Definition digit_char (n : nat) : ascii := ascii_of_nat (48 + n).

(** [strftime('%b-%y')]. *)
Definition strftime (m : Month) : string :=
  nth (snd m - 1) month_abbr "" ++ "-" ++
  String (digit_char ((fst m mod 100) / 10)) (String (digit_char (fst m mod 10)) "").

(** ** Organisation names *)

Definition organisation_legend_mapping : list (string * string) :=
  [ ("NHS NORTH EAST AND NORTH CUMBRIA ICB - 84H", "Durham");
    ("NHS NORTH EAST AND NORTH CUMBRIA ICB - 00P", "Sunderland");
    ("NHS NORTH EAST AND NORTH CUMBRIA ICB - 00L", "Northumberland");
    ("NHS NORTH EAST AND NORTH CUMBRIA ICB - 01H", "North Cumbria");
    ("NHS NORTH EAST AND NORTH CUMBRIA ICB - 13T", "Newcastle-Gateshead");
    ("NHS NORTH EAST AND NORTH CUMBRIA ICB - 16C", "Tees Valley");
    ("NHS NORTH EAST AND NORTH CUMBRIA ICB - 99C", "North Tyneside");
    ("NHS NORTH EAST AND NORTH CUMBRIA ICB - 00N", "South Tyneside");
    ("ENGLAND", "England") ].

Fixpoint dict_get (d : list (string * string)) (k : string) : option string :=
  match d with
  | [] => None
  | (k', v) :: d' => if String.eqb k k' then Some v else dict_get d' k
  end.

(** [Series.replace(mapping)] at one cell: a value that is a key of the
    mapping is replaced, any other value (and a missing one) stays. *)
Definition replace (d : list (string * string)) (cell : option string) : option string :=
  match cell with
  | Some s => match dict_get d s with Some v => Some v | None => Some s end
  | None => None
  end.

(** ** Tables *)

(** The grouping and join key: (organisation, month). *)
Definition Key : Type := string * Month.

Definition row_key (org : option string) (month : option Month) : option Key :=
  match org, month with
  | Some o, Some m => Some (o, m)
  | _, _ => None
  end.

(** A row of a local extract. *)
Record LocalRow := {
  l_practice : option string;   (* 'Practice plus Code' *)
  l_org : option string;        (* 'Commissioner / Provider' *)
  l_month : option string;      (* 'Month', as text *)
  l_num : option Q;             (* 'Numerator' *)
  l_den : option Q              (* 'Denominator' *)
}.

(** A local extract; the practice-code column is optional, and its cells
    are read only when the column is there. *)
Record LocalTable := {
  has_practice_col : bool;
  l_rows : list LocalRow
}.

(** A row of a national extract. *)
Record NationalRow := {
  n_country : option string;    (* 'Country' *)
  n_month : option string;      (* 'Month', as text *)
  n_value : option Q            (* 'Value' *)
}.

(** A row of a cleaned table: organisation, month, metric value. *)
Record CleanRow := {
  c_org : option string;
  c_month : option Month;
  c_value : option Q
}.

(** A cleaned table: the three output columns, the third named by the
    metric label. *)
Record CleanedTable := {
  c_label : string;
  c_rows : list CleanRow
}.

(** ** The local normalizer *)

Definition icb_name : string := "North East and North Cumbria".

(** [Series.str]: pandas gives the accessor to a column of texts.  A
    column of a file in which every practice code is empty is read as a
    column of numbers, all missing, and the accessor raises AttributeError;
    the columns of a table without rows are columns of texts. *)
Definition str_accessor (col : list (option string)) : bool :=
  match col with
  | [] => true
  | _ => existsb (fun cell => match cell with Some _ => true | None => false end) col
  end.

(** The rows line 59 keeps: those whose practice code does not hold the
    pattern. *)
Definition practice_kept (df : LocalTable) : list LocalRow :=
  if has_practice_col df
  then filter (fun r => negb (str_contains closed_pattern (l_practice r))) (l_rows df)
  else l_rows df.

(** Lines 58-59: the filter runs when the table has the practice-code
    column; [None] when line 59 raises. *)
Definition filter_practice (df : LocalTable) : option (list LocalRow) :=
  if has_practice_col df && negb (str_accessor (map l_practice (l_rows df)))
  then None
  else Some (practice_kept df).

(** Lines 61-62: month parsed, organisation renamed; the row keyed for the
    grouping of line 63. *)
Definition local_keyed (rows : list LocalRow) : list (option Key * (option Q * option Q)) :=
  map (fun r =>
         (row_key (replace organisation_legend_mapping (l_org r)) (to_datetime (l_month r)),
          (l_num r, l_den r)))
      rows.

(** [sum] over a group: Numerator and Denominator are summed, missing
    cells skipped. *)
Definition sum_step (a : Q * Q) (v : option Q * option Q) : Q * Q :=
  (add_skipna (fst a) (fst v), add_skipna (snd a) (snd v)).

(** Line 63: [groupby(['Commissioner / Provider', 'Month']).sum()], on the
    rows that line 59 has kept. *)
Definition grouped (df : LocalTable) : list (Key * (Q * Q)) :=
  groupby (0, 0) sum_step (dropna_keys (local_keyed (practice_kept df))).

(** Line 64: [groupby('Month')[['Numerator', 'Denominator']].sum()]. *)
Definition month_sums (g : list (Key * (Q * Q))) : list (Month * (Q * Q)) :=
  groupby (0, 0) sum_step
    (map (fun r => (snd (fst r), (Some (fst (snd r)), Some (snd (snd r))))) g).

(** Lines 65-66: the rollup rows, named after the region. *)
Definition icb (g : list (Key * (Q * Q))) : list (Key * (Q * Q)) :=
  map (fun r => ((icb_name, fst r), snd r)) (month_sums g).

(** Line 67: organisation rows followed by the rollup rows. *)
Definition with_icb (df : LocalTable) : list (Key * (Q * Q)) :=
  (grouped df ++ icb (grouped df))%list.

(** Lines 68-69: the percentage of a row, and the three columns kept. *)
Definition pct_row (r : Key * (Q * Q)) : CleanRow :=
  {| c_org := Some (fst (fst r));
     c_month := Some (snd (fst r));
     c_value := Some (percentage (fst (snd r)) (snd (snd r))) |}.

Definition clean_local (df : LocalTable) (pct_col : string) : CleanedTable :=
  {| c_label := pct_col; c_rows := map pct_row (with_icb df) |}.

(** ** The national normalizer *)

Definition national_row (r : NationalRow) : CleanRow :=
  {| c_org := replace organisation_legend_mapping (n_country r);
     c_month := to_datetime (n_month r);
     c_value := n_value r |}.

Definition clean_national (df : list NationalRow) (pct_col : string) : CleanedTable :=
  {| c_label := pct_col; c_rows := map national_row df |}.

(** ** Merging the tables of one label *)

(** [all_metrics.setdefault(label, []).append(cleaned)] on a dict that
    keeps its keys in insertion order. *)
Fixpoint setdefault_append (label : string) (t : CleanedTable)
    (d : list (string * list CleanedTable)) : list (string * list CleanedTable) :=
  match d with
  | [] => [(label, [t])]
  | (l, ts) :: d' =>
      if String.eqb l label then (l, (ts ++ [t])%list) :: d'
      else (l, ts) :: setdefault_append label t d'
  end.

Definition collect (tables : list CleanedTable) (d : list (string * list CleanedTable))
  : list (string * list CleanedTable) :=
  fold_left (fun d t => setdefault_append (c_label t) t d) tables d.

(** [first] over a group: the first value that is not missing. *)
Definition first_step (a : option Q) (v : option Q) : option Q :=
  match a with
  | Some _ => a
  | None => v
  end.

Definition clean_keyed (rows : list CleanRow) : list (option Key * option Q) :=
  map (fun r => (row_key (c_org r) (c_month r), c_value r)) rows.

(** Lines 96-97: [pd.concat(df_list)] then
    [groupby(['Commissioner / Provider', 'Month']).first()]. *)
Definition merge_label (df_list : list CleanedTable) : list (Key * option Q) :=
  groupby None first_step (dropna_keys (clean_keyed (List.concat (map c_rows df_list)))).

(** ** The outer join *)

(** The combined table: the label columns, and per row its key and one cell
    per label column. *)
Record WideTable := {
  w_cols : list string;
  w_rows : list (Key * list (option Q))
}.

Definition of_merged (label : string) (m : list (Key * option Q)) : WideTable :=
  {| w_cols := [label]; w_rows := map (fun r => (fst r, [snd r])) m |}.

(** The rows a key gets in [pd.merge(l, r, on=key, how='outer')]: every
    pairing of a left row with a right row of that key; a row without a
    partner is padded with missing cells. *)
Definition join_key (w : nat) (l : list (Key * list (option Q)))
    (r : list (Key * option Q)) (k : Key) : list (Key * list (option Q)) :=
  match vals k l, vals k r with
  | [], rs => map (fun v => (k, (repeat None w ++ [v])%list)) rs
  | ls, [] => map (fun cs => (k, (cs ++ [None])%list)) ls
  | ls, rs => flat_map (fun cs => map (fun v => (k, (cs ++ [v])%list)) rs) ls
  end.

(** [pd.merge(l, r, on=['Commissioner / Provider', 'Month'], how='outer')]:
    the keys of both tables, sorted. *)
Definition outer_merge (l : WideTable) (label : string) (r : list (Key * option Q))
  : WideTable :=
  {| w_cols := (w_cols l ++ [label])%list;
     w_rows := flat_map (join_key (List.length (w_cols l)) (w_rows l) r)
                 (sorted_distinct (map fst (w_rows l) ++ map fst r)%list) |}.

(** Line 102: [reduce] over the per-label tables, in their order; there is
    no combined table when there are none. *)
Definition reduce_merge (merged_dfs : list (string * list (Key * option Q)))
  : option WideTable :=
  match merged_dfs with
  | [] => None
  | (label, m) :: rest =>
      Some (fold_left (fun acc lm => outer_merge acc (fst lm) (snd lm)) rest
                      (of_merged label m))
  end.

(** Line 107: [sort_values(by=['Month', 'Commissioner / Provider'])]. *)
Definition sort_key (r : Key * list (option Q)) : Month * string :=
  (snd (fst r), fst (fst r)).

Fixpoint insert_row (r : Key * list (option Q)) (l : list (Key * list (option Q)))
  : list (Key * list (option Q)) :=
  match l with
  | [] => [r]
  | r' :: l' =>
      match cmp (sort_key r) (sort_key r') with
      | Lt => r :: l
      | _ => r' :: insert_row r l'
      end
  end.

Definition sort_values (c : WideTable) : WideTable :=
  {| w_cols := w_cols c;
     w_rows := fold_left (fun acc r => insert_row r acc) (w_rows c) [] |}.

(** ** The pivot *)

(** [mean] over a group: sum and count of the values that are not missing. *)
Definition mean_step (a : Q * nat) (v : option Q) : Q * nat :=
  match v with
  | Some x => (fst a + x, S (snd a))
  | None => a
  end.

Definition mean_of (a : Q * nat) : option Q :=
  match snd a with
  | O => None
  | S _ => Some (fst a / inject_Z (Z.of_nat (snd a)))
  end.

(** The three columns the pivot reads: month, organisation, metric [j]. *)
Definition metric_column (j : nat) (rows : list (Key * list (option Q)))
  : list ((Month * string) * option Q) :=
  map (fun r => ((snd (fst r), fst (fst r)), nth j (snd r) None)) rows.

(** Groups whose mean is missing are dropped. *)
Fixpoint dropna_means (l : list ((Month * string) * (Q * nat)))
  : list ((Month * string) * Q) :=
  match l with
  | [] => []
  | (k, a) :: l' =>
      match mean_of a with
      | Some x => (k, x) :: dropna_means l'
      | None => dropna_means l'
      end
  end.

Definition agged (j : nat) (rows : list (Key * list (option Q)))
  : list ((Month * string) * Q) :=
  dropna_means (groupby (0, O) mean_step (metric_column j rows)).

(** One sheet: the organisations heading the columns, and per month the
    cells under them. *)
Record PivotSheet := {
  pv_orgs : list string;
  pv_rows : list (Month * list (option Q))
}.

(** Line 112: [pivot_table(index='Month', columns='Commissioner / Provider',
    values=col)], with the default aggregation [mean]. *)
Definition pivot_table (j : nat) (rows : list (Key * list (option Q))) : PivotSheet :=
  let a := agged j rows in
  let orgs := sorted_distinct (map (fun r => snd (fst r)) a) in
  let months := sorted_distinct (map (fun r => fst (fst r)) a) in
  {| pv_orgs := orgs;
     pv_rows := map (fun m => (m, map (fun o => lookup (m, o) a) orgs)) months |}.

Fixpoint index_of (o : string) (l : list string) : option nat :=
  match l with
  | [] => None
  | x :: l' =>
      if String.eqb o x then Some O
      else match index_of o l' with Some i => Some (S i) | None => None end
  end.

(** The cell of a sheet for a month and an organisation. *)
Definition pivot_cell (p : PivotSheet) (m : Month) (o : string) : option Q :=
  match lookup m (pv_rows p), index_of o (pv_orgs p) with
  | Some cells, Some i => nth i cells None
  | _, _ => None
  end.

Definition key_columns : list string := ["Commissioner / Provider"; "Month"].

(** Lines 110-114: one pivot per column that is not a key column, in a dict
    keyed by the column name. *)
Fixpoint enumerate_from {X} (i : nat) (l : list X) : list (nat * X) :=
  match l with
  | [] => []
  | x :: l' => (i, x) :: enumerate_from (S i) l'
  end.

Definition metric_columns (c : WideTable) : list (nat * string) :=
  filter (fun jc => negb (existsb (String.eqb (snd jc)) key_columns))
         (enumerate_from 0 (w_cols c)).

(** [d[k] = v] on a dict that keeps its keys in insertion order. *)
Fixpoint dict_set {X} (k : string) (v : X) (d : list (string * X)) : list (string * X) :=
  match d with
  | [] => [(k, v)]
  | (k', v') :: d' =>
      if String.eqb k' k then (k', v) :: d'
      else (k', v') :: dict_set k v d'
  end.

Definition pivots (c : WideTable) : list (string * PivotSheet) :=
  fold_left (fun d jc => dict_set (snd jc) (pivot_table (fst jc) (w_rows c)) d)
            (metric_columns c) [].

(** ** The workbook *)

Inductive xcell :=
| XText (s : string)
| XNumber (q : Q)
| XBlank.

Definition Grid : Type := list (list xcell).

Definition value_cell (v : option Q) : xcell :=
  match v with
  | Some q => XNumber q
  | None => XBlank
  end.

(** Lines 113 and 120: the month column formatted with [strftime], then the
    cells [to_excel(index=False)] writes: the header row, then one row per
    month; a missing value is written as a blank. *)
Definition to_excel_cells (p : PivotSheet) : Grid :=
  (XText "Month" :: map XText (pv_orgs p)) ::
  map (fun r => XText (strftime (fst r)) :: map value_cell (snd r)) (pv_rows p).

(** Writing cells over a worksheet from its top-left corner: a written cell
    replaces the cell at its position, the other cells stay. *)
Definition overlay_row (new old : list xcell) : list xcell :=
  (new ++ skipn (List.length new) old)%list.

Fixpoint overlay (new old : Grid) : Grid :=
  match new, old with
  | [], _ => old
  | _, [] => new
  | r :: new', r0 :: old' => overlay_row r r0 :: overlay new' old'
  end.

(** The worksheets of the workbook, in their order, each with its title. *)
Definition Workbook : Type := list (string * Grid).

Definition sheetnames (wb : Workbook) : list string := map fst wb.

(** The cells go to the worksheet titled [name]: over the worksheet of that
    title when the workbook has one, and to a new last worksheet
    otherwise. *)
Fixpoint write_titled (name : string) (cells : Grid) (wb : Workbook) : Workbook :=
  match wb with
  | [] => [(name, cells)]
  | (n, g) :: wb' =>
      if String.eqb n name then (n, overlay cells g) :: wb'
      else (n, g) :: write_titled name cells wb'
  end.

(** openpyxl, worksheet titles: the characters a title may not hold. *)
Definition invalid_title_chars : list ascii :=
  ["\"; "*"; "?"; ":"; "/"; "["; "]"]%char.

Definition invalid_title (value : string) : bool :=
  existsb (fun c => existsb (Ascii.eqb c) invalid_title_chars) (list_ascii_of_string value).

(** Titles are compared without regard to case. *)
Definition eqb_nocase (a b : string) : bool :=
  String.eqb (lower_string a) (lower_string b).

(** The rest of [s] after the text [v], letters in either case. *)
Fixpoint strip_prefix_nocase (v s : string) : option string :=
  match v, s with
  | EmptyString, _ => Some s
  | String a v', String b s' =>
      if Ascii.eqb (lower a) (lower b) then strip_prefix_nocase v' s' else None
  | String _ _, EmptyString => None
  end.

(** The digits a text starts with, and the number they write. *)
Fixpoint leading_digits (s : string) : string :=
  match s with
  | String c s' => if is_digit c then String c (leading_digits s') else EmptyString
  | EmptyString => EmptyString
  end.

Definition digits_value (ds : string) : nat :=
  fold_left (fun n c => (10 * n + digit_val c)%nat) (list_ascii_of_string ds) 0%nat.

(** openpyxl, [avoid_duplicate_name]: the counters found after the text
    [value] in the titles joined by commas.  The regular expression (the
    text [value], then digits as many as follow, then a comma when one
    follows) is searched from left to right, without regard to case, a
    match starting where the one before it ended; [skip] counts the
    characters left of the match under way. *)
Fixpoint title_counts (value : string) (skip : nat) (s : string) : list nat :=
  match s with
  | EmptyString => []
  | String _ s' =>
      match skip with
      | S k => title_counts value k s'
      | O =>
          match strip_prefix_nocase value s with
          | Some rest =>
              let ds := leading_digits rest in
              let comma :=
                match substring (String.length ds) 1 rest with
                | String "," _ => 1%nat
                | _ => 0%nat
                end in
              let len := (String.length value + String.length ds + comma)%nat in
              ((match ds with
                | EmptyString => []
                | _ => [digits_value ds]
                end) ++ title_counts value (len - 1) s')%list
          | None => title_counts value 0 s'
          end
      end
  end.

(** openpyxl, [avoid_duplicate_name]: a title that a worksheet already has,
    in whatever case, gets the next counter appended. *)
Definition avoid_duplicate_name (names : list string) (value : string) : string :=
  if existsb (eqb_nocase value) names
  then
    let highest := fold_left Nat.max (title_counts value 0 (String.concat "," names)) 0%nat in
    value ++ NilEmpty.string_of_uint (Nat.to_uint (S highest))
  else value.

(** The title a new worksheet ends with when [name] is asked for.  The
    workbook creates the worksheet under the title 'Sheet' (with a counter
    when that is taken) and the writer then sets the title: an empty title
    and a title with a forbidden character raise ValueError, and a title
    other than the one the worksheet has goes through
    [avoid_duplicate_name]. *)
Definition new_title (names : list string) (name : string) : option string :=
  match name with
  | EmptyString => None
  | _ =>
      if invalid_title name then None
      else
        let created := avoid_duplicate_name names "Sheet" in
        Some (if String.eqb created name then name
              else avoid_duplicate_name (names ++ [created]) name)
  end.

(** [to_excel(writer, sheet_name=name)] on a writer opened for writing: the
    cells are written over the worksheet titled [name] when the workbook
    has one; otherwise a worksheet is created and titled.  [None] when the
    title raises. *)
Definition write_cells (name : string) (cells : Grid) (wb : Workbook) : option Workbook :=
  if existsb (String.eqb name) (sheetnames wb)
  then Some (write_titled name cells wb)
  else
    match new_title (sheetnames wb) name with
    | Some title => Some (wb ++ [(title, cells)])%list
    | None => None
    end.

(** [sheet[:31]]: the first 31 characters. *)
Definition truncate31 (sheet : string) : string := substring 0 31 sheet.

(** Lines 118-120: the sheets are written in turn; the first write that
    raises ends the loop. *)
Definition export (pv : list (string * PivotSheet)) : option Workbook :=
  fold_left (fun wb sp =>
               match wb with
               | Some wb => write_cells (truncate31 (fst sp)) (to_excel_cells (snd sp)) wb
               | None => None
               end)
            pv (Some []).

Fixpoint wb_lookup (name : string) (wb : Workbook) : option Grid :=
  match wb with
  | [] => None
  | (n, g) :: wb' => if String.eqb n name then Some g else wb_lookup name wb'
  end.

Definition grid_cell (g : Grid) (i j : nat) : option xcell :=
  match nth_error g i with
  | Some row => nth_error row j
  | None => None
  end.

(** ** The run *)

(** What a run shows its user; [StException] is an exception that the
    script does not catch. *)
Inductive Event :=
| StError (msg : string)
| StSuccess (msg : string)
| StDownload (label : string) (data : Workbook) (file_name : string)
| StException (name : string).

(** Lines 82-91: local files first, then national files, each with the
    label entered for it (the script collects one label per file, so the
    two lists of line 78 always have the same length). *)
Definition all_metrics (local_files : list (LocalTable * string))
    (national_files : list (list NationalRow * string))
  : list (string * list CleanedTable) :=
  collect (map (fun fl => clean_national (fst fl) (snd fl)) national_files)
    (collect (map (fun fl => clean_local (fst fl) (snd fl)) local_files) []).

(** Lines 94-98. *)
Definition merged_dfs (metrics : list (string * list CleanedTable))
  : list (string * list (Key * option Q)) :=
  map (fun ld => (fst ld, merge_label (snd ld))) metrics.

Definition combined (local_files : list (LocalTable * string))
    (national_files : list (list NationalRow * string)) : option WideTable :=
  reduce_merge (merged_dfs (all_metrics local_files national_files)).

(** Lines 78-124.  The local files are cleaned first, and line 59 raises
    for a practice-code column without codes; with no table to merge the
    script shows the error and stops; the export raises on a title that
    openpyxl refuses; otherwise the script shows the success message and
    the download button. *)
Definition run (local_files : list (LocalTable * string))
    (national_files : list (list NationalRow * string)) : list Event :=
  if forallb (fun fl => match filter_practice (fst fl) with
                        | Some _ => true
                        | None => false
                        end) local_files
  then
    match combined local_files national_files with
    | None => [StError "⚠️ No valid datasets were uploaded yet..."]
    | Some c =>
        match export (pivots (sort_values c)) with
        | Some output =>
            [StSuccess "✅ Processing complete!";
             StDownload "📥 Download Excel File" output "overprescribing_charts.xlsx"]
        | None => [StException "ValueError"]
        end
    end
  else [StException "AttributeError"].

(** ** Vocabulary of the properties *)

(** Sum of a column, as [sum] accumulates it. *)
Definition Qsum (l : list Q) : Q := fold_left Qplus l 0.

(** The organisation rows of one month. *)
Definition month_rows (m : Month) (g : list (Key * (Q * Q))) : list (Key * (Q * Q)) :=
  filter (fun r => key_eqb m (snd (fst r))) g.

(** A cell as [sum] counts it. *)
Definition nz (v : option Q) : Q :=
  match v with
  | Some x => x
  | None => 0
  end.

Definition in_range (nd : Q * Q) : Prop := 0 <= fst nd /\ fst nd <= snd nd.

(** Every value of the metric column lies in [0, 100]. *)
Definition all_within_0_100 (t : CleanedTable) : Prop :=
  Forall (fun c => match c_value c with
                   | Some v => 0 <= v /\ v <= 100
                   | None => True
                   end)
         (c_rows t).





Definition is_download (e : Event) : bool :=
  match e with
  | StDownload _ _ _ => true
  | _ => false
  end.

(** The first cell that is not missing. *)
Fixpoint first_valid (vs : list (option Q)) : option Q :=
  match vs with
  | [] => None
  | Some v :: _ => Some v
  | None :: vs' => first_valid vs'
  end.

(** The values a cleaned table has for a key, in row order. *)
Definition key_values (k : Key) (t : CleanedTable) : list (option Q) :=
  vals k (dropna_keys (clean_keyed (c_rows t))).

Definition has_key (k : Key) (t : CleanedTable) : Prop :=
  exists c, In c (c_rows t) /\ c_org c = Some (fst k) /\ c_month c = Some (snd k).

(** Where a cell of the combined table comes from: the table of its column
    has the value for the row's key, or has no row of that key and the cell
    is empty. *)
Definition cell_from (k : Key) (t : string * list (Key * option Q)) (c : option Q) : Prop :=
  In (k, c) (snd t) \/ (~ In k (map fst (snd t)) /\ c = None).

(** What the accumulated join holds after the tables in [tables]. *)
Definition join_inv (tables : list (string * list (Key * option Q))) (c : WideTable) : Prop :=
  w_cols c = map fst tables /\
  (forall k, In k (map fst (w_rows c)) <->
             exists t, In t tables /\ In k (map fst (snd t))) /\
  Forall (fun row => Forall2 (cell_from (fst row)) tables (snd row)) (w_rows c).

(** The cell grids written to the worksheet [name], in writing order. *)
Definition sheets_for (name : string) (pv : list (string * PivotSheet)) : list Grid :=
  map (fun sp => to_excel_cells (snd sp))
      (filter (fun sp => String.eqb (truncate31 (fst sp)) name) pv).

(** A worksheet after one more grid is written to it. *)
Definition write_over (ws : option Grid) (g : Grid) : option Grid :=
  match ws with
  | Some old => Some (overlay g old)
  | None => Some g
  end.

Definition overlay_all (gs : list Grid) (ws : option Grid) : option Grid :=
  fold_left write_over gs ws.

(** A column is a metric column when it is not a key column. *)
Definition is_metric (col : string) : bool :=
  negb (existsb (String.eqb col) key_columns).

(** [z] is the whole number nearest to [q], the even one of two equally
    near. *)
Definition nearest_even (q : Q) (z : Z) : Prop :=
  Qabs (q - inject_Z z) <= 1 # 2 /\
  (Qabs (q - inject_Z z) == 1 # 2 -> Z.even z = true).

(** [v] is the float64 nearest to [q] (IEEE 754 binary64, round to nearest,
    ties to even, no overflow): [v] is m * 2^e, where 2^e is the spacing of
    the float64 numbers around [q] (|q| lies in [2^(e+52), 2^(e+53)), or
    below 2^-1022 with e = -1074) and m is the whole number nearest to
    q / 2^e, the even one of two equally near. *)
Definition binary64_nearest (q v : Q) : Prop :=
  exists m e : Z,
    v == inject_Z m * 2 ^ e /\
    nearest_even (q / 2 ^ e) m /\
    (-1074 <= e)%Z /\
    Qabs q < 2 ^ (e + 53) /\
    ((-1074 < e)%Z -> 2 ^ (e + 52) <= Qabs q).

(** [v] is round(N / D * 100, 2) in float64: the quotient, its product with
    100, the product with 100 that starts the rounding, the nearest whole
    number of hundredths, and the quotient by 100 that ends it. *)
Definition rounded_percentage (N D v : Q) : Prop :=
  exists (q p h : Q) (z : Z),
    binary64_nearest (N / D) q /\
    binary64_nearest (q * 100) p /\
    binary64_nearest (p * 100) h /\
    nearest_even h z /\
    binary64_nearest (inject_Z z / 100) v.

(** A count: a whole number from 0 to 2^53 - 1.  int64 and float64 both
    hold it exactly. *)
Definition is_count (q : Q) : Prop :=
  exists z : Z, (0 <= z < 2 ^ 53)%Z /\ q == inject_Z z.

Definition count_cell (v : option Q) : Prop :=
  match v with
  | Some x => is_count x
  | None => True
  end.

(** A local extract of counts: every Numerator and Denominator cell is a
    count or missing, and the total of each column is below 2^53, so that
    no sum of the script overflows or is rounded. *)
Definition whole_counts (df : LocalTable) : Prop :=
  Forall (fun r => count_cell (l_num r) /\ count_cell (l_den r)) (l_rows df) /\
  Qsum (map (fun r => nz (l_num r)) (l_rows df)) < inject_Z (2 ^ 53) /\
  Qsum (map (fun r => nz (l_den r)) (l_rows df)) < inject_Z (2 ^ 53).

(** ASCII text: every character is below 128. *)
Definition is_ascii (s : string) : bool :=
  forallb (fun c => (nat_of_ascii c <? 128)%nat) (list_ascii_of_string s).

(** A title openpyxl takes as it is on its own: not empty, without a
    forbidden character, and not 'Sheet' in any case. *)
Definition plain_title (t : string) : bool :=
  negb (String.eqb t "") && negb (invalid_title t) && negb (eqb_nocase t "Sheet").

(** Titles openpyxl takes as they are: plain ASCII titles, no two of which
    differ in case only. *)
Definition titles_taken (names : list string) : bool :=
  forallb (fun a => is_ascii a && plain_title a &&
                    forallb (fun b => implb (eqb_nocase a b) (String.eqb a b)) names)
          names.

(** The workbook of the sheets when every title is taken as it is asked
    for. *)
Definition export_titled (pv : list (string * PivotSheet)) : Workbook :=
  fold_left (fun wb sp => write_titled (truncate31 (fst sp)) (to_excel_cells (snd sp)) wb)
            pv [].


(** ** Worked inputs *)

Definition local_row (org month : string) (n d : Q) : LocalRow :=
  {| l_practice := None; l_org := Some org; l_month := Some month;
     l_num := Some n; l_den := Some d |}.

(** A local extract whose Numerator exceeds its Denominator. *)
Definition over_table : LocalTable :=
  {| has_practice_col := false; l_rows := [local_row "ORG A" "Jan-24" 150 100] |}.

(** The local extract and the national extract of the specification's
    end-to-end examples. *)
Definition example_local : LocalTable :=
  {| has_practice_col := false;
     l_rows := [local_row "ORG A" "Jan-24" 50 100; local_row "ORG A" "Feb-24" 60 120] |}.

Definition example_national : list NationalRow :=
  [{| n_country := Some "ENGLAND"; n_month := Some "Jan-24"; n_value := Some (85 # 2) |}].

Definition practice_row (code : option string) (org month : string) (n d : Q) : LocalRow :=
  {| l_practice := code; l_org := Some org; l_month := Some month;
     l_num := Some n; l_den := Some d |}.


(** A national extract in which one month does not parse. *)
Definition bad_month_national : list NationalRow :=
  [ {| n_country := Some "ENGLAND"; n_month := Some "Jan-24"; n_value := Some (85 # 2) |};
    {| n_country := Some "ENGLAND"; n_month := Some "February 2024"; n_value := Some 43 |} ].

(** Two cleaned tables of one label that both report England for Jan-24. *)
Definition first_table : CleanedTable :=
  clean_national
    [{| n_country := Some "ENGLAND"; n_month := Some "Jan-24"; n_value := Some 10 |}]
    "Screening (%)".

Definition second_table : CleanedTable :=
  clean_national
    [{| n_country := Some "ENGLAND"; n_month := Some "Jan-24"; n_value := Some 30 |}]
    "Screening (%)".

(** Two labels with the same first 31 characters, one used for a local
    file and one for a national file. *)
Definition label_all : string := "Patients on 10 or more medicines (%)".
Definition label_75 : string := "Patients on 10 or more medicines, aged 75+ (%)".

Definition collision_local : LocalTable :=
  {| has_practice_col := false; l_rows := [local_row "ORG A" "Jan-24" 50 100] |}.

Definition sheet_all : PivotSheet :=
  {| pv_orgs := ["North East and North Cumbria"; "ORG A"];
     pv_rows := [((2024, 1)%nat, [Some 50; Some 50])] |}.

Definition sheet_75 : PivotSheet :=
  {| pv_orgs := ["England"]; pv_rows := [((2024, 1)%nat, [Some (85 # 2)])] |}.

(** An extract with a quotient that is a tie in decimals, 23 / 160
    = 14.375 %, and a row with the Denominator 0. *)
Definition ties_table : LocalTable :=
  {| has_practice_col := false;
     l_rows := [local_row "ORG A" "Jan-24" 23 160; local_row "ORG B" "Jan-24" 1 0] |}.

(** An extract with two organisations in one month, a row of a closed
    practice, a row without organisation, a row without Numerator, and a
    month whose Denominator is 0. *)
Definition two_org_table : LocalTable :=
  {| has_practice_col := true;
     l_rows := [practice_row (Some "HIGH STREET SURGERY (A81001)") "ORG A" "Jan-24" 10 100;
                practice_row (Some "OLD ROAD SURGERY ( C1 )") "ORG A" "Jan-24" 1000 1000;
                practice_row None "ORG B" "Jan-24" 20 100;
                {| l_practice := Some "THE GREEN (A81002)"; l_org := None;
                   l_month := Some "Jan-24"; l_num := Some 5; l_den := Some 50 |};
                {| l_practice := Some "MILL LANE SURGERY (A81003)"; l_org := Some "ORG A";
                   l_month := Some "Jan-24"; l_num := None; l_den := Some 40 |};
                practice_row (Some "HIGH STREET SURGERY (A81001)") "ORG A" "Feb-24" 7 0] |}.

(** An extract whose practice-code column has no code at all. *)
Definition no_codes_table : LocalTable :=
  {| has_practice_col := true;
     l_rows := [practice_row None "ORG A" "Jan-24" 50 100;
                practice_row None "ORG A" "Feb-24" 60 120] |}.

(** ** The labels of the upload form *)

(** Lines 36 and 40: the label a file gets when its text box is left as it
    is, [f"Metric {i+1} (%)"] for the file at position [i]. *)
Definition default_label (i : nat) : string :=
  "Metric " ++ NilEmpty.string_of_uint (Nat.to_uint (i + 1)) ++ " (%)".

(** [st.text_input(prompt, default)]: the text entered, or the default. *)
Definition text_input (entered : option string) (default : string) : string :=
  match entered with
  | Some s => s
  | None => default
  end.

(** Lines 35-40 and the [zip] of lines 82 and 88: every file of one kind,
    in upload order, with the label of its text box. *)
Fixpoint with_labels {X} (i : nat) (files : list (X * option string)) : list (X * string) :=
  match files with
  | [] => []
  | (file, entered) :: files' =>
      (file, text_input entered (default_label i)) :: with_labels (S i) files'
  end.

(** ** Vocabulary of the further properties *)

(** The months [strptime] can give: years 1969 to 2068, months 1 to 12. *)
Definition valid_month (m : Month) : Prop :=
  (1969 <= fst m <= 2068)%nat /\ (1 <= snd m <= 12)%nat.

Definition all_months : list Month :=
  list_prod (seq 1969 100) (seq 1 12).

Definition month_eqb (a b : option Month) : bool :=
  match a, b with
  | Some x, Some y => (fst x =? fst y)%nat && (snd x =? snd y)%nat
  | None, None => true
  | _, _ => false
  end.

(** The key a local row is grouped under at line 63, when it has one. *)
Definition local_key (r : LocalRow) : option Key :=
  row_key (replace organisation_legend_mapping (l_org r)) (to_datetime (l_month r)).


(** The rows that pass the practice filter and are grouped under [k]. *)
Definition rows_of_key (k : Key) (df : LocalTable) : list LocalRow :=
  filter (fun r => match local_key r with
                   | Some k' => key_eqb k k'
                   | None => false
                   end)
         (practice_kept df).

(** The rows that pass the practice filter and are grouped under some
    organisation for the month [m]. *)
Definition rows_of_month (m : Month) (df : LocalTable) : list LocalRow :=
  filter (fun r => match local_key r with
                   | Some k' => key_eqb m (snd k')
                   | None => false
                   end)
         (practice_kept df).


(** The (organisation, month) cells of the rows of a cleaned table. *)
Definition clean_keys (t : CleanedTable) : list (option string * option Month) :=
  map (fun c => (c_org c, c_month c)) (c_rows t).

(** A local extract in which one organisation already has the name of the
    region. *)
Definition region_named_table : LocalTable :=
  {| has_practice_col := false;
     l_rows := [local_row "North East and North Cumbria" "Jan-24" 10 100;
                local_row "ORG A" "Jan-24" 50 100] |}.

(** [d.get(k)] on a dict with text keys. *)
Fixpoint dict_find {X} (k : string) (d : list (string * X)) : option X :=
  match d with
  | [] => None
  | (k', x) :: d' => if String.eqb k' k then Some x else dict_find k d'
  end.

(** The cleaned tables of a run, in the order lines 82-91 make them. *)
Definition cleaned_tables (local_files : list (LocalTable * string))
    (national_files : list (list NationalRow * string)) : list CleanedTable :=
  (map (fun fl => clean_local (fst fl) (snd fl)) local_files ++
   map (fun fl => clean_national (fst fl) (snd fl)) national_files)%list.

(** The tables that carry a label. *)
Definition with_label (label : string) (tables : list CleanedTable) : list CleanedTable :=
  filter (fun t => String.eqb (c_label t) label) tables.

(** Keys in strictly ascending order. *)
Fixpoint ascending {K} `{Ord K} (ks : list K) : Prop :=
  match ks with
  | [] => True
  | k :: ks' => Forall (fun k' => cmp k k' = Lt) ks' /\ ascending ks'
  end.

(** Rows in the order [sort_values] leaves them: no row is followed, at any
    distance, by a row whose (month, organisation) is smaller. *)
Fixpoint rows_ordered (rows : list (Key * list (option Q))) : Prop :=
  match rows with
  | [] => True
  | r :: rows' =>
      Forall (fun r' => cmp (sort_key r) (sort_key r') <> Gt) rows' /\ rows_ordered rows'
  end.

(** A row of the table has a value in column [j] for the organisation [o]
    and the month [m]. *)
Definition has_value (j : nat) (rows : list (Key * list (option Q)))
    (o : string) (m : Month) : Prop :=
  exists cells, In ((o, m), cells) rows /\ nth j cells None <> None.

Definition count_valid (vs : list (option Q)) : nat :=
  List.length (filter (fun v => match v with Some _ => true | None => false end) vs).

(** The worksheet a sheet is written to, and the cells written. *)
Definition written (sp : string * PivotSheet) : string * Grid :=
  (truncate31 (fst sp), to_excel_cells (snd sp)).

(** Files whose label box was left as it is. *)
Definition untouched {X} (files : list X) : list (X * option string) :=
  map (fun f => (f, None)) files.

(** * Properties *)

(** ** The key order is a strict total order *)

(** The laws of a key order: [Eq] is equality, and [Lt] is transitive. *)
Class OrdLaws (A : Type) `{Ord A} := {
  cmp_eq : forall a b : A, cmp a b = Eq <-> a = b;
  cmp_antisym : forall a b : A, cmp b a = CompOpp (cmp a b);
  cmp_trans : forall a b c : A, cmp a b = Lt -> cmp b c = Lt -> cmp a c = Lt
}.

Lemma nat_cmp_eq (a b : nat) : Nat.compare a b = Eq <-> a = b.
Proof. apply Nat.compare_eq_iff. Qed.

Lemma nat_cmp_antisym (a b : nat) : Nat.compare b a = CompOpp (Nat.compare a b).
Proof. apply Nat.compare_antisym. Qed.

Lemma nat_cmp_trans (a b c : nat) :
  Nat.compare a b = Lt -> Nat.compare b c = Lt -> Nat.compare a c = Lt.
Proof. rewrite !Nat.compare_lt_iff. lia. Qed.

#[export] Instance nat_OrdLaws : OrdLaws nat.
Proof.
  constructor; [exact nat_cmp_eq|exact nat_cmp_antisym|exact nat_cmp_trans].
Qed.

Lemma ascii_cmp_trans (a b c : ascii) :
  Ascii.compare a b = Lt -> Ascii.compare b c = Lt -> Ascii.compare a c = Lt.
Proof.
  unfold Ascii.compare. rewrite !N.compare_lt_iff. lia.
Qed.

Lemma string_cmp_eq (a b : string) : String.compare a b = Eq <-> a = b.
Proof.
  split.
  - apply String.compare_eq_iff.
  - intros ->. induction b as [|c b IH]; simpl; [reflexivity|].
    replace (Ascii.compare c c) with Eq; [exact IH|].
    symmetry. unfold Ascii.compare. apply N.compare_refl.
Qed.

Lemma string_cmp_antisym (a b : string) :
  String.compare b a = CompOpp (String.compare a b).
Proof. apply String.compare_antisym. Qed.

Lemma string_cmp_trans (a b c : string) :
  String.compare a b = Lt -> String.compare b c = Lt -> String.compare a c = Lt.
Proof.
  revert b c. induction a as [|x a IH]; intros [|y b] [|z c]; simpl;
    try discriminate; try reflexivity.
  destruct (Ascii.compare x y) eqn:Exy; try discriminate;
    destruct (Ascii.compare y z) eqn:Eyz; try discriminate; intros H1 H2.
  - apply Ascii.compare_eq_iff in Exy, Eyz. subst.
    replace (Ascii.compare z z) with Eq
      by (symmetry; unfold Ascii.compare; apply N.compare_refl).
    eapply IH; eassumption.
  - apply Ascii.compare_eq_iff in Exy. subst. rewrite Eyz. reflexivity.
  - apply Ascii.compare_eq_iff in Eyz. subst. rewrite Exy. reflexivity.
  - rewrite (ascii_cmp_trans _ _ _ Exy Eyz). reflexivity.
Qed.

#[export] Instance string_OrdLaws : OrdLaws string.
Proof.
  constructor; [exact string_cmp_eq|exact string_cmp_antisym|exact string_cmp_trans].
Qed.

Lemma cmp_refl {A} `{OrdLaws A} (a : A) : cmp a a = Eq.
Proof. apply cmp_eq. reflexivity. Qed.

Lemma cmp_gt_lt {A} `{OrdLaws A} (a b : A) : cmp a b = Gt <-> cmp b a = Lt.
Proof.
  rewrite (cmp_antisym a b). destruct (cmp a b); simpl; split; congruence.
Qed.

Lemma pair_cmp_eq {A B} `{OrdLaws A} `{OrdLaws B} (p q : A * B) :
  pair_cmp p q = Eq <-> p = q.
Proof.
  destruct p as [a b], q as [a' b']. unfold pair_cmp. simpl. split.
  - destruct (cmp a a') eqn:E; try discriminate.
    intros E'. apply cmp_eq in E, E'. congruence.
  - intros [= -> ->]. rewrite !cmp_refl. reflexivity.
Qed.

Lemma pair_cmp_antisym {A B} `{OrdLaws A} `{OrdLaws B} (p q : A * B) :
  pair_cmp q p = CompOpp (pair_cmp p q).
Proof.
  destruct p as [a b], q as [a' b']. unfold pair_cmp. simpl.
  rewrite (cmp_antisym a a'). destruct (cmp a a'); simpl; auto.
  apply cmp_antisym.
Qed.

Lemma pair_cmp_trans {A B} `{OrdLaws A} `{OrdLaws B} (p q r : A * B) :
  pair_cmp p q = Lt -> pair_cmp q r = Lt -> pair_cmp p r = Lt.
Proof.
  destruct p as [a1 b1], q as [a2 b2], r as [a3 b3]. unfold pair_cmp. simpl.
  destruct (cmp a1 a2) eqn:E12; try discriminate;
    destruct (cmp a2 a3) eqn:E23; try discriminate; intros Hpq Hqr.
  - apply cmp_eq in E12, E23. subst. rewrite cmp_refl.
    eapply cmp_trans; eassumption.
  - apply cmp_eq in E12. subst. rewrite E23. reflexivity.
  - apply cmp_eq in E23. subst. rewrite E12. reflexivity.
  - rewrite (cmp_trans _ _ _ E12 E23). reflexivity.
Qed.

#[export] Instance pair_OrdLaws {A B} `{OrdLaws A} `{OrdLaws B} : OrdLaws (A * B).
Proof.
  constructor; [exact pair_cmp_eq|exact pair_cmp_antisym|exact pair_cmp_trans].
Qed.

Lemma key_eqb_spec {A} `{OrdLaws A} (a b : A) : reflect (a = b) (key_eqb a b).
Proof.
  unfold key_eqb. destruct (cmp a b) eqn:E; constructor.
  - apply cmp_eq. exact E.
  - intros Hab. apply cmp_eq in Hab. congruence.
  - intros Hab. apply cmp_eq in Hab. congruence.
Qed.

(** ** Facts about [groupby] *)

Section GroupByFacts.
Context {K V A : Type} `{OrdLaws K}.
Variable empty : A.
Variable step : A -> V -> A.

Lemma below_trans (k k' : K) (l : list (K * A)) : cmp k k' = Lt -> below k' l -> below k l.
Proof.
  intros Hk Hb. unfold below in *. rewrite Forall_forall in *.
  intros p Hp. eapply cmp_trans; [exact Hk|]. apply Hb, Hp.
Qed.

Lemma upsert_below (k0 k : K) (v : V) (l : list (K * A)) :
  cmp k0 k = Lt -> below k0 l -> below k0 (upsert empty step k v l).
Proof.
  intros Hk. induction l as [|[k' a] l IH]; simpl; intros Hb.
  - constructor; [exact Hk|constructor].
  - inversion Hb as [|? ? Hhd Htl]; subst. destruct (cmp k k') eqn:E.
    + constructor; assumption.
    + constructor; [exact Hk|exact Hb].
    + constructor; [exact Hhd|]. apply IH, Htl.
Qed.

Lemma upsert_sorted (k : K) (v : V) (l : list (K * A)) : sorted l -> sorted (upsert empty step k v l).
Proof.
  induction l as [|[k' a] l IH]; simpl; intros Hs.
  - split; [constructor|exact I].
  - destruct Hs as [Hb Hs]. destruct (cmp k k') eqn:E; simpl.
    + split; assumption.
    + split; [|split; assumption].
      constructor; [exact E|]. eapply below_trans; eassumption.
    + split; [|apply IH, Hs].
      apply upsert_below; [|exact Hb]. apply cmp_gt_lt, E.
Qed.

Lemma agg_rows_sorted (rows : list (K * V)) (acc : list (K * A)) : sorted acc -> sorted (agg_rows empty step rows acc).
Proof.
  revert acc. induction rows as [|[k v] rows IH]; simpl; intros acc Hs.
  - exact Hs.
  - apply IH, upsert_sorted, Hs.
Qed.

Lemma groupby_sorted (rows : list (K * V)) : sorted (groupby empty step rows).
Proof. apply agg_rows_sorted. exact I. Qed.

Lemma lookup_below (k : K) (l : list (K * A)) : below k l -> lookup k l = None.
Proof.
  induction l as [|[k' a] l IH]; simpl; intros Hb; [reflexivity|].
  inversion Hb as [|? ? Hhd Htl]; subst. simpl in Hhd.
  unfold key_eqb. rewrite Hhd. apply IH, Htl.
Qed.

Lemma lookup_upsert (k k' : K) (v : V) (l : list (K * A)) :
  sorted l ->
  lookup k (upsert empty step k' v l) =
    if key_eqb k k' then Some (step (from_acc empty (lookup k l)) v) else lookup k l.
Proof.
  induction l as [|[k0 a0] l IH]; simpl; intros Hs.
  - destruct (key_eqb k k'); reflexivity.
  - destruct Hs as [Hb Hs]. destruct (cmp k' k0) eqn:E; simpl.
    + apply cmp_eq in E. subst k0.
      destruct (key_eqb k k'); reflexivity.
    + destruct (key_eqb_spec k k') as [->|Hne]; [|reflexivity].
      unfold key_eqb at 1. rewrite E.
      rewrite (lookup_below k' l (below_trans k' k0 l E Hb)). reflexivity.
    + rewrite (IH Hs).
      destruct (key_eqb_spec k k0) as [->|Hne]; [|reflexivity].
      destruct (key_eqb_spec k0 k') as [->|_]; [|reflexivity].
      rewrite cmp_refl in E. discriminate.
Qed.

Lemma lookup_agg_rows (k : K) (rows : list (K * V)) (acc : list (K * A)) :
  sorted acc ->
  lookup k (agg_rows empty step rows acc) = fold_group empty step (lookup k acc) (vals k rows).
Proof.
  revert acc. induction rows as [|[k' v] rows IH]; simpl; intros acc Hs.
  - reflexivity.
  - unfold agg_rows in *. simpl. rewrite (IH _ (upsert_sorted k' v acc Hs)).
    rewrite (lookup_upsert k k' v acc Hs). unfold vals. simpl.
    destruct (key_eqb k k'); simpl; [|reflexivity].
    destruct (map snd (filter _ rows)); reflexivity.
Qed.

(** What [groupby] holds for a key: nothing when no row has the key,
    otherwise the fold of [step] over the rows of the key in row order. *)
Lemma lookup_groupby (k : K) (rows : list (K * V)) :
  lookup k (groupby empty step rows) = fold_group empty step None (vals k rows).
Proof. unfold groupby. rewrite lookup_agg_rows; [reflexivity|exact I]. Qed.

Lemma lookup_In (k : K) (a : A) (l : list (K * A)) : lookup k l = Some a -> In (k, a) l.
Proof.
  induction l as [|[k' a'] l IH]; simpl; [discriminate|].
  destruct (key_eqb_spec k k') as [->|_].
  - intros [= ->]. left. reflexivity.
  - intros Hl. right. apply IH, Hl.
Qed.

Lemma below_not_In (k : K) (a : A) (l : list (K * A)) : below k l -> ~ In (k, a) l.
Proof.
  unfold below. rewrite Forall_forall. intros Hb Hin.
  specialize (Hb _ Hin). simpl in Hb. rewrite cmp_refl in Hb. discriminate.
Qed.

Lemma In_lookup (k : K) (a : A) (l : list (K * A)) : sorted l -> In (k, a) l -> lookup k l = Some a.
Proof.
  induction l as [|[k' a'] l IH]; simpl; [intros _ []|].
  intros [Hb Hs] [Heq|Hin].
  - injection Heq as -> ->. unfold key_eqb. rewrite cmp_refl. reflexivity.
  - destruct (key_eqb_spec k k') as [->|_]; [|apply IH; assumption].
    exfalso. eapply below_not_In; eassumption.
Qed.

Lemma In_keys_lookup (k : K) (l : list (K * A)) : In k (map fst l) <-> lookup k l <> None.
Proof.
  induction l as [|[k' a'] l IH]; simpl.
  - split; [intros []|congruence].
  - destruct (key_eqb_spec k k') as [->|Hne].
    + split; [discriminate|auto].
    + rewrite <- IH. split; [intros [Heq|Hin]; [congruence|exact Hin]|auto].
Qed.

Lemma sorted_NoDup (l : list (K * A)) : sorted l -> NoDup (map fst l).
Proof.
  induction l as [|[k a] l IH]; simpl; intros Hs; [constructor|].
  destruct Hs as [Hb Hs]. constructor; [|apply IH, Hs].
  intros Hin. apply In_keys_lookup in Hin. apply Hin, lookup_below, Hb.
Qed.

Lemma vals_nil_iff (k : K) (rows : list (K * V)) : vals k rows = [] <-> ~ In k (map fst rows).
Proof.
  unfold vals. induction rows as [|[k' v] rows IH]; simpl.
  - split; auto.
  - destruct (key_eqb_spec k k') as [->|Hne]; simpl.
    + split; [discriminate|intros Hn; exfalso; auto].
    + rewrite IH. split; [intros Hn [Heq|Hin]; [congruence|auto]|auto].
Qed.

(** [groupby] has a group for exactly the keys of its rows. *)
Lemma groupby_keys (k : K) (rows : list (K * V)) :
  In k (map fst (groupby empty step rows)) <-> In k (map fst rows).
Proof.
  rewrite In_keys_lookup, lookup_groupby.
  destruct (vals k rows) as [|v vs] eqn:E; simpl.
  - apply vals_nil_iff in E. split; [congruence|intros Hin; contradiction].
  - split; [|discriminate]. intros _.
    destruct (in_dec (fun a b => reflect_dec _ _ (key_eqb_spec a b)) k (map fst rows))
      as [Hin|Hn]; [exact Hin|].
    apply vals_nil_iff in Hn. congruence.
Qed.

Lemma groupby_NoDup (rows : list (K * V)) : NoDup (map fst (groupby empty step rows)).
Proof. apply sorted_NoDup, groupby_sorted. Qed.

End GroupByFacts.

(** ** Aggregation lemmas *)

Lemma vals_map {K V X} `{OrdLaws K} (f : X -> K * V) (k : K) (l : list X) :
  vals k (map f l) = map (fun x => snd (f x)) (filter (fun x => key_eqb k (fst (f x))) l).
Proof.
  unfold vals. induction l as [|x l IH]; simpl; [reflexivity|].
  destruct (key_eqb k (fst (f x))); simpl; rewrite IH; reflexivity.
Qed.

Lemma fold_sum_step (l : list (Q * Q)) (a : Q * Q) :
  fold_left sum_step (map (fun nd => (Some (fst nd), Some (snd nd))) l) a =
  (fold_left Qplus (map fst l) (fst a), fold_left Qplus (map snd l) (snd a)).
Proof.
  revert a. induction l as [|[n d] l IH]; intros [a b]; simpl; [reflexivity|].
  rewrite IH. reflexivity.
Qed.

Lemma fold_group_some {V A} (empty : A) (step : A -> V -> A) (vs : list V) (a : A) :
  fold_group empty step None vs = Some a ->
  vs <> [] /\ a = fold_left step vs empty.
Proof.
  destruct vs as [|v vs]; simpl; [discriminate|].
  intros [= <-]. split; [discriminate|reflexivity].
Qed.

Lemma month_sums_lookup (g : list (Key * (Q * Q))) (m : Month) (nd : Q * Q) :
  In (m, nd) (month_sums g) ->
  month_rows m g <> [] /\
  nd = (Qsum (map (fun r => fst (snd r)) (month_rows m g)),
        Qsum (map (fun r => snd (snd r)) (month_rows m g))).
Proof.
  intros Hin. unfold month_sums in Hin.
  apply In_lookup in Hin; [|apply groupby_sorted].
  rewrite lookup_groupby in Hin. apply fold_group_some in Hin.
  destruct Hin as [Hne ->].
  rewrite (vals_map (fun r : Key * (Q * Q) =>
             (snd (fst r), (Some (fst (snd r)), Some (snd (snd r)))))) in *.
  simpl in *. unfold month_rows. split.
  - intros E. apply Hne.
    exact (f_equal (map (fun x : Key * (Q * Q) =>
                           (Some (fst (snd x)), Some (snd (snd x))))) E).
  - rewrite <- (map_map (fun r : Key * (Q * Q) => snd r)
                        (fun nd => (Some (fst nd), Some (snd nd)))).
    rewrite fold_sum_step. simpl. unfold Qsum. rewrite !map_map. reflexivity.
Qed.

(** ** Rounding: the nearest whole number and the nearest float64 *)

Lemma rint_nearest_even (q : Q) : nearest_even q (rint q).
Proof.
  destruct q as [n d]. unfold nearest_even, rint. cbn [Qnum Qden].
  pose proof (Z.div_mod n (Z.pos d) ltac:(lia)) as Hdm.
  pose proof (Z.mod_pos_bound n (Z.pos d) ltac:(lia)) as Hm.
  set (fl := (n / Z.pos d)%Z) in *. set (r := (n mod Z.pos d)%Z) in *.
  assert (Hev : Z.even fl = false -> Z.even (fl + 1) = true).
  { intros H. rewrite Z.even_add, H. reflexivity. }
  clearbody fl r.
  assert (Habs : forall z : Z,
             Qabs ((n # d) - inject_Z z) == Z.abs (n - z * Z.pos d) # d).
  { intros z. unfold Qminus, Qplus, Qopp, inject_Z, Qabs, Qeq. cbn [Qnum Qden].
    rewrite Pos.mul_1_r. f_equal. f_equal. lia. }
  destruct (Z.compare_spec (2 * r) (Z.pos d)) as [E|E|E].
  - destruct (Z.even fl) eqn:Ev.
    + split; [|intros _; exact Ev]. rewrite Habs. unfold Qle. cbn [Qnum Qden]. nia.
    + split; [|intros _; exact (Hev eq_refl)].
      rewrite Habs. unfold Qle. cbn [Qnum Qden]. nia.
  - split.
    + rewrite Habs. unfold Qle. cbn [Qnum Qden]. nia.
    + rewrite Habs. unfold Qeq. cbn [Qnum Qden]. intros H. exfalso. nia.
  - split.
    + rewrite Habs. unfold Qle. cbn [Qnum Qden]. nia.
    + rewrite Habs. unfold Qeq. cbn [Qnum Qden]. intros H. exfalso. nia.
Qed.

Lemma nearest_even_bounds (q : Q) (z : Z) :
  nearest_even q z -> inject_Z z - (1 # 2) <= q /\ q <= inject_Z z + (1 # 2).
Proof.
  intros [H _]. apply Qabs_Qle_condition in H. lra.
Qed.

Lemma Qabs_half (x : Q) : x == 1 # 2 \/ x == - (1 # 2) -> Qabs x == 1 # 2.
Proof.
  intros [H|H]; rewrite H; reflexivity.
Qed.

Lemma Zle_Qlt_succ (a b : Z) : inject_Z a < inject_Z b + 1 -> (a <= b)%Z.
Proof. unfold Qlt, Qplus, inject_Z. cbn [Qnum Qden]. lia. Qed.

Lemma nearest_even_unique (q q' : Q) (z z' : Z) :
  q == q' -> nearest_even q z -> nearest_even q' z' -> z = z'.
Proof.
  intros Hq Hz Hz'.
  pose proof (nearest_even_bounds q z Hz) as [H1 H2].
  pose proof (nearest_even_bounds q' z' Hz') as [H3 H4].
  destruct Hz as [_ Hev], Hz' as [_ Hev'].
  assert (Hd : (z' - 1 <= z <= z' + 1)%Z).
  { assert (Ha : (z' <= z + 1)%Z)
      by (apply Zle_Qlt_succ; rewrite inject_Z_plus; change (inject_Z 1) with 1; lra).
    assert (Hb : (z <= z' + 1)%Z)
      by (apply Zle_Qlt_succ; rewrite inject_Z_plus; change (inject_Z 1) with 1; lra).
    lia. }
  destruct (Z.eq_dec z z') as [E|E]; [exact E|exfalso].
  assert (Hc : (z = z' - 1 \/ z = z' + 1)%Z) by lia.
  assert (Ht : Qabs (q - inject_Z z) == 1 # 2 /\ Qabs (q' - inject_Z z') == 1 # 2).
  { assert (Hi : inject_Z z == inject_Z z' - 1 \/ inject_Z z == inject_Z z' + 1).
    { destruct Hc as [-> | ->]; [left|right]; unfold Qeq, Qminus, Qplus, inject_Z;
        cbn [Qnum Qden Qopp]; lia. }
    destruct Hi as [Hi|Hi]; split; apply Qabs_half; lra. }
  destruct Ht as [Ht Ht']. specialize (Hev Ht). specialize (Hev' Ht').
  destruct Hc as [-> | ->].
  - rewrite Z.even_sub, Hev' in Hev. discriminate.
  - rewrite Z.even_add, Hev' in Hev. discriminate.
Qed.

Lemma nearest_even_whole (q : Q) (z : Z) : q == inject_Z z -> nearest_even q z.
Proof.
  intros H. unfold nearest_even.
  assert (E : q - inject_Z z == 0) by lra.
  rewrite E. split; [discriminate|]. intros Hc. discriminate Hc.
Qed.

Lemma rint_whole (q : Q) (z : Z) : q == inject_Z z -> rint q = z.
Proof.
  intros H. apply (nearest_even_unique q q); [reflexivity|apply rint_nearest_even|].
  apply nearest_even_whole, H.
Qed.

Lemma rint_lower (q : Q) (a : Z) : inject_Z a <= q -> (a <= rint q)%Z.
Proof.
  intros H. pose proof (nearest_even_bounds q _ (rint_nearest_even q)) as [_ H2].
  apply Zle_Qlt_succ. lra.
Qed.

Lemma rint_upper (q : Q) (b : Z) : q <= inject_Z b -> (rint q <= b)%Z.
Proof.
  intros H. pose proof (nearest_even_bounds q _ (rint_nearest_even q)) as [H1 _].
  apply Zle_Qlt_succ. lra.
Qed.

Lemma pow2_pos (e : Z) : 0 < 2 ^ e.
Proof. apply Qpower_0_lt. reflexivity. Qed.

Lemma pow2_Z (e : Z) : (0 <= e)%Z -> 2 ^ e == inject_Z (2 ^ e).
Proof. intros H. rewrite Zpower_Qpower by exact H. reflexivity. Qed.

Lemma pow2_le (a b : Z) : (a <= b)%Z -> 2 ^ a <= 2 ^ b.
Proof. intros H. apply Qpower_le_compat_l; [exact H|discriminate]. Qed.

Lemma pow2_plus (a b : Z) : 2 ^ (a + b) == 2 ^ a * 2 ^ b.
Proof. apply Qpower_plus. discriminate. Qed.

Lemma Qabs_Qmake (q : Q) :
  Qabs q == inject_Z (Z.abs (Qnum q)) / inject_Z (Z.pos (Qden q)).
Proof. destruct q as [n d]. unfold Qabs. cbn [Qnum Qden]. apply Qmake_Qdiv. Qed.

Lemma binade_spec (q : Q) :
  ~ q == 0 -> 2 ^ binade q <= Qabs q /\ Qabs q < 2 ^ (binade q + 1).
Proof.
  intros Hq. unfold binade.
  set (n := Z.abs (Qnum q)). set (d := Z.pos (Qden q)).
  assert (Hn : (0 < n)%Z).
  { unfold n. destruct q as [[|p|p] dd]; cbn [Qnum]; try lia.
    exfalso. apply Hq. reflexivity. }
  assert (Hd : (0 < d)%Z) by (unfold d; lia).
  pose proof (Z.log2_spec n Hn) as [Hn1 Hn2].
  pose proof (Z.log2_spec d Hd) as [Hd1 Hd2].
  pose proof (Z.log2_nonneg n) as Hln. pose proof (Z.log2_nonneg d) as Hld.
  set (ln := Z.log2 n) in *. set (ld := Z.log2 d) in *.
  assert (Ea : Qabs q == inject_Z n / inject_Z d) by apply Qabs_Qmake.
  assert (HnQ : 0 < inject_Z n) by (change 0 with (inject_Z 0); rewrite <- Zlt_Qlt; exact Hn).
  assert (HdQ : 0 < inject_Z d) by (change 0 with (inject_Z 0); rewrite <- Zlt_Qlt; exact Hd).
  assert (Hn1Q : 2 ^ ln <= inject_Z n) by (rewrite pow2_Z by lia; rewrite <- Zle_Qle; exact Hn1).
  assert (Hn2Q : inject_Z n < 2 ^ (ln + 1))
    by (rewrite pow2_Z by lia; rewrite <- Zlt_Qlt; exact Hn2).
  assert (Hd1Q : 2 ^ ld <= inject_Z d) by (rewrite pow2_Z by lia; rewrite <- Zle_Qle; exact Hd1).
  assert (Hd2Q : inject_Z d < 2 ^ (ld + 1))
    by (rewrite pow2_Z by lia; rewrite <- Zlt_Qlt; exact Hd2).
  set (a := Qabs q) in *.
  assert (Ead : a * inject_Z d == inject_Z n).
  { rewrite Ea. field. lra. }
  clearbody a. clear Ea.
  assert (Hup : a < 2 ^ (ln - ld + 1)).
  { replace (ln - ld + 1)%Z with ((ln + 1) + - ld)%Z by lia.
    rewrite pow2_plus, Qpower_opp.
    pose proof (pow2_pos ld) as Hp.
    apply Qlt_shift_div_l; [exact Hp|]. 
    pose proof (pow2_pos (ln + 1)).
    assert (0 <= a) by (apply Qnot_lt_le; intros Hc; nra).
    nra. }
  assert (Hlo : 2 ^ (ln - ld - 1) <= a).
  { replace (ln - ld - 1)%Z with (ln + - (ld + 1))%Z by lia.
    rewrite pow2_plus, Qpower_opp.
    pose proof (pow2_pos (ld + 1)) as Hp.
    apply Qle_shift_div_r; [exact Hp|].
    pose proof (pow2_pos ln).
    assert (0 <= a) by (apply Qnot_lt_le; intros Hc; nra).
    nra. }
  destruct (Qle_bool (2 ^ (ln - ld)) a) eqn:E.
  - apply Qle_bool_iff in E. split; [exact E|exact Hup].
  - split; [exact Hlo|].
    replace (ln - ld - 1 + 1)%Z with (ln - ld)%Z by lia.
    apply Qnot_le_lt. intros Hc. apply Qle_bool_iff in Hc. congruence.
Qed.

Lemma nearest_even_eq (q q' : Q) (z : Z) : q == q' -> nearest_even q z -> nearest_even q' z.
Proof.
  intros H [H1 H2]. unfold nearest_even. rewrite <- H. split; assumption.
Qed.

Lemma binary64_nearest_eq (q q' v : Q) :
  q == q' -> binary64_nearest q v -> binary64_nearest q' v.
Proof.
  intros H (m & e & Hv & Hn & He & Hlt & Hle).
  exists m, e. split; [exact Hv|]. split.
  - apply (nearest_even_eq (q / 2 ^ e)); [rewrite H; reflexivity|exact Hn].
  - rewrite <- H. auto.
Qed.

Lemma float64_exponent (q : Q) :
  ~ q == 0 ->
  let e := Z.max (binade q - 52) (-1074) in
  float64 q == inject_Z (rint (q / 2 ^ e)) * 2 ^ e /\
  (-1074 <= e)%Z /\ Qabs q < 2 ^ (e + 53) /\ ((-1074 < e)%Z -> 2 ^ (e + 52) <= Qabs q).
Proof.
  intros Hq e. destruct (binade_spec q Hq) as [Hlo Hhi].
  split; [|split; [lia|split]].
  - unfold float64. destruct (Qeq_bool q 0) eqn:E.
    + apply Qeq_bool_iff in E. contradiction.
    + fold e. apply Qred_correct.
  - eapply Qlt_le_trans; [exact Hhi|]. apply pow2_le. lia.
  - intros He. replace (e + 52)%Z with (binade q) by lia. exact Hlo.
Qed.

Lemma float64_zero (q : Q) : q == 0 -> float64 q = 0.
Proof. intros H. unfold float64. apply Qeq_bool_iff in H. rewrite H. reflexivity. Qed.

Lemma float64_nearest (q : Q) : binary64_nearest q (float64 q).
Proof.
  destruct (Qeq_dec q 0) as [Hq|Hq].
  - rewrite (float64_zero q Hq). exists 0%Z, (-1074)%Z.
    split; [ring|]. split; [|split; [lia|split]].
    + apply nearest_even_whole. rewrite Hq. unfold Qdiv. ring.
    + rewrite Hq. apply pow2_pos.
    + lia.
  - destruct (float64_exponent q Hq) as (Hv & He & Hlt & Hle).
    exists (rint (q / 2 ^ Z.max (binade q - 52) (-1074))), (Z.max (binade q - 52) (-1074)).
    split; [exact Hv|]. split; [apply rint_nearest_even|]. auto.
Qed.

(** A whole number below 2^53 is a float64. *)
Lemma float64_whole (z : Z) : (Z.abs z < 2 ^ 53)%Z -> float64 (inject_Z z) == inject_Z z.
Proof.
  intros Hz. destruct (Z.eq_dec z 0) as [->|Hz0]; [reflexivity|].
  assert (Hq : ~ inject_Z z == 0).
  { unfold Qeq, inject_Z. cbn [Qnum Qden]. lia. }
  destruct (float64_exponent _ Hq) as (Hv & He & Hlt & Hle).
  destruct (binade_spec _ Hq) as [Hlo _].
  set (e := Z.max (binade (inject_Z z) - 52) (-1074)) in *.
  assert (Ha : Qabs (inject_Z z) == inject_Z (Z.abs z)) by reflexivity.
  assert (Hb : (binade (inject_Z z) < 53)%Z).
  { apply (Qpower_lt_compat_l_inv 2); [|reflexivity].
    eapply Qle_lt_trans; [exact Hlo|]. rewrite Ha, pow2_Z by lia.
    rewrite <- Zlt_Qlt. exact Hz. }
  assert (He0 : (e <= 0)%Z) by lia.
  assert (Hdiv : inject_Z z / 2 ^ e == inject_Z (z * 2 ^ (- e))).
  { rewrite inject_Z_mult, <- pow2_Z by lia. rewrite Qpower_opp.
    field. pose proof (pow2_pos e). lra. }
  rewrite Hv, (rint_whole _ _ Hdiv), inject_Z_mult, <- pow2_Z by lia.
  rewrite Qpower_opp. field. pose proof (pow2_pos e). lra.
Qed.

Lemma float64_nonneg (q : Q) : 0 <= q -> 0 <= float64 q.
Proof.
  intros H. destruct (Qeq_dec q 0) as [Hq|Hq].
  - rewrite (float64_zero q Hq). discriminate.
  - destruct (float64_exponent q Hq) as (Hv & _). rewrite Hv.
    set (e := Z.max (binade q - 52) (-1074)).
    pose proof (pow2_pos e) as Hp.
    apply Qmult_le_0_compat; [|lra].
    change 0 with (inject_Z 0). rewrite <- Zle_Qle. apply rint_lower.
    change (inject_Z 0) with 0. apply Qle_shift_div_l; [exact Hp|lra].
Qed.

Lemma float64_le_whole (q : Q) (b : Z) :
  0 <= q -> q <= inject_Z b -> (b < 2 ^ 53)%Z -> float64 q <= inject_Z b.
Proof.
  intros H0 Hb Hlt. destruct (Qeq_dec q 0) as [Hq|Hq].
  - rewrite (float64_zero q Hq). lra.
  - destruct (float64_exponent q Hq) as (Hv & _).
    destruct (binade_spec _ Hq) as [Hlo _].
    set (e := Z.max (binade q - 52) (-1074)) in *.
    pose proof (pow2_pos e) as Hp.
    assert (Habs : Qabs q == q) by (apply Qabs_pos; exact H0).
    assert (Hbin : (binade q < 53)%Z).
    { apply (Qpower_lt_compat_l_inv 2); [|reflexivity].
      eapply Qle_lt_trans; [exact Hlo|]. rewrite Habs.
      eapply Qle_lt_trans; [exact Hb|]. rewrite pow2_Z by lia.
      rewrite <- Zlt_Qlt. exact Hlt. }
    assert (He0 : (e <= 0)%Z) by lia.
    assert (Hbe : inject_Z b == inject_Z (b * 2 ^ (- e)) * 2 ^ e).
    { rewrite inject_Z_mult, <- pow2_Z by lia. rewrite Qpower_opp. field. lra. }
    rewrite Hv, Hbe. apply Qmult_le_compat_r; [|lra].
    rewrite <- Zle_Qle. apply rint_upper.
    apply Qle_shift_div_r; [exact Hp|]. rewrite <- Hbe. exact Hb.
Qed.

Lemma binade_eq (q q' : Q) : q == q' -> ~ q == 0 -> binade q = binade q'.
Proof.
  intros H Hq. assert (Hq' : ~ q' == 0) by (rewrite <- H; exact Hq).
  destruct (binade_spec q Hq) as [H1 H2]. destruct (binade_spec q' Hq') as [H3 H4].
  assert (Hab : Qabs q == Qabs q') by (apply Qabs_wd; exact H).
  rewrite Hab in H1, H2.
  assert (Ha : (binade q < binade q' + 1)%Z).
  { apply (Qpower_lt_compat_l_inv 2); [|reflexivity]. eapply Qle_lt_trans; eassumption. }
  assert (Hb : (binade q' < binade q + 1)%Z).
  { apply (Qpower_lt_compat_l_inv 2); [|reflexivity]. eapply Qle_lt_trans; eassumption. }
  lia.
Qed.

Lemma rint_eq (q q' : Q) : q == q' -> rint q = rint q'.
Proof.
  intros H. apply (nearest_even_unique q q' _ _ H); apply rint_nearest_even.
Qed.

Lemma float64_eq (q q' : Q) : q == q' -> float64 q = float64 q'.
Proof.
  intros H. unfold float64.
  destruct (Qeq_bool q 0) eqn:E, (Qeq_bool q' 0) eqn:E'.
  - reflexivity.
  - apply Qeq_bool_iff in E. apply Qeq_bool_neq in E'. exfalso. apply E'.
    rewrite <- H. exact E.
  - apply Qeq_bool_iff in E'. apply Qeq_bool_neq in E. exfalso. apply E.
    rewrite H. exact E'.
  - apply Qeq_bool_neq in E. rewrite <- (binade_eq q q' H E).
    set (e := Z.max (binade q - 52) (-1074)).
    rewrite (rint_eq (q / 2 ^ e) (q' / 2 ^ e)) by (rewrite H; reflexivity).
    reflexivity.
Qed.

Lemma float64_count (q : Q) : is_count q -> float64 q == q.
Proof.
  intros (z & Hz & E). rewrite (float64_eq q _ E), E.
  apply float64_whole. lia.
Qed.

Lemma percentage_cases (n d : Q) :
  percentage n d =
    if Qeq_bool d 0 then 0
    else round2 (float64 (float64 (float64 n / float64 d) * 100)).
Proof. unfold percentage. destruct (Qeq_bool d 0); reflexivity. Qed.

Lemma percentage_zero (n d : Q) : d == 0 -> percentage n d = 0.
Proof.
  intros Hd. rewrite percentage_cases. apply Qeq_bool_iff in Hd. rewrite Hd. reflexivity.
Qed.

Lemma percentage_rounded (n d : Q) :
  is_count n -> is_count d -> ~ d == 0 -> rounded_percentage n d (percentage n d).
Proof.
  intros Hn Hd Hd0. rewrite percentage_cases.
  destruct (Qeq_bool d 0) eqn:E; [apply Qeq_bool_iff in E; contradiction|].
  unfold round2.
  set (q := float64 (float64 n / float64 d)).
  set (p := float64 (q * 100)).
  set (h := float64 (p * 100)).
  exists q, p, h, (rint h). repeat split.
  - apply (binary64_nearest_eq (float64 n / float64 d)).
    + rewrite (float64_count n Hn), (float64_count d Hd). reflexivity.
    + apply float64_nearest.
  - apply float64_nearest.
  - apply float64_nearest.
  - apply rint_nearest_even.
  - apply rint_nearest_even.
  - apply float64_nearest.
Qed.

Lemma round2_bounds (x : Q) : 0 <= x -> x <= 100 -> 0 <= round2 x /\ round2 x <= 100.
Proof.
  intros H0 H100. unfold round2.
  assert (Hh : 0 <= float64 (x * 100) /\ float64 (x * 100) <= inject_Z 10000).
  { split; [apply float64_nonneg; lra|].
    apply float64_le_whole; [lra| |reflexivity]. change (inject_Z 10000) with 10000. lra. }
  destruct Hh as [Hh0 Hh1].
  pose proof (rint_lower _ 0 Hh0) as Hz0. pose proof (rint_upper _ _ Hh1) as Hz1.
  set (z := rint (float64 (x * 100))) in *.
  assert (Hq0 : 0 <= inject_Z z) by (change 0 with (inject_Z 0); rewrite <- Zle_Qle; exact Hz0).
  assert (Hq1 : inject_Z z <= 10000)
    by (change 10000 with (inject_Z 10000); rewrite <- Zle_Qle; exact Hz1).
  split.
  - apply float64_nonneg. apply Qle_shift_div_l; [reflexivity|lra].
  - change 100 with (inject_Z 100) at 2. apply float64_le_whole; [| |reflexivity].
    + apply Qle_shift_div_l; [reflexivity|lra].
    + apply Qle_shift_div_r; [reflexivity|]. change (inject_Z 100) with 100. lra.
Qed.

Lemma percentage_bounds (n d : Q) :
  is_count n -> is_count d -> n <= d -> 0 <= percentage n d /\ percentage n d <= 100.
Proof.
  intros Hn Hd Hle. rewrite percentage_cases.
  destruct (Qeq_bool d 0) eqn:E; [split; discriminate|].
  apply Qeq_bool_neq in E.
  assert (Hn0 : 0 <= n).
  { destruct Hn as (z & Hz & ->). change 0 with (inject_Z 0). rewrite <- Zle_Qle. lia. }
  assert (Hd0 : 0 < d).
  { destruct (Qlt_le_dec 0 d) as [H|H]; [exact H|]. exfalso. apply E. lra. }
  assert (Hq : 0 <= float64 n / float64 d /\ float64 n / float64 d <= inject_Z 1).
  { rewrite (float64_count n Hn), (float64_count d Hd). split.
    - apply Qle_shift_div_l; [exact Hd0|lra].
    - apply Qle_shift_div_r; [exact Hd0|]. change (inject_Z 1) with 1. lra. }
  destruct Hq as [Hq0 Hq1].
  pose proof (float64_nonneg _ Hq0) as Hf0.
  pose proof (float64_le_whole _ 1 Hq0 Hq1 eq_refl) as Hf1.
  change (inject_Z 1) with 1 in Hf1.
  set (q := float64 (float64 n / float64 d)) in *.
  apply round2_bounds.
  - apply float64_nonneg. lra.
  - change (float64 (q * 100) <= inject_Z 100).
    apply float64_le_whole; [lra| |reflexivity].
    change (inject_Z 100) with 100. lra.
Qed.

(** ** Sums over the rows of a key and of a month *)

Lemma local_keyed_vals (k : Key) (rows : list LocalRow) :
  vals k (dropna_keys (local_keyed rows)) =
  map (fun r => (l_num r, l_den r))
      (filter (fun r => match local_key r with
                        | Some k' => key_eqb k k'
                        | None => false
                        end) rows).
Proof.
  unfold vals, local_keyed. induction rows as [|r rows IH]; [reflexivity|].
  cbn [map]. fold (local_key r). cbn [filter].
  destruct (local_key r) as [k'|]; cbn [dropna_keys]; [|exact IH].
  cbn [filter fst]. destruct (key_eqb k k'); cbn [map snd]; rewrite IH; reflexivity.
Qed.

Lemma fold_sum_step_cells (vs : list (option Q * option Q)) (a : Q * Q) :
  fold_left sum_step vs a =
  (fold_left add_skipna (map fst vs) (fst a), fold_left add_skipna (map snd vs) (snd a)).
Proof.
  revert a. induction vs as [|v vs IH]; intros [n d]; [reflexivity|].
  cbn [fold_left map]. rewrite IH. reflexivity.
Qed.

Lemma fold_left_Qplus (l : list Q) (a : Q) : fold_left Qplus l a == a + Qsum l.
Proof.
  unfold Qsum. revert a. induction l as [|x l IH]; intros a; cbn [fold_left].
  - ring.
  - rewrite (IH (a + x)), (IH (0 + x)). ring.
Qed.

Lemma Qsum_cons (x : Q) (l : list Q) : Qsum (x :: l) == x + Qsum l.
Proof. unfold Qsum at 1. cbn [fold_left]. rewrite fold_left_Qplus. ring. Qed.

Lemma add_skipna_nz (a : Q) (v : option Q) : add_skipna a v == a + nz v.
Proof. destruct v; simpl; ring. Qed.

(** One column of the month totals of a grouped table follows the rows that
    enter it. *)
Lemma upsert_month_total (f : Q * Q -> Q) (g : option Q * option Q -> Q) (m : Month)
    (k : Key) (v : option Q * option Q) (l : list (Key * (Q * Q))) :
  f (0, 0) == 0 -> (forall a, f (sum_step a v) == f a + g v) ->
  Qsum (map (fun r => f (snd r)) (month_rows m (upsert (0, 0) sum_step k v l))) ==
  Qsum (map (fun r => f (snd r)) (month_rows m l)) +
  (if key_eqb m (snd k) then g v else 0).
Proof.
  intros H0 Hstep. unfold month_rows.
  induction l as [|[k' a] l IH]; cbn [upsert].
  - cbn [filter fst snd]. destruct (key_eqb m (snd k)); cbn [map filter snd].
    + rewrite Qsum_cons, Hstep, H0. unfold Qsum. simpl. ring.
    + unfold Qsum. simpl. ring.
  - destruct (cmp k k') eqn:E.
    + assert (Hk : k = k') by (apply cmp_eq; exact E). subst k'.
      cbn [filter fst snd]. destruct (key_eqb m (snd k)); cbn [map snd].
      * rewrite !Qsum_cons, Hstep. ring.
      * ring.
    + cbn [filter fst snd]. destruct (key_eqb m (snd k)); cbn [map snd].
      * rewrite Qsum_cons, Hstep, H0. ring.
      * ring.
    + cbn [filter fst snd]. destruct (key_eqb m (snd k')); cbn [map snd].
      * rewrite !Qsum_cons, IH. ring.
      * exact IH.
Qed.

Lemma groupby_month_total (f : Q * Q -> Q) (g : option Q * option Q -> Q) (m : Month)
    (rows : list (Key * (option Q * option Q))) :
  f (0, 0) == 0 -> (forall a v, f (sum_step a v) == f a + g v) ->
  Qsum (map (fun r => f (snd r)) (month_rows m (groupby (0, 0) sum_step rows))) ==
  Qsum (map (fun r => g (snd r)) (filter (fun r => key_eqb m (snd (fst r))) rows)).
Proof.
  intros H0 Hstep. unfold groupby, agg_rows.
  assert (Hgen : forall acc,
             Qsum (map (fun r => f (snd r))
                       (month_rows m (fold_left
                          (fun acc kv => upsert (0, 0) sum_step (fst kv) (snd kv) acc)
                          rows acc))) ==
             Qsum (map (fun r => f (snd r)) (month_rows m acc)) +
             Qsum (map (fun r => g (snd r))
                       (filter (fun r => key_eqb m (snd (fst r))) rows))).
  { induction rows as [|[k v] rows IH]; intros acc; cbn [fold_left filter fst snd].
    - unfold Qsum at 3. simpl. ring.
    - rewrite IH, (upsert_month_total f g m k v acc H0 (fun a => Hstep a v)).
      destruct (key_eqb m (snd k)); cbn [map snd]; rewrite ?Qsum_cons; ring. }
  rewrite Hgen. unfold month_rows, Qsum. simpl. ring.
Qed.

Lemma local_keyed_month (g : option Q * option Q -> Q) (m : Month) (rows : list LocalRow) :
  map (fun r => g (snd r))
      (filter (fun r => key_eqb m (snd (fst r))) (dropna_keys (local_keyed rows))) =
  map (fun r => g (l_num r, l_den r))
      (filter (fun r => match local_key r with
                        | Some k' => key_eqb m (snd k')
                        | None => false
                        end) rows).
Proof.
  unfold local_keyed. induction rows as [|r rows IH]; [reflexivity|].
  cbn [map]. fold (local_key r). cbn [filter].
  destruct (local_key r) as [k'|]; cbn [dropna_keys]; [|exact IH].
  cbn [filter fst snd]. destruct (key_eqb m (snd k')); cbn [map snd]; rewrite IH; reflexivity.
Qed.

Lemma filter_all {X} (f : X -> bool) (l : list X) :
  Forall (fun x => f x = true) l -> filter f l = l.
Proof.
  induction l as [|x l IH]; intros Hall; cbn [filter]; [reflexivity|].
  inversion Hall as [|? ? Hx Hl]; subst. rewrite Hx, IH by exact Hl. reflexivity.
Qed.

Lemma fold_add_skipna (vs : list (option Q)) (a : Q) :
  fold_left add_skipna vs a == a + Qsum (map nz vs).
Proof.
  revert a. induction vs as [|v vs IH]; intros a; cbn [fold_left map].
  - unfold Qsum. simpl. ring.
  - rewrite IH, Qsum_cons, add_skipna_nz. ring.
Qed.

(** The row that line 63 leaves for a key: the sums over the rows grouped
    under the key, when there are any. *)
Lemma grouped_lookup (df : LocalTable) (k : Key) :
  lookup k (grouped df) =
    match rows_of_key k df with
    | [] => None
    | rs => Some (fold_left add_skipna (map l_num rs) 0,
                  fold_left add_skipna (map l_den rs) 0)
    end.
Proof.
  unfold grouped. rewrite lookup_groupby, local_keyed_vals. fold (rows_of_key k df).
  destruct (rows_of_key k df) as [|r rs]; [reflexivity|].
  replace (fold_group (0, 0) sum_step None
             (map (fun r => (l_num r, l_den r)) (r :: rs)))
    with (Some (fold_left sum_step (map (fun r => (l_num r, l_den r)) (r :: rs)) (0, 0)))
    by reflexivity.
  rewrite fold_sum_step_cells, !map_map. reflexivity.
Qed.

(** The totals of the rollup row of a month, over the rows of the extract. *)
Lemma icb_row_totals (df : LocalTable) (m : Month) (nd : Q * Q) :
  In (m, nd) (month_sums (grouped df)) ->
  fst nd == Qsum (map (fun r => nz (l_num r)) (rows_of_month m df)) /\
  snd nd == Qsum (map (fun r => nz (l_den r)) (rows_of_month m df)).
Proof.
  intros Hin. apply month_sums_lookup in Hin. destruct Hin as [_ ->]. cbn [fst snd].
  unfold grouped, rows_of_month. split.
  - rewrite (groupby_month_total fst (fun v => nz (fst v)) m).
    + rewrite (local_keyed_month (fun v => nz (fst v))). reflexivity.
    + reflexivity.
    + intros [n d] [x y]. cbn [sum_step fst snd]. apply add_skipna_nz.
  - rewrite (groupby_month_total snd (fun v => nz (snd v)) m).
    + rewrite (local_keyed_month (fun v => nz (snd v))). reflexivity.
    + reflexivity.
    + intros [n d] [x y]. cbn [sum_step fst snd]. apply add_skipna_nz.
Qed.

(** ** Sums of counts *)

Lemma is_count_eq (q q' : Q) : q == q' -> is_count q -> is_count q'.
Proof. intros H (z & Hz & E). exists z. split; [exact Hz|]. rewrite <- H. exact E. Qed.

Lemma count_cell_nz (v : option Q) :
  count_cell v -> exists z : Z, (0 <= z)%Z /\ nz v == inject_Z z.
Proof.
  destruct v as [x|]; simpl.
  - intros (z & Hz & E). exists z. split; [lia|exact E].
  - intros _. exists 0%Z. split; [lia|reflexivity].
Qed.

Lemma Qsum_whole {X} (g : X -> Q) (l : list X) :
  Forall (fun x => exists z : Z, (0 <= z)%Z /\ g x == inject_Z z) l ->
  exists z : Z, (0 <= z)%Z /\ Qsum (map g l) == inject_Z z.
Proof.
  induction l as [|x l IH]; intros Hall.
  - exists 0%Z. split; [lia|reflexivity].
  - inversion Hall as [|? ? (a & Ha & Ea) Hl]; subst.
    destruct (IH Hl) as (b & Hb & Eb). exists (a + b)%Z. split; [lia|].
    cbn [map]. rewrite Qsum_cons, Ea, Eb, inject_Z_plus. reflexivity.
Qed.

Lemma Qsum_filter_le {X} (g : X -> Q) (p : X -> bool) (l : list X) :
  Forall (fun x => 0 <= g x) l ->
  0 <= Qsum (map g (filter p l)) /\ Qsum (map g (filter p l)) <= Qsum (map g l).
Proof.
  induction l as [|x l IH]; intros Hall; cbn [filter map].
  - unfold Qsum. simpl. split; discriminate.
  - inversion Hall as [|? ? Hx Hl]; subst. destruct (IH Hl) as [H0 H1].
    destruct (p x); cbn [map]; rewrite ?Qsum_cons; lra.
Qed.

(** A sum of counts over some of the rows of a column whose total is below
    2^53 is a count. *)
Lemma filter_sum_count {X} (g : X -> option Q) (p : X -> bool) (l : list X) :
  Forall (fun x => count_cell (g x)) l ->
  Qsum (map (fun x => nz (g x)) l) < inject_Z (2 ^ 53) ->
  is_count (Qsum (map (fun x => nz (g x)) (filter p l))).
Proof.
  intros Hall Hlt.
  assert (Hz : Forall (fun x => exists z : Z, (0 <= z)%Z /\ nz (g x) == inject_Z z) l).
  { eapply Forall_impl; [|exact Hall]. intros x Hx. apply count_cell_nz, Hx. }
  assert (H0 : Forall (fun x => 0 <= nz (g x)) l).
  { eapply Forall_impl; [|exact Hz]. intros x (z & Hz0 & E). rewrite E.
    change 0 with (inject_Z 0). rewrite <- Zle_Qle. exact Hz0. }
  destruct (Qsum_filter_le (fun x => nz (g x)) p l H0) as [_ Hle].
  assert (Hzf : Forall (fun x => exists z : Z, (0 <= z)%Z /\ nz (g x) == inject_Z z)
                       (filter p l)).
  { apply Forall_forall. intros x Hx. apply filter_In in Hx.
    rewrite Forall_forall in Hz. apply Hz, Hx. }
  destruct (Qsum_whole (fun x => nz (g x)) (filter p l) Hzf) as (z & Hz0 & E).
  exists z. split; [|exact E]. split; [exact Hz0|].
  rewrite Zlt_Qlt, <- E. lra.
Qed.

Lemma filter_filter_and {X} (p q : X -> bool) (l : list X) :
  filter p (filter q l) = filter (fun x => q x && p x) l.
Proof.
  induction l as [|x l IH]; [reflexivity|]. cbn [filter].
  destruct (q x); cbn [filter andb]; [destruct (p x)|]; rewrite IH; reflexivity.
Qed.

Lemma practice_kept_filter (df : LocalTable) :
  exists f, practice_kept df = filter f (l_rows df).
Proof.
  unfold practice_kept. destruct (has_practice_col df).
  - eexists. reflexivity.
  - exists (fun _ => true). symmetry. apply filter_all, Forall_forall. reflexivity.
Qed.

(** Under [whole_counts] the Numerator and the Denominator of every row of
    the table of line 67 are counts: no sum has left the range in which
    int64 and float64 are exact. *)
Lemma grouped_counts (df : LocalTable) :
  whole_counts df ->
  Forall (fun r => is_count (fst (snd r)) /\ is_count (snd (snd r))) (grouped df).
Proof.
  intros (Hcells & Hn & Hd). apply Forall_forall. intros [k [N D]] Hin.
  apply In_lookup in Hin; [|apply groupby_sorted].
  rewrite grouped_lookup in Hin. unfold rows_of_key in Hin.
  destruct (practice_kept_filter df) as [f Hf]. rewrite Hf, filter_filter_and in Hin.
  set (p := fun x : LocalRow =>
              f x && match local_key x with
                     | Some k' => key_eqb k k'
                     | None => false
                     end) in *.
  assert (HND : (N, D) = (fold_left add_skipna (map l_num (filter p (l_rows df))) 0,
                          fold_left add_skipna (map l_den (filter p (l_rows df))) 0)).
  { destruct (filter p (l_rows df)); [discriminate|]. congruence. }
  injection HND as -> ->. cbn [fst snd]. split.
  - apply (is_count_eq (Qsum (map (fun x => nz (l_num x)) (filter p (l_rows df))))).
    + rewrite fold_add_skipna, map_map. ring.
    + apply filter_sum_count; [|exact Hn].
      eapply Forall_impl; [|exact Hcells]. intros x [Hx _]. exact Hx.
  - apply (is_count_eq (Qsum (map (fun x => nz (l_den x)) (filter p (l_rows df))))).
    + rewrite fold_add_skipna, map_map. ring.
    + apply filter_sum_count; [|exact Hd].
      eapply Forall_impl; [|exact Hcells]. intros x [_ Hx]. exact Hx.
Qed.

Lemma icb_counts (df : LocalTable) :
  whole_counts df ->
  Forall (fun r => is_count (fst (snd r)) /\ is_count (snd (snd r))) (icb (grouped df)).
Proof.
  intros (Hcells & Hn & Hd). apply Forall_forall. intros [k [N D]] Hin.
  unfold icb in Hin. apply in_map_iff in Hin. destruct Hin as ([m nd] & Heq & Hin).
  cbn [fst snd] in Heq. injection Heq as _ Hnd. subst nd.
  apply icb_row_totals in Hin. cbn [fst snd] in *. destruct Hin as [EN ED].
  unfold rows_of_month in EN, ED.
  destruct (practice_kept_filter df) as [f Hf]. rewrite Hf, filter_filter_and in EN, ED.
  split.
  - eapply is_count_eq; [symmetry; exact EN|].
    apply filter_sum_count; [|exact Hn].
    eapply Forall_impl; [|exact Hcells]. intros x [Hx _]. exact Hx.
  - eapply is_count_eq; [symmetry; exact ED|].
    apply filter_sum_count; [|exact Hd].
    eapply Forall_impl; [|exact Hcells]. intros x [_ Hx]. exact Hx.
Qed.

Lemma with_icb_counts (df : LocalTable) :
  whole_counts df ->
  Forall (fun r => is_count (fst (snd r)) /\ is_count (snd (snd r))) (with_icb df).
Proof.
  intros H. unfold with_icb. apply Forall_app. split.
  - apply grouped_counts, H.
  - apply icb_counts, H.
Qed.

(** Discharges [whole_counts] on a table that is written out. *)
Ltac count_cells :=
  repeat match goal with
         | |- whole_counts _ => unfold whole_counts
         | |- Forall _ (l_rows ?t) => unfold t; cbn [l_rows]
         | |- Forall _ [] => constructor
         | |- Forall _ (_ :: _) => constructor
         | |- _ /\ _ => split
         | |- count_cell None => exact I
         | |- count_cell (Some ?x) =>
             exists (Qnum x); split; [vm_compute; split; [discriminate|reflexivity]|reflexivity]
         | |- count_cell ?c =>
             let c' := eval cbv in c in
             change (count_cell c')
         | |- _ < _ => reflexivity
         end.

(** ** The percentage column *)

(** Line 68 at one row whose Numerator and Denominator are counts. *)
Lemma pct_row_value (r : Key * (Q * Q)) :
  is_count (fst (snd r)) -> is_count (snd (snd r)) ->
  exists v,
    c_value (pct_row r) = Some v /\
    (snd (snd r) == 0 -> v = 0) /\
    (~ snd (snd r) == 0 -> rounded_percentage (fst (snd r)) (snd (snd r)) v).
Proof.
  intros Hn Hd. exists (percentage (fst (snd r)) (snd (snd r))).
  split; [reflexivity|]. split.
  - apply percentage_zero.
  - apply percentage_rounded; assumption.
Qed.

(** C1. For a local extract of counts, the cleaned local table has one row
    per row of the table of line 67 (organisation rows and rollup rows,
    each with its Numerator N and Denominator D); the row keeps organisation
    and month, and its percentage is the number 0 when D is zero and
    round(N / D * 100, 2) otherwise, computed in float64: the float64
    nearest to N / D, the float64 nearest to its product with 100, and that
    product rounded to two decimals (times 100, nearest whole number with
    ties to the even one, divided by 100). *)
Theorem local_percentage_column (df : LocalTable) (pct_col : string) :
  whole_counts df ->
  Forall2
    (fun r c =>
       c_org c = Some (fst (fst r)) /\
       c_month c = Some (snd (fst r)) /\
       exists v,
         c_value c = Some v /\
         (snd (snd r) == 0 -> v = 0) /\
         (~ snd (snd r) == 0 -> rounded_percentage (fst (snd r)) (snd (snd r)) v))
    (with_icb df) (c_rows (clean_local df pct_col)).
Proof.
  intros Hdf. pose proof (with_icb_counts df Hdf) as Hc.
  unfold clean_local. cbn [c_rows].
  induction (with_icb df) as [|r l IH]; cbn [map]; constructor.
  - inversion Hc as [|? ? [Hn Hd] _]; subst.
    split; [reflexivity|]. split; [reflexivity|]. apply pct_row_value; assumption.
  - apply IH. inversion Hc; assumption.
Qed.

Lemma local_percentage_column_witness :
  Forall2
    (fun r c =>
       c_org c = Some (fst (fst r)) /\
       c_month c = Some (snd (fst r)) /\
       exists v,
         c_value c = Some v /\
         (snd (snd r) == 0 -> v = 0) /\
         (~ snd (snd r) == 0 -> rounded_percentage (fst (snd r)) (snd (snd r)) v))
    (with_icb ties_table) (c_rows (clean_local ties_table "Metric 1 (%)")).
Proof.
  apply (local_percentage_column ties_table "Metric 1 (%)"). count_cells.
Defined.

(** The rounding is the one of float64, not the one of the exact quotient:
    23 over 160 is 14.375 exactly, and line 68 gives the float64 written
    14.37, because the float64 product for 1437.5 lies just below it.  A
    zero Denominator gives 0, and the rollup of the two rows, 24 over 160,
    gives 15. *)
Example ties_table_percentages :
  map c_value (c_rows (clean_local ties_table "Metric 1 (%)")) =
    [Some (8089590830664253 # 562949953421312); Some 0; Some 15] /\
  float64 (1437 # 100) = 8089590830664253 # 562949953421312 /\
  percentage 1 8 = 25 # 2 /\ percentage 1 3 = float64 (3333 # 100) /\
  percentage 2 3 = float64 (6667 # 100).
Proof. vm_compute. repeat split. Qed.

(** ** The regional rollup *)

Lemma icb_months (g : list (Key * (Q * Q))) :
  map (fun r => snd (fst r)) (icb g) = map fst (month_sums g).
Proof. unfold icb. rewrite map_map. reflexivity. Qed.

(** C2. For a local extract of counts, the cleaned local table is the
    organisation rows followed by the rollup rows.  The rollup has exactly
    one row for each month of the organisation rows; the row is named
    'North East and North Cumbria', its Numerator and Denominator are the
    sums of those columns over the organisation rows of its month, and its
    percentage is 0 when the summed Denominator is 0 and
    round(N / D * 100, 2), computed in float64, otherwise. *)
Theorem icb_rollup_rows (df : LocalTable) (pct_col : string) :
  whole_counts df ->
  c_rows (clean_local df pct_col) =
    (map pct_row (grouped df) ++ map pct_row (icb (grouped df)))%list /\
  NoDup (map (fun r => snd (fst r)) (icb (grouped df))) /\
  (forall m, In m (map (fun r => snd (fst r)) (icb (grouped df))) <->
             In m (map (fun r => snd (fst r)) (grouped df))) /\
  Forall
    (fun r =>
       let org_rows := month_rows (snd (fst r)) (grouped df) in
       let N := Qsum (map (fun x => fst (snd x)) org_rows) in
       let D := Qsum (map (fun x => snd (snd x)) org_rows) in
       fst (fst r) = "North East and North Cumbria" /\
       fst (snd r) = N /\
       snd (snd r) = D /\
       is_count N /\ is_count D /\
       exists v,
         c_value (pct_row r) = Some v /\
         (D == 0 -> v = 0) /\
         (~ D == 0 -> rounded_percentage N D v))
    (icb (grouped df)).
Proof.
  intros Hdf. pose proof (icb_counts df Hdf) as Hc.
  set (g := grouped df) in *. repeat split.
  - unfold clean_local, with_icb. simpl. fold g. apply map_app.
  - rewrite icb_months. apply groupby_NoDup.
  - rewrite icb_months. intros Hin. unfold month_sums in Hin.
    apply groupby_keys in Hin. rewrite map_map in Hin. exact Hin.
  - rewrite icb_months. intros Hin. unfold month_sums.
    apply groupby_keys. rewrite map_map. exact Hin.
  - apply Forall_forall. intros r Hr.
    rewrite Forall_forall in Hc. destruct (Hc r Hr) as [HcN HcD].
    unfold icb in Hr. apply in_map_iff in Hr. destruct Hr as [[m nd] [<- Hin]].
    apply month_sums_lookup in Hin. destruct Hin as [_ ->]. cbn [fst snd] in *.
    split; [reflexivity|]. split; [reflexivity|]. split; [reflexivity|].
    split; [exact HcN|]. split; [exact HcD|].
    apply (pct_row_value
             (("North East and North Cumbria", m),
              (Qsum (map (fun x : Key * (Q * Q) => fst (snd x)) (month_rows m g)),
               Qsum (map (fun x : Key * (Q * Q) => snd (snd x)) (month_rows m g)))));
      assumption.
Qed.

Lemma icb_rollup_rows_witness :
  c_rows (clean_local two_org_table "Metric 1 (%)") =
    (map pct_row (grouped two_org_table) ++ map pct_row (icb (grouped two_org_table)))%list /\
  NoDup (map (fun r => snd (fst r)) (icb (grouped two_org_table))) /\
  (forall m, In m (map (fun r => snd (fst r)) (icb (grouped two_org_table))) <->
             In m (map (fun r => snd (fst r)) (grouped two_org_table))) /\
  Forall
    (fun r =>
       let org_rows := month_rows (snd (fst r)) (grouped two_org_table) in
       let N := Qsum (map (fun x => fst (snd x)) org_rows) in
       let D := Qsum (map (fun x => snd (snd x)) org_rows) in
       fst (fst r) = "North East and North Cumbria" /\
       fst (snd r) = N /\
       snd (snd r) = D /\
       is_count N /\ is_count D /\
       exists v,
         c_value (pct_row r) = Some v /\
         (D == 0 -> v = 0) /\
         (~ D == 0 -> rounded_percentage N D v))
    (icb (grouped two_org_table)).
Proof.
  apply (icb_rollup_rows two_org_table "Metric 1 (%)"). count_cells.
Defined.

(** ** Bounds of the percentage *)

Lemma upsert_invariant {K V A} `{OrdLaws K} (empty : A) (step : A -> V -> A)
    (P : A -> Prop) (k : K) (v : V) (l : list (K * A)) :
  P (step empty v) -> (forall a, P a -> P (step a v)) ->
  Forall (fun ka => P (snd ka)) l ->
  Forall (fun ka => P (snd ka)) (upsert empty step k v l).
Proof.
  intros Hnew Hstep. induction l as [|[k' a] l IH]; simpl; intros Hl.
  - constructor; [exact Hnew|constructor].
  - inversion Hl as [|? ? Hhd Htl]; subst. destruct (cmp k k').
    + constructor; [apply Hstep, Hhd|exact Htl].
    + constructor; [exact Hnew|exact Hl].
    + constructor; [exact Hhd|apply IH, Htl].
Qed.

(** A property of the accumulators that every row keeps holds for every
    group. *)
Lemma groupby_invariant {K V A} `{OrdLaws K} (empty : A) (step : A -> V -> A)
    (P : A -> Prop) (R : V -> Prop) :
  P empty -> (forall a v, P a -> R v -> P (step a v)) ->
  forall rows, Forall (fun kv => R (snd kv)) rows ->
  Forall (fun ka => P (snd ka)) (groupby empty step rows).
Proof.
  intros Hempty Hstep rows. unfold groupby, agg_rows.
  assert (Hacc : Forall (fun ka : K * A => P (snd ka)) []) by constructor.
  revert Hacc. generalize (@nil (K * A)).
  induction rows as [|[k v] rows IH]; simpl; intros acc Hacc Hrows.
  - exact Hacc.
  - inversion Hrows as [|? ? Hhd Htl]; subst. apply IH; [|exact Htl].
    apply upsert_invariant; auto.
Qed.

Lemma dropna_keys_Forall {K V} (P : V -> Prop) (rows : list (option K * V)) :
  Forall (fun kv => P (snd kv)) rows ->
  Forall (fun kv => P (snd kv)) (dropna_keys rows).
Proof.
  induction rows as [|[[k|] v] rows IH]; simpl; intros Hr.
  - constructor.
  - inversion Hr; subst. constructor; auto.
  - inversion Hr; subst. auto.
Qed.

Lemma sum_step_in_range (a : Q * Q) (v : option Q * option Q) :
  in_range a -> in_range (nz (fst v), nz (snd v)) -> in_range (sum_step a v).
Proof.
  destruct a as [n d], v as [[x|] [y|]]; unfold in_range; simpl; lra.
Qed.

Lemma practice_kept_incl (df : LocalTable) (r : LocalRow) :
  In r (practice_kept df) -> In r (l_rows df).
Proof.
  unfold practice_kept. destruct (has_practice_col df); [|auto].
  intros Hin. apply filter_In in Hin. tauto.
Qed.

Lemma grouped_in_range (df : LocalTable) :
  Forall (fun r => in_range (nz (l_num r), nz (l_den r))) (l_rows df) ->
  Forall (fun r => in_range (snd r)) (grouped df).
Proof.
  intros Hrows. unfold grouped.
  apply (groupby_invariant (0, 0) sum_step in_range
           (fun v => in_range (nz (fst v), nz (snd v)))).
  - unfold in_range. simpl. lra.
  - apply sum_step_in_range.
  - apply (dropna_keys_Forall (fun v => in_range (nz (fst v), nz (snd v)))).
    unfold local_keyed. apply Forall_map. simpl. rewrite Forall_forall in *.
    intros r Hr. apply Hrows, practice_kept_incl, Hr.
Qed.

Lemma icb_in_range (g : list (Key * (Q * Q))) :
  Forall (fun r => in_range (snd r)) g ->
  Forall (fun r => in_range (snd r)) (icb g).
Proof.
  intros Hg. unfold icb. apply Forall_map. simpl. unfold month_sums.
  apply (groupby_invariant (0, 0) sum_step in_range
           (fun v => in_range (nz (fst v), nz (snd v)))).
  - unfold in_range. simpl. lra.
  - apply sum_step_in_range.
  - apply Forall_map. simpl. eapply Forall_impl; [|exact Hg].
    intros [k [n d]]. simpl. auto.
Qed.

(** C8, as stated, fails: Numerator 150 over Denominator 100 gives the
    percentage 150, for the organisation and for the rollup. *)
Lemma percentage_above_100 :
  c_rows (clean_local over_table "Metric 1 (%)") =
    [ {| c_org := Some "ORG A"; c_month := Some (2024, 1)%nat; c_value := Some 150 |};
      {| c_org := Some icb_name; c_month := Some (2024, 1)%nat; c_value := Some 150 |} ] /\
  ~ all_within_0_100 (clean_local over_table "Metric 1 (%)").
Proof.
  split; [reflexivity|].
  intros Hall. inversion Hall as [|? ? Hhd _]; subst.
  simpl in Hhd. destruct Hhd as [_ Hle]. revert Hle. vm_compute. congruence.
Qed.

(** C8, amended.  When a local extract holds counts and every row has
    Numerator <= Denominator (a missing cell counting as 0), every
    percentage of the cleaned local table lies in [0, 100], and a row whose
    Denominator is zero has the percentage 0.  The national normalizer
    copies the Value column as it is. *)
Theorem percentage_within_bounds (df : LocalTable) (national : list NationalRow)
    (pct_col : string) :
  whole_counts df ->
  Forall (fun r => nz (l_num r) <= nz (l_den r)) (l_rows df) ->
  all_within_0_100 (clean_local df pct_col) /\
  Forall2 (fun r c => snd (snd r) == 0 -> c_value c = Some 0)
          (with_icb df) (c_rows (clean_local df pct_col)) /\
  map c_value (c_rows (clean_national national pct_col)) = map n_value national.
Proof.
  intros Hdf Hle.
  assert (Hrows : Forall (fun r => in_range (nz (l_num r), nz (l_den r))) (l_rows df)).
  { destruct Hdf as (Hcells & _). rewrite Forall_forall in *. intros r Hr.
    split; [|apply Hle, Hr]. cbn [fst].
    destruct (count_cell_nz (l_num r) (proj1 (Hcells r Hr))) as (z & Hz & E).
    rewrite E. change 0 with (inject_Z 0). rewrite <- Zle_Qle. exact Hz. }
  pose proof (grouped_in_range df Hrows) as Hg.
  pose proof (icb_in_range (grouped df) Hg) as Hi.
  pose proof (with_icb_counts df Hdf) as Hc.
  repeat split.
  - unfold all_within_0_100, clean_local. cbn [c_rows].
    apply Forall_map.
    assert (Hr : Forall (fun r : Key * (Q * Q) => in_range (snd r)) (with_icb df))
      by (unfold with_icb; apply Forall_app; split; assumption).
    rewrite Forall_forall in *. intros [k [n d]] Hin.
    specialize (Hr _ Hin). specialize (Hc _ Hin). cbn [fst snd] in *.
    cbn [pct_row c_value fst snd]. apply percentage_bounds; [tauto|tauto|apply Hr].
  - unfold clean_local. simpl.
    induction (with_icb df) as [|r l IH]; simpl; constructor.
    + intros Hd. simpl. rewrite percentage_zero by exact Hd. reflexivity.
    + apply IH. inversion Hc; assumption.
  - unfold clean_national. simpl. rewrite map_map. reflexivity.
Qed.

Lemma percentage_within_bounds_witness :
  all_within_0_100 (clean_local example_local "Screening (%)") /\
  Forall2 (fun r c => snd (snd r) == 0 -> c_value c = Some 0)
          (with_icb example_local) (c_rows (clean_local example_local "Screening (%)")) /\
  map c_value (c_rows (clean_national example_national "Screening (%)")) =
    map n_value example_national.
Proof.
  apply (percentage_within_bounds example_local example_national "Screening (%)").
  - count_cells.
  - repeat constructor; simpl; unfold Qle; simpl; lia.
Defined.

(** ** The practice-code filter *)








Example closed_pattern_samples :
  search closed_pattern "OLD ROAD SURGERY ( C1 )" = true /\
  search closed_pattern "(D 7) OLD ROAD" = true /\
  search closed_pattern "OLD ROAD (c1)" = false /\
  search closed_pattern "OLD ROAD (A83001)" = false /\
  search closed_pattern "OLD ROAD (C)" = false.
Proof. repeat split. Qed.


Lemma existsb_none {X} (f : X -> bool) (l : list X) :
  (forall x, In x l -> f x = false) -> existsb f l = false.
Proof.
  induction l as [|x l IH]; intros H; cbn [existsb]; [reflexivity|].
  rewrite (H x (or_introl eq_refl)), IH; [reflexivity|].
  intros y Hy. apply H. right. exact Hy.
Qed.



(** The filter on the worked extracts: the row of the closed practice goes,
    the row without practice code stays; a practice-code column without any
    code ends the run with the exception. *)
Example practice_filter_samples :
  option_map (map l_practice) (filter_practice two_org_table) =
    Some [Some "HIGH STREET SURGERY (A81001)"; None; Some "THE GREEN (A81002)";
          Some "MILL LANE SURGERY (A81003)"; Some "HIGH STREET SURGERY (A81001)"] /\
  filter_practice no_codes_table = None /\
  run [(no_codes_table, "Metric 1 (%)")] [] = [StException "AttributeError"] /\
  filter_practice {| has_practice_col := true; l_rows := [] |} = Some [].
Proof. vm_compute. repeat split. Qed.

(** ** The national normalizer keeps every row *)

Lemma dropna_keys_In {K V} (rows : list (option K * V)) (k : K) (v : V) :
  In (k, v) (dropna_keys rows) <-> In (Some k, v) rows.
Proof.
  induction rows as [|[[k'|] v'] rows IH]; simpl.
  - tauto.
  - rewrite IH. split; intros [Heq|Hin]; auto; left; congruence.
  - rewrite IH. split; [auto|]. intros [Heq|Hin]; [discriminate|exact Hin].
Qed.

Lemma dropna_keys_keys {K V} (rows : list (option K * V)) (k : K) :
  In k (map fst (dropna_keys rows)) <-> In (Some k) (map fst rows).
Proof.
  rewrite !in_map_iff. split.
  - intros ([k' v] & Hk & Hin). simpl in Hk. subst k'.
    apply dropna_keys_In in Hin. exists (Some k, v). auto.
  - intros ([o v] & Hk & Hin). simpl in Hk. subst o.
    apply dropna_keys_In in Hin. exists (k, v). auto.
Qed.

(** The keys of a per-label table: the (organisation, month) pairs of the
    rows in which both are present. *)
Lemma merge_label_keys (df_list : list CleanedTable) (k : Key) :
  In k (map fst (merge_label df_list)) <->
  exists c, In c (List.concat (map c_rows df_list)) /\
            row_key (c_org c) (c_month c) = Some k.
Proof.
  unfold merge_label. rewrite groupby_keys, dropna_keys_keys.
  unfold clean_keyed. rewrite map_map. simpl. rewrite in_map_iff.
  split; intros (c & H1 & H2); exists c; auto.
Qed.

(** C6. The national normalizer has one output row per input row, in order:
    organisation renamed, month parsed (missing when the text does not
    parse), value copied; nothing is grouped.  A row with a missing month is
    in the cleaned table and gets no group in the per-label merge, whose
    keys are those of the rows with organisation and month present. *)
Theorem national_keeps_rows (df : list NationalRow) (pct_col : string) :
  List.length (c_rows (clean_national df pct_col)) = List.length df /\
  Forall2
    (fun r c =>
       c_org c = replace organisation_legend_mapping (n_country r) /\
       c_month c = to_datetime (n_month r) /\
       c_value c = n_value r)
    df (c_rows (clean_national df pct_col)) /\
  (forall k, In k (map fst (merge_label [clean_national df pct_col])) <->
             exists c, In c (c_rows (clean_national df pct_col)) /\
                       c_org c = Some (fst k) /\ c_month c = Some (snd k)).
Proof.
  split; [|split].
  - unfold clean_national. simpl. apply length_map.
  - unfold clean_national. simpl.
    induction df as [|r df IH]; simpl; constructor; [|exact IH].
    repeat split.
  - intros k. rewrite merge_label_keys. simpl. rewrite app_nil_r.
    split; intros (c & Hin & Hk); exists c; (split; [exact Hin|]).
    + destruct (c_org c), (c_month c); simpl in Hk; try discriminate.
      injection Hk as <-. auto.
    + destruct Hk as [-> ->]. destruct k. reflexivity.
Qed.

Example bad_month_kept_then_dropped :
  c_rows (clean_national bad_month_national "Screening (%)") =
    [ {| c_org := Some "England"; c_month := Some (2024, 1)%nat; c_value := Some (85 # 2) |};
      {| c_org := Some "England"; c_month := None; c_value := Some 43 |} ] /\
  merge_label [clean_national bad_month_national "Screening (%)"] =
    [(("England", (2024, 1)%nat), Some (85 # 2))].
Proof. split; reflexivity. Qed.

(** ** No files, no spreadsheet *)

Lemma setdefault_append_not_nil (label : string) (t : CleanedTable)
    (d : list (string * list CleanedTable)) :
  setdefault_append label t d <> [].
Proof.
  destruct d as [|[l ts] d]; simpl; [discriminate|].
  destruct (String.eqb l label); discriminate.
Qed.

Lemma collect_nil (tables : list CleanedTable) (d : list (string * list CleanedTable)) :
  collect tables d = [] <-> tables = [] /\ d = [].
Proof.
  revert d. induction tables as [|t tables IH]; intros d; simpl.
  - tauto.
  - unfold collect in *. simpl. rewrite IH. split.
    + intros [_ Hd]. exfalso. eapply setdefault_append_not_nil, Hd.
    + intros [Ht _]. discriminate.
Qed.

Lemma no_tables_iff_no_files (local_files : list (LocalTable * string))
    (national_files : list (list NationalRow * string)) :
  merged_dfs (all_metrics local_files national_files) = [] <->
  local_files = [] /\ national_files = [].
Proof.
  unfold merged_dfs, all_metrics. split.
  - intros Hm. apply map_eq_nil in Hm. apply collect_nil in Hm.
    destruct Hm as [Hn Hl]. apply map_eq_nil in Hn.
    apply collect_nil in Hl. destruct Hl as [Hl _]. apply map_eq_nil in Hl. auto.
  - intros [-> ->]. reflexivity.
Qed.

(** With at least one file the script has tables to merge and passes the
    guard of line 101. *)
Lemma files_pass_guard (local_files : list (LocalTable * string))
    (national_files : list (list NationalRow * string)) :
  local_files <> [] \/ national_files <> [] ->
  exists c, combined local_files national_files = Some c.
Proof.
  intros Hfiles. unfold combined.
  destruct (merged_dfs (all_metrics local_files national_files)) as [|[label m] rest] eqn:E.
  - apply no_tables_iff_no_files in E. destruct E as [-> ->].
    destruct Hfiles as [H|H]; contradiction H; reflexivity.
  - unfold reduce_merge. eexists. reflexivity.
Qed.

(** C7. The script has no cleaned table to merge exactly when no file of
    either kind was uploaded; the run then shows the error message and
    stops: no success message, no download. *)
Theorem no_tables_stops (local_files : list (LocalTable * string))
    (national_files : list (list NationalRow * string)) :
  merged_dfs (all_metrics local_files national_files) = [] ->
  local_files = [] /\ national_files = [] /\
  run local_files national_files =
    [StError "⚠️ No valid datasets were uploaded yet..."] /\
  existsb is_download (run local_files national_files) = false.
Proof.
  intros Hm. apply no_tables_iff_no_files in Hm. destruct Hm as [-> ->].
  repeat split; reflexivity.
Qed.

Lemma no_tables_stops_witness :
  @nil (LocalTable * string) = [] /\ @nil (list NationalRow * string) = [] /\
  run [] [] = [StError "⚠️ No valid datasets were uploaded yet..."] /\
  existsb is_download (run [] []) = false.
Proof. apply (no_tables_stops [] []). reflexivity. Defined.

(** ** The merge of one label keeps the first value *)

Lemma fold_first_step (vs : list (option Q)) (a : option Q) :
  fold_left first_step vs a =
  match a with
  | Some _ => a
  | None => first_valid vs
  end.
Proof.
  revert a. induction vs as [|v vs IH]; intros a; simpl.
  - destruct a; reflexivity.
  - rewrite IH. destruct a as [x|]; simpl; [reflexivity|].
    destruct v; reflexivity.
Qed.

Lemma dropna_keys_app {K V} (r1 r2 : list (option K * V)) :
  dropna_keys (r1 ++ r2) = (dropna_keys r1 ++ dropna_keys r2)%list.
Proof.
  induction r1 as [|[[k|] v] r1 IH]; simpl; rewrite ?IH; reflexivity.
Qed.

Lemma vals_app {K V} `{OrdLaws K} (k : K) (r1 r2 : list (K * V)) :
  vals k (r1 ++ r2) = (vals k r1 ++ vals k r2)%list.
Proof. unfold vals. rewrite filter_app, map_app. reflexivity. Qed.

Lemma has_key_values (k : Key) (t : CleanedTable) :
  has_key k t <-> key_values k t <> [].
Proof.
  unfold has_key, key_values. rewrite vals_nil_iff, dropna_keys_keys.
  unfold clean_keyed. rewrite map_map, in_map_iff. simpl. split.
  - intros (c & Hin & Ho & Hm) Hn. apply Hn. exists c.
    rewrite Ho, Hm. destruct k. auto.
  - intros Hn.
    destruct (in_dec (fun a b => reflect_dec _ _ (key_eqb_spec a b)) k
                (map fst (dropna_keys (clean_keyed (c_rows t))))) as [Hin|Hout].
    + apply dropna_keys_keys in Hin. unfold clean_keyed in Hin.
      rewrite map_map, in_map_iff in Hin. destruct Hin as (c & Hk & Hin).
      exists c. split; [exact Hin|]. simpl in Hk.
      destruct (c_org c), (c_month c); simpl in Hk; try discriminate.
      injection Hk as <-. auto.
    + exfalso. apply Hn. intros (c & Hk & Hin). apply Hout.
      apply dropna_keys_keys. unfold clean_keyed. rewrite map_map, in_map_iff.
      exists c. auto.
Qed.

Lemma first_valid_app (l1 l2 : list (option Q)) (v : Q) :
  first_valid l1 = Some v -> first_valid (l1 ++ l2) = Some v.
Proof.
  induction l1 as [|[x|] l1 IH]; simpl; [discriminate|auto|exact IH].
Qed.

(** What the per-label merge holds for a key of its tables. *)
Lemma merge_label_lookup (df_list : list CleanedTable) (k : Key) :
  lookup k (merge_label df_list) =
  match List.concat (map (key_values k) df_list) with
  | [] => None
  | vs => Some (first_valid vs)
  end.
Proof.
  unfold merge_label. rewrite lookup_groupby.
  assert (Hv : vals k (dropna_keys (clean_keyed (List.concat (map c_rows df_list)))) =
               List.concat (map (key_values k) df_list)).
  { induction df_list as [|t l IH]; simpl; [reflexivity|].
    unfold clean_keyed in *. rewrite map_app, dropna_keys_app, vals_app, IH.
    reflexivity. }
  rewrite Hv. destruct (List.concat (map (key_values k) df_list)) as [|v vs]; simpl.
  - reflexivity.
  - rewrite fold_first_step. destruct v; reflexivity.
Qed.

(** C3. Two cleaned tables with the same label are collected under that
    label, in order.  For a key both tables have a row for, the merged
    table has one row; its value is the first value that is not missing
    among the rows of that key, first table first: the first table's value
    whenever the first table has a value there. *)
Theorem merge_keeps_first (t1 t2 : CleanedTable) (k : Key) :
  c_label t1 = c_label t2 ->
  has_key k t1 -> has_key k t2 ->
  collect [t1; t2] [] = [(c_label t1, [t1; t2])] /\
  NoDup (map fst (merge_label [t1; t2])) /\
  lookup k (merge_label [t1; t2]) =
    Some (first_valid (key_values k t1 ++ key_values k t2)) /\
  (forall v, first_valid (key_values k t1) = Some v ->
             lookup k (merge_label [t1; t2]) = Some (Some v)).
Proof.
  intros Hlabel H1 H2. apply has_key_values in H1.
  assert (Hl : lookup k (merge_label [t1; t2]) =
               Some (first_valid (key_values k t1 ++ key_values k t2))).
  { rewrite merge_label_lookup. simpl. rewrite app_nil_r.
    destruct (key_values k t1) as [|v vs]; [contradiction|]. reflexivity. }
  repeat split.
  - unfold collect. simpl. rewrite <- Hlabel, String.eqb_refl. reflexivity.
  - apply groupby_NoDup.
  - exact Hl.
  - intros v Hv. rewrite Hl. f_equal. apply first_valid_app, Hv.
Qed.

Lemma merge_keeps_first_witness :
  merge_label [first_table; second_table] = [(("England", (2024, 1)%nat), Some 10)] /\
  collect [first_table; second_table] [] =
    [(c_label first_table, [first_table; second_table])] /\
  NoDup (map fst (merge_label [first_table; second_table])) /\
  lookup ("England", (2024, 1)%nat) (merge_label [first_table; second_table]) =
    Some (first_valid (key_values ("England", (2024, 1)%nat) first_table ++
                       key_values ("England", (2024, 1)%nat) second_table)) /\
  (forall v, first_valid (key_values ("England", (2024, 1)%nat) first_table) = Some v ->
             lookup ("England", (2024, 1)%nat) (merge_label [first_table; second_table]) =
               Some (Some v)).
Proof.
  split; [reflexivity|].
  apply (merge_keeps_first first_table second_table ("England", (2024, 1)%nat)).
  - reflexivity.
  - eexists. split; [left; reflexivity|]. split; reflexivity.
  - eexists. split; [left; reflexivity|]. split; reflexivity.
Defined.

(** ** The outer join *)

Lemma sorted_distinct_In {K} `{OrdLaws K} (ks : list K) (k : K) :
  In k (sorted_distinct ks) <-> In k ks.
Proof.
  unfold sorted_distinct. rewrite groupby_keys, map_map. simpl.
  rewrite map_id. reflexivity.
Qed.

Lemma sorted_distinct_NoDup {K} `{OrdLaws K} (ks : list K) : NoDup (sorted_distinct ks).
Proof. unfold sorted_distinct. apply groupby_NoDup. Qed.

Lemma vals_In {K V} `{OrdLaws K} (k : K) (v : V) (rows : list (K * V)) :
  In v (vals k rows) <-> In (k, v) rows.
Proof.
  unfold vals. rewrite in_map_iff. split.
  - intros ([k' v'] & Hv & Hin). simpl in Hv. subst v'.
    apply filter_In in Hin. destruct Hin as [Hin Hk]. simpl in Hk.
    destruct (key_eqb_spec k k'); [subst; exact Hin|discriminate].
  - intros Hin. exists (k, v). split; [reflexivity|].
    apply filter_In. split; [exact Hin|]. simpl.
    destruct (key_eqb_spec k k); [reflexivity|congruence].
Qed.

(** The rows of one key in an outer join. *)
Lemma join_key_In (w : nat) (l : list (Key * list (option Q)))
    (r : list (Key * option Q)) (k : Key) (row : Key * list (option Q)) :
  In row (join_key w l r k) <->
  exists cs v,
    row = (k, (cs ++ [v])%list) /\
    (In (k, cs) l \/ (~ In k (map fst l) /\ cs = repeat None w)) /\
    (In (k, v) r \/ (~ In k (map fst r) /\ v = None)) /\
    (In k (map fst l) \/ In k (map fst r)).
Proof.
  unfold join_key.
  pose proof (fun cs => vals_In k cs l) as HinL.
  pose proof (fun v => vals_In k v r) as HinR.
  pose proof (vals_nil_iff k l) as HnilL.
  pose proof (vals_nil_iff k r) as HnilR.
  destruct (vals k l) as [|c0 ls] eqn:El; destruct (vals k r) as [|v0 rs] eqn:Er.
  - simpl. split; [intros []|].
    intros (cs & v & _ & _ & _ & [Hl|Hr]).
    + apply HnilL; auto.
    + apply HnilR; auto.
  - rewrite in_map_iff. split.
    + intros (v & <- & Hv). exists (repeat None w), v.
      split; [reflexivity|]. split; [right; split; [apply HnilL|]; reflexivity|].
      split; [left; apply HinR, Hv|]. right.
      apply in_map_iff. exists (k, v). split; [reflexivity|apply HinR, Hv].
    + intros (cs & v & -> & [Hl|[_ ->]] & [Hv|[Hv _]] & _).
      * apply HinL in Hl. destruct Hl.
      * apply HinL in Hl. destruct Hl.
      * exists v. split; [reflexivity|apply HinR, Hv].
      * exfalso. apply Hv. apply in_map_iff. exists (k, v0).
        split; [reflexivity|]. apply HinR. left. reflexivity.
  - rewrite in_map_iff. split.
    + intros (cs & <- & Hcs). exists cs, None.
      split; [reflexivity|]. split; [left; apply HinL, Hcs|].
      split; [right; split; [apply HnilR|]; reflexivity|]. left.
      apply in_map_iff. exists (k, cs). split; [reflexivity|apply HinL, Hcs].
    + intros (cs & v & -> & [Hl|[Hl _]] & [Hv|[_ ->]] & _).
      * apply HinR in Hv. destruct Hv.
      * exists cs. split; [reflexivity|apply HinL, Hl].
      * apply HinR in Hv. destruct Hv.
      * exfalso. apply Hl. apply in_map_iff. exists (k, c0).
        split; [reflexivity|]. apply HinL. left. reflexivity.
  - rewrite in_flat_map. split.
    + intros (cs & Hcs & Hrow). apply in_map_iff in Hrow.
      destruct Hrow as (v & <- & Hv). exists cs, v.
      split; [reflexivity|]. split; [left; apply HinL, Hcs|].
      split; [left; apply HinR, Hv|]. left.
      apply in_map_iff. exists (k, cs). split; [reflexivity|apply HinL, Hcs].
    + intros (cs & v & -> & [Hl|[Hl _]] & [Hv|[Hv _]] & _).
      * exists cs. split; [apply HinL, Hl|]. apply in_map_iff.
        exists v. split; [reflexivity|apply HinR, Hv].
      * exfalso. apply Hv. apply in_map_iff. exists (k, v0).
        split; [reflexivity|]. apply HinR. left. reflexivity.
      * exfalso. apply Hl. apply in_map_iff. exists (k, c0).
        split; [reflexivity|]. apply HinL. left. reflexivity.
      * exfalso. apply Hl. apply in_map_iff. exists (k, c0).
        split; [reflexivity|]. apply HinL. left. reflexivity.
Qed.

Lemma outer_merge_In (l : WideTable) (label : string) (r : list (Key * option Q))
    (k : Key) (cells : list (option Q)) :
  In (k, cells) (w_rows (outer_merge l label r)) <->
  exists cs v,
    cells = (cs ++ [v])%list /\
    (In (k, cs) (w_rows l) \/
     (~ In k (map fst (w_rows l)) /\ cs = repeat None (List.length (w_cols l)))) /\
    (In (k, v) r \/ (~ In k (map fst r) /\ v = None)) /\
    (In k (map fst (w_rows l)) \/ In k (map fst r)).
Proof.
  unfold outer_merge. simpl. rewrite in_flat_map. split.
  - intros (k' & _ & Hrow). apply join_key_In in Hrow.
    destruct Hrow as (cs & v & [= <- ->] & H). exists cs, v. tauto.
  - intros (cs & v & -> & Hl & Hr & Hk). exists k. split.
    + apply sorted_distinct_In, in_or_app. exact Hk.
    + apply join_key_In. exists cs, v. tauto.
Qed.

Lemma outer_merge_keys (l : WideTable) (label : string) (r : list (Key * option Q))
    (k : Key) :
  In k (map fst (w_rows (outer_merge l label r))) <->
  In k (map fst (w_rows l)) \/ In k (map fst r).
Proof.
  rewrite in_map_iff. split.
  - intros ([k' cells] & Hk & Hin). simpl in Hk. subst k'.
    apply outer_merge_In in Hin. destruct Hin as (cs & v & _ & _ & _ & Hk). exact Hk.
  - intros Hk.
    assert (Hl : exists cs, In (k, cs) (w_rows l) \/
                 (~ In k (map fst (w_rows l)) /\ cs = repeat None (List.length (w_cols l)))).
    { destruct (in_dec (fun a b => reflect_dec _ _ (key_eqb_spec a b)) k (map fst (w_rows l)))
        as [Hin|Hout].
      - apply in_map_iff in Hin. destruct Hin as ([k' cs] & Hk' & Hin).
        simpl in Hk'. subst k'. exists cs. auto.
      - exists (repeat None (List.length (w_cols l))). auto. }
    assert (Hr : exists v, In (k, v) r \/ (~ In k (map fst r) /\ v = None)).
    { destruct (in_dec (fun a b => reflect_dec _ _ (key_eqb_spec a b)) k (map fst r))
        as [Hin|Hout].
      - apply in_map_iff in Hin. destruct Hin as ([k' v] & Hk' & Hin).
        simpl in Hk'. subst k'. exists v. auto.
      - exists None. auto. }
    destruct Hl as [cs Hl], Hr as [v Hr].
    exists (k, (cs ++ [v])%list). split; [reflexivity|].
    apply outer_merge_In. exists cs, v. tauto.
Qed.

Lemma padding_cells (k : Key) (tables : list (string * list (Key * option Q))) :
  (forall t, In t tables -> ~ In k (map fst (snd t))) ->
  Forall2 (cell_from k) tables (repeat None (List.length tables)).
Proof.
  induction tables as [|t tables IH]; simpl; intros Hout; constructor.
  - right. split; [apply Hout; auto|reflexivity].
  - apply IH. intros t' Ht'. apply Hout. auto.
Qed.

Lemma join_inv_first (label : string) (m : list (Key * option Q)) :
  join_inv [(label, m)] (of_merged label m).
Proof.
  unfold join_inv, of_merged. simpl. split; [reflexivity|]. split.
  - intros k. rewrite map_map. simpl. split.
    + intros Hk. exists (label, m). auto.
    + intros (t & [<-|[]] & Hk). exact Hk.
  - apply Forall_map. apply Forall_forall. intros [k v] Hin. simpl.
    constructor; [|constructor]. left. exact Hin.
Qed.

Lemma join_inv_step (tables : list (string * list (Key * option Q))) (c : WideTable)
    (label : string) (r : list (Key * option Q)) :
  join_inv tables c ->
  join_inv (tables ++ [(label, r)]) (outer_merge c label r).
Proof.
  intros (Hcols & Hkeys & Hcells). split; [|split].
  - simpl. rewrite Hcols, map_app. reflexivity.
  - intros k. rewrite outer_merge_keys, Hkeys. split.
    + intros [(t & Ht & Hk)|Hk].
      * exists t. split; [apply in_or_app; auto|exact Hk].
      * exists (label, r). split; [apply in_or_app; simpl; auto|exact Hk].
    + intros (t & Ht & Hk). apply in_app_or in Ht. destruct Ht as [Ht|[<-|[]]].
      * left. exists t. auto.
      * right. exact Hk.
  - apply Forall_forall. intros [k cells] Hin. simpl.
    apply outer_merge_In in Hin.
    destruct Hin as (cs & v & -> & Hl & Hr & _). apply Forall2_app.
    + destruct Hl as [Hl|[Hl ->]].
      * rewrite Forall_forall in Hcells. apply (Hcells (k, cs) Hl).
      * rewrite Hcols, length_map. apply padding_cells.
        intros t Ht Hk. apply Hl, Hkeys. exists t. auto.
    + constructor; [exact Hr|constructor].
Qed.

Lemma join_inv_fold (rest tables : list (string * list (Key * option Q))) (c : WideTable) :
  join_inv tables c ->
  join_inv (tables ++ rest)
    (fold_left (fun acc lm => outer_merge acc (fst lm) (snd lm)) rest c).
Proof.
  revert tables c. induction rest as [|[label r] rest IH]; intros tables c Hinv; simpl.
  - rewrite app_nil_r. exact Hinv.
  - replace (tables ++ (label, r) :: rest)%list
      with ((tables ++ [(label, r)]) ++ rest)%list
      by (rewrite <- app_assoc; reflexivity).
    apply IH, join_inv_step, Hinv.
Qed.

(** C4. For a non-empty list of per-label tables the join is defined.  The
    combined table has one column per label, in the order of the tables; its
    keys are exactly the keys that occur in some table; and in every row the
    cell of each column is a value the column's table has for the row's key,
    or is empty when that table has no row of the key. *)
Theorem outer_join_union (first : string * list (Key * option Q))
    (rest : list (string * list (Key * option Q))) :
  exists c,
    reduce_merge (first :: rest) = Some c /\
    w_cols c = map fst (first :: rest) /\
    (forall k, In k (map fst (w_rows c)) <->
               exists t, In t (first :: rest) /\ In k (map fst (snd t))) /\
    Forall (fun row => Forall2 (cell_from (fst row)) (first :: rest) (snd row))
           (w_rows c).
Proof.
  destruct first as [label m]. eexists. split; [reflexivity|].
  apply (join_inv_fold rest [(label, m)]), join_inv_first.
Qed.

(** ** One row per key, up to the pivot *)

Lemma vals_unique {K V} `{OrdLaws K} (k : K) (rows : list (K * V)) :
  NoDup (map fst rows) -> vals k rows = [] \/ exists v, vals k rows = [v].
Proof.
  induction rows as [|[k' v] rows IH]; simpl; intros Hnd; [left; reflexivity|].
  inversion Hnd as [|? ? Hout Hnd']; subst. unfold vals in *. simpl.
  destruct (key_eqb_spec k k') as [->|Hne]; [|apply IH, Hnd'].
  right. exists v. simpl. f_equal. apply (vals_nil_iff k' rows), Hout.
Qed.

Lemma join_key_unique (w : nat) (l : list (Key * list (option Q)))
    (r : list (Key * option Q)) (k : Key) :
  NoDup (map fst l) -> NoDup (map fst r) ->
  map fst (join_key w l r k) = [] \/ map fst (join_key w l r k) = [k].
Proof.
  intros Hl Hr. unfold join_key.
  destruct (vals_unique k l Hl) as [->|[cs ->]];
    destruct (vals_unique k r Hr) as [->|[v ->]]; simpl; auto.
Qed.

Lemma flat_map_keys_NoDup {X} (f : Key -> list (Key * X)) (keys : list Key) :
  NoDup keys ->
  (forall k, map fst (f k) = [] \/ map fst (f k) = [k]) ->
  NoDup (map fst (flat_map f keys)).
Proof.
  intros Hnd Hf.
  assert (Hsub : forall ks k, In k (map fst (flat_map f ks)) -> In k ks).
  { induction ks as [|k0 ks IH]; simpl; intros k Hin; [exact Hin|].
    rewrite map_app in Hin. apply in_app_or in Hin. destruct Hin as [Hin|Hin].
    - destruct (Hf k0) as [E|E]; rewrite E in Hin; simpl in Hin; tauto.
    - right. apply IH, Hin. }
  induction keys as [|k0 ks IH]; simpl; [constructor|].
  inversion Hnd as [|? ? Hout Hnd']; subst. rewrite map_app.
  destruct (Hf k0) as [E|E]; rewrite E; simpl.
  - apply IH, Hnd'.
  - constructor; [|apply IH, Hnd']. intros Hin. apply Hout, Hsub, Hin.
Qed.

(** An outer join of two tables with one row per key has one row per key. *)
Lemma outer_merge_NoDup (l : WideTable) (label : string) (r : list (Key * option Q)) :
  NoDup (map fst (w_rows l)) -> NoDup (map fst r) ->
  NoDup (map fst (w_rows (outer_merge l label r))).
Proof.
  intros Hl Hr. unfold outer_merge. simpl. apply flat_map_keys_NoDup.
  - apply sorted_distinct_NoDup.
  - intros k. apply join_key_unique; assumption.
Qed.

Lemma reduce_merge_NoDup (tables : list (string * list (Key * option Q))) (c : WideTable) :
  Forall (fun t => NoDup (map fst (snd t))) tables ->
  reduce_merge tables = Some c ->
  NoDup (map fst (w_rows c)).
Proof.
  destruct tables as [|[label m] rest]; simpl; [discriminate|].
  intros Hall [= <-]. inversion Hall as [|? ? Hm Hrest]; subst. simpl in Hm.
  assert (H0 : NoDup (map fst (w_rows (of_merged label m)))).
  { unfold of_merged. simpl. rewrite map_map. exact Hm. }
  clear Hall Hm. revert H0. generalize (of_merged label m).
  induction rest as [|[label' r] rest IH]; simpl; intros acc Hacc; [exact Hacc|].
  inversion Hrest as [|? ? Hr Hrest']; subst. apply IH; [exact Hrest'|].
  apply outer_merge_NoDup; assumption.
Qed.

Lemma merged_dfs_NoDup (metrics : list (string * list CleanedTable)) :
  Forall (fun t => NoDup (map fst (snd t))) (merged_dfs metrics).
Proof.
  unfold merged_dfs. apply Forall_map. apply Forall_forall.
  intros [label dfs] _. simpl. apply groupby_NoDup.
Qed.

Lemma insert_row_perm (r : Key * list (option Q)) (l : list (Key * list (option Q))) :
  Permutation (insert_row r l) (r :: l).
Proof.
  induction l as [|r' l IH]; simpl; [reflexivity|].
  destruct (pair_cmp (sort_key r) (sort_key r')); try reflexivity;
    (apply perm_trans with (r' :: r :: l); [apply perm_skip, IH|apply perm_swap]).
Qed.

Lemma sort_values_perm (c : WideTable) :
  Permutation (w_rows (sort_values c)) (w_rows c).
Proof.
  unfold sort_values. simpl. rewrite <- (app_nil_r (w_rows c)) at 2.
  generalize (@nil (Key * list (option Q))).
  induction (w_rows c) as [|r rows IH]; intros acc; simpl; [reflexivity|].
  eapply perm_trans; [apply IH|].
  eapply perm_trans; [apply Permutation_app_head, insert_row_perm|].
  apply Permutation_sym, Permutation_middle.
Qed.

Lemma sort_values_NoDup (c : WideTable) :
  NoDup (map fst (w_rows c)) -> NoDup (map fst (w_rows (sort_values c))).
Proof.
  intros Hnd. eapply Permutation_NoDup; [|exact Hnd].
  apply Permutation_map, Permutation_sym, sort_values_perm.
Qed.

Lemma dropna_means_below (k : Month * string) (l : list ((Month * string) * (Q * nat))) :
  below k l -> below k (dropna_means l).
Proof.
  unfold below. induction l as [|[k' a] l IH]; simpl; intros Hb; [constructor|].
  inversion Hb as [|? ? Hhd Htl]; subst.
  destruct (mean_of a); [constructor; [exact Hhd|]|]; apply IH, Htl.
Qed.

Lemma dropna_means_lookup (k : Month * string) (l : list ((Month * string) * (Q * nat))) :
  sorted l ->
  lookup k (dropna_means l) =
  match lookup k l with
  | Some a => mean_of a
  | None => None
  end.
Proof.
  induction l as [|[k' a] l IH]; simpl; intros Hs; [reflexivity|].
  destruct Hs as [Hb Hs]. specialize (IH Hs).
  destruct (mean_of a) as [x|] eqn:Ea; simpl.
  - destruct (key_eqb k k'); [symmetry; exact Ea|exact IH].
  - destruct (key_eqb_spec k k') as [->|Hne]; [|exact IH].
    rewrite Ea. apply lookup_below, dropna_means_below, Hb.
Qed.

(** With one row per key, the group of a key holds that row alone. *)
Lemma metric_column_vals (j : nat) (rows : list (Key * list (option Q)))
    (o : string) (m : Month) (cells : list (option Q)) :
  NoDup (map fst rows) -> In ((o, m), cells) rows ->
  vals (m, o) (metric_column j rows) = [nth j cells None].
Proof.
  unfold metric_column.
  rewrite (vals_map (fun r : Key * list (option Q) =>
             ((snd (fst r), fst (fst r)), nth j (snd r) None))).
  simpl. induction rows as [|[[o' m'] cs] rows IH]; simpl; intros Hnd Hin; [destruct Hin|].
  inversion Hnd as [|? ? Hout Hnd']; subst.
  destruct (key_eqb_spec (m, o) (m', o')) as [Heq|Hne].
  - injection Heq as <- <-. destruct Hin as [Heq|Hin].
    + injection Heq as <-. simpl. f_equal.
      assert (Hnone : forall l : list (Key * list (option Q)),
                 ~ In (o, m) (map fst l) ->
                 filter (fun x => key_eqb (m, o) (snd (fst x), fst (fst x))) l = []).
      { induction l as [|[[o2 m2] c2] l IHl]; simpl; intros Hn; [reflexivity|].
        destruct (key_eqb_spec (m, o) (m2, o2)) as [Heq|_].
        - exfalso. apply Hn. left. congruence.
        - apply IHl. intros Hl. apply Hn. right. exact Hl. }
      rewrite Hnone by exact Hout. reflexivity.
    + exfalso. apply Hout. apply in_map_iff. exists ((o, m), cells). auto.
  - destruct Hin as [Heq|Hin]; [congruence|]. apply IH; assumption.
Qed.

Lemma agged_lookup (j : nat) (rows : list (Key * list (option Q)))
    (o : string) (m : Month) (cells : list (option Q)) (v : Q) :
  NoDup (map fst rows) -> In ((o, m), cells) rows -> nth j cells None = Some v ->
  lookup (m, o) (agged j rows) = Some ((0 + v) / inject_Z (Z.of_nat 1)).
Proof.
  intros Hnd Hin Hv. unfold agged.
  rewrite dropna_means_lookup by apply groupby_sorted.
  rewrite lookup_groupby, (metric_column_vals j rows o m cells Hnd Hin), Hv.
  reflexivity.
Qed.

Lemma lookup_map_index {K X} `{OrdLaws K} (g : K -> X) (ks : list K) (k : K) :
  In k ks -> lookup k (map (fun x => (x, g x)) ks) = Some (g k).
Proof.
  induction ks as [|k' ks IH]; simpl; [intros []|]. intros Hin.
  destruct (key_eqb_spec k k') as [->|Hne]; [reflexivity|].
  destruct Hin as [Heq|Hin]; [congruence|apply IH, Hin].
Qed.

Lemma index_of_nth {X} (g : string -> X) (d : X) (l : list string) (o : string) :
  In o l -> exists i, index_of o l = Some i /\ nth i (map g l) d = g o.
Proof.
  induction l as [|x l IH]; simpl; [intros []|]. intros Hin.
  destruct (String.eqb_spec o x) as [->|Hne].
  - exists O. auto.
  - destruct Hin as [Heq|Hin]; [congruence|].
    destruct (IH Hin) as (i & -> & Hi). exists (S i). auto.
Qed.

(** The pivot cell of a row's month and organisation is the mean over the
    single row of that key. *)
Lemma pivot_cell_value (j : nat) (rows : list (Key * list (option Q)))
    (o : string) (m : Month) (cells : list (option Q)) (v : Q) :
  NoDup (map fst rows) -> In ((o, m), cells) rows -> nth j cells None = Some v ->
  pivot_cell (pivot_table j rows) m o = Some ((0 + v) / inject_Z (Z.of_nat 1)).
Proof.
  intros Hnd Hin Hv. pose proof (agged_lookup j rows o m cells v Hnd Hin Hv) as Ha.
  pose proof (lookup_In _ _ _ Ha) as Hrow.
  unfold pivot_cell, pivot_table. simpl.
  rewrite (lookup_map_index
             (fun m => map (fun o => lookup (m, o) (agged j rows))
                           (sorted_distinct (map (fun r => snd (fst r)) (agged j rows))))).
  - destruct (index_of_nth (fun o => lookup (m, o) (agged j rows)) None
                (sorted_distinct (map (fun r => snd (fst r)) (agged j rows))) o)
      as (i & -> & Hi).
    + apply sorted_distinct_In, in_map_iff. eexists. split; [|exact Hrow]. reflexivity.
    + rewrite Hi. exact Ha.
  - apply sorted_distinct_In, in_map_iff. eexists. split; [|exact Hrow]. reflexivity.
Qed.

Lemma dict_set_Forall {X} (P : string * X -> Prop) (k : string) (v : X)
    (d : list (string * X)) :
  P (k, v) -> Forall P d -> Forall P (dict_set k v d).
Proof.
  intros Hv. induction d as [|[k' v'] d IH]; simpl; intros Hd.
  - constructor; [exact Hv|constructor].
  - inversion Hd; subst. destruct (String.eqb_spec k' k) as [->|Hne]; constructor; auto.
Qed.

Lemma enumerate_from_nth {X} (l : list X) (i j : nat) (x : X) :
  In (j, x) (enumerate_from i l) -> (i <= j)%nat /\ nth_error l (j - i) = Some x.
Proof.
  revert i. induction l as [|y l IH]; simpl; intros i; [intros []|].
  intros [[= <- <-]|Hin].
  - rewrite Nat.sub_diag. auto.
  - apply IH in Hin. destruct Hin as [Hle Hn]. split; [lia|].
    replace (j - i)%nat with (S (j - S i)) by lia. exact Hn.
Qed.

Lemma pivots_columns (c : WideTable) :
  Forall (fun lp => exists j, nth_error (w_cols c) j = Some (fst lp) /\
                              snd lp = pivot_table j (w_rows c))
         (pivots c).
Proof.
  unfold pivots.
  assert (Hcols : Forall (fun jc => nth_error (w_cols c) (fst jc) = Some (snd jc))
                         (metric_columns c)).
  { apply Forall_forall. intros [j col] Hin. unfold metric_columns in Hin.
    apply filter_In in Hin. destruct Hin as [Hin _].
    apply enumerate_from_nth in Hin. rewrite Nat.sub_0_r in Hin. apply Hin. }
  assert (Hacc : Forall (fun lp : string * PivotSheet =>
                           exists j, nth_error (w_cols c) j = Some (fst lp) /\
                                     snd lp = pivot_table j (w_rows c)) [])
    by constructor.
  revert Hacc. generalize (@nil (string * PivotSheet)).
  induction (metric_columns c) as [|[j col] mcs IH]; simpl; intros acc Hacc; [exact Hacc|].
  inversion Hcols as [|? ? Hj Hrest]; subst. apply IH; [exact Hrest|].
  apply dict_set_Forall; [|exact Hacc]. exists j. auto.
Qed.

(** C10. The table of every label has one row per key, an outer join of
    tables with one row per key has one row per key, and so has the combined
    table, before and after sorting.  Each sheet is the pivot of one label
    column of that table.  For a row that has a value in the column, the
    group the pivot averages holds that value alone, and the sheet's cell
    for the row's month and organisation is the mean of it: the value. *)
Theorem pivot_reproduces_values (local_files : list (LocalTable * string))
    (national_files : list (list NationalRow * string)) (c : WideTable) :
  combined local_files national_files = Some c ->
  Forall (fun t => NoDup (map fst (snd t)))
         (merged_dfs (all_metrics local_files national_files)) /\
  (forall l label r, NoDup (map fst (w_rows l)) -> NoDup (map fst r) ->
                     NoDup (map fst (w_rows (outer_merge l label r)))) /\
  NoDup (map fst (w_rows c)) /\
  NoDup (map fst (w_rows (sort_values c))) /\
  Forall (fun lp => exists j, nth_error (w_cols c) j = Some (fst lp) /\
                              snd lp = pivot_table j (w_rows (sort_values c)))
         (pivots (sort_values c)) /\
  (forall j o m cells v,
      In ((o, m), cells) (w_rows (sort_values c)) -> nth j cells None = Some v ->
      vals (m, o) (metric_column j (w_rows (sort_values c))) = [Some v] /\
      exists x, pivot_cell (pivot_table j (w_rows (sort_values c))) m o = Some x /\
                x == v).
Proof.
  intros Hc. pose proof (merged_dfs_NoDup (all_metrics local_files national_files)) as Hm.
  pose proof (reduce_merge_NoDup _ c Hm Hc) as Hnd.
  pose proof (sort_values_NoDup c Hnd) as Hsorted.
  split; [exact Hm|]. split; [exact outer_merge_NoDup|].
  split; [exact Hnd|]. split; [exact Hsorted|]. split.
  - apply (pivots_columns (sort_values c)).
  - intros j o m cells v Hin Hv. split.
    + rewrite (metric_column_vals j _ o m cells Hsorted Hin), Hv. reflexivity.
    + eexists. split; [apply (pivot_cell_value j _ o m cells v Hsorted Hin Hv)|].
      change (inject_Z (Z.of_nat 1)) with 1. field.
Qed.

Lemma pivot_reproduces_values_witness :
  exists x,
    pivot_cell
      (pivot_table 0 [(("England", (2024, 1)%nat), [Some (85 # 2)]);
                      (("North East and North Cumbria", (2024, 1)%nat), [Some 50]);
                      (("ORG A", (2024, 1)%nat), [Some 50]);
                      (("North East and North Cumbria", (2024, 2)%nat), [Some 50]);
                      (("ORG A", (2024, 2)%nat), [Some 50])])
      (2024, 1)%nat "England" = Some x /\
    x == 85 # 2.
Proof.
  destruct (pivot_reproduces_values
              [(example_local, "Screening (%)")] [(example_national, "Screening (%)")]
              _ eq_refl) as (_ & _ & _ & _ & _ & Hcell).
  apply (Hcell 0%nat "England" (2024, 1)%nat [Some (85 # 2)] (85 # 2)).
  - left. reflexivity.
  - reflexivity.
Defined.

(** ** The worksheets *)

Lemma wb_lookup_write_titled (name n : string) (cells : Grid) (wb : Workbook) :
  wb_lookup name (write_titled n cells wb) =
  if String.eqb n name then write_over (wb_lookup name wb) cells
  else wb_lookup name wb.
Proof.
  induction wb as [|[n' g] wb IH]; simpl.
  - destruct (String.eqb n name); reflexivity.
  - destruct (String.eqb_spec n' n) as [->|Hne]; simpl.
    + destruct (String.eqb n name); reflexivity.
    + rewrite IH. destruct (String.eqb_spec n' name) as [->|Hne'].
      * destruct (String.eqb_spec n name) as [->|_]; [congruence|reflexivity].
      * reflexivity.
Qed.

Lemma wb_lookup_fold (name : string) (pv : list (string * PivotSheet)) (wb : Workbook) :
  wb_lookup name
    (fold_left (fun wb sp => write_titled (truncate31 (fst sp)) (to_excel_cells (snd sp)) wb)
               pv wb) =
  overlay_all (sheets_for name pv) (wb_lookup name wb).
Proof.
  revert wb. induction pv as [|[label p] pv IH]; intros wb; simpl; [reflexivity|].
  rewrite IH, wb_lookup_write_titled. unfold sheets_for. simpl.
  destruct (String.eqb (truncate31 label) name); reflexivity.
Qed.

Lemma write_titled_names (n : string) (cells : Grid) (wb : Workbook) :
  map fst (write_titled n cells wb) =
  if existsb (fun x => String.eqb x n) (map fst wb) then map fst wb
  else (map fst wb ++ [n])%list.
Proof.
  induction wb as [|[n' g] wb IH]; simpl; [reflexivity|].
  destruct (String.eqb n' n); simpl; [reflexivity|].
  rewrite IH. destruct (existsb _ (map fst wb)); reflexivity.
Qed.

Lemma write_titled_NoDup (n : string) (cells : Grid) (wb : Workbook) :
  NoDup (map fst wb) -> NoDup (map fst (write_titled n cells wb)).
Proof.
  intros Hnd. rewrite write_titled_names.
  destruct (existsb _ (map fst wb)) eqn:E; [exact Hnd|].
  apply NoDup_app; [exact Hnd|constructor; [intros []|constructor]|].
  intros x Hx [Heq|[]]. subst x.
  assert (Ht : existsb (fun y => String.eqb y n) (map fst wb) = true).
  { apply existsb_exists. exists n. split; [exact Hx|apply String.eqb_refl]. }
  congruence.
Qed.

Lemma write_titled_In (n name : string) (cells : Grid) (wb : Workbook) :
  In name (map fst (write_titled n cells wb)) <-> name = n \/ In name (map fst wb).
Proof.
  rewrite write_titled_names. destruct (existsb _ (map fst wb)) eqn:E.
  - split; [auto|]. intros [->|Hin]; [|exact Hin].
    apply existsb_exists in E. destruct E as (x & Hx & Heq).
    apply String.eqb_eq in Heq. subst x. exact Hx.
  - rewrite in_app_iff. simpl. split; intros [H|H]; auto.
    + destruct H as [<-|[]]. auto.
Qed.

Lemma export_names (pv : list (string * PivotSheet)) :
  NoDup (map fst (export_titled pv)) /\
  forall name, In name (map fst (export_titled pv)) <->
               In name (map (fun sp => truncate31 (fst sp)) pv).
Proof.
  unfold export_titled.
  assert (H0 : NoDup (map fst (@nil (string * Grid))) /\
               forall name, In name (map fst (@nil (string * Grid))) <->
                            In name (map (fun sp : string * PivotSheet => truncate31 (fst sp)) []
                                     ++ map fst (@nil (string * Grid)))%list)
    by (split; [constructor|reflexivity]).
  revert H0.
  replace (map (fun sp : string * PivotSheet => truncate31 (fst sp)) pv)
    with (map (fun sp : string * PivotSheet => truncate31 (fst sp)) pv
          ++ map fst (@nil (string * Grid)))%list by apply app_nil_r.
  generalize (@nil (string * Grid)).
  induction pv as [|[label p] pv IH]; intros wb [Hnd Hin]; simpl.
  - split; [exact Hnd|reflexivity].
  - destruct (IH (write_titled (truncate31 label) (to_excel_cells p) wb)) as [Hnd' Hin'].
    + split; [apply write_titled_NoDup, Hnd|]. intros name. reflexivity.
    + split; [exact Hnd'|]. intros name. rewrite Hin', !in_app_iff, write_titled_In.
      simpl. split; intros H; repeat destruct H as [H|H]; auto.
Qed.

Lemma substring_all (n : nat) (s : string) :
  (String.length s <= n)%nat -> substring 0 n s = s.
Proof.
  revert n. induction s as [|c s IH]; intros n Hn; simpl.
  - destruct n; reflexivity.
  - destruct n; simpl in *; [lia|]. rewrite IH by lia. reflexivity.
Qed.

Lemma nth_error_overlay_row (new old : list xcell) (j : nat) :
  nth_error (overlay_row new old) j =
  match nth_error new j with
  | Some c => Some c
  | None => nth_error old j
  end.
Proof.
  unfold overlay_row. destruct (Nat.lt_ge_cases j (List.length new)) as [Hlt|Hge].
  - rewrite nth_error_app1 by exact Hlt.
    destruct (nth_error new j) eqn:E; [reflexivity|].
    apply nth_error_None in E. lia.
  - rewrite nth_error_app2 by exact Hge. rewrite nth_error_skipn.
    replace (List.length new + (j - List.length new))%nat with j by lia.
    apply nth_error_None in Hge. rewrite Hge. reflexivity.
Qed.

(** Cell by cell, the written grid wins and the rest of the worksheet
    stays. *)
Lemma grid_cell_overlay (new old : Grid) (i j : nat) :
  grid_cell (overlay new old) i j =
  match grid_cell new i j with
  | Some c => Some c
  | None => grid_cell old i j
  end.
Proof.
  unfold grid_cell. revert old i. induction new as [|r new IH]; intros old i; simpl.
  - destruct i; reflexivity.
  - destruct old as [|r0 old].
    + destruct (nth_error (r :: new) i) as [row|]; [|destruct i; reflexivity].
      destruct (nth_error row j); [reflexivity|]. destruct i; reflexivity.
    + destruct i; simpl; [apply nth_error_overlay_row|apply IH].
Qed.

Lemma dict_set_keys {X} (k : string) (v : X) (d : list (string * X)) :
  map fst (dict_set k v d) =
  if existsb (fun x => String.eqb x k) (map fst d) then map fst d
  else (map fst d ++ [k])%list.
Proof.
  induction d as [|[k' v'] d IH]; simpl; [reflexivity|].
  destruct (String.eqb k' k); simpl; [reflexivity|].
  rewrite IH. destruct (existsb _ (map fst d)); reflexivity.
Qed.

Lemma existsb_eqb_false (k : string) (l : list string) :
  ~ In k l -> existsb (fun x => String.eqb x k) l = false.
Proof.
  intros Hout. destruct (existsb _ l) eqn:E; [|reflexivity].
  apply existsb_exists in E. destruct E as (x & Hx & Heq).
  apply String.eqb_eq in Heq. subst x. contradiction.
Qed.

Lemma setdefault_append_keys (label : string) (t : CleanedTable)
    (d : list (string * list CleanedTable)) :
  map fst (setdefault_append label t d) =
  if existsb (fun x => String.eqb x label) (map fst d) then map fst d
  else (map fst d ++ [label])%list.
Proof.
  induction d as [|[l ts] d IH]; simpl; [reflexivity|].
  destruct (String.eqb l label); simpl; [reflexivity|].
  rewrite IH. destruct (existsb _ (map fst d)); reflexivity.
Qed.

Lemma NoDup_snoc (l : list string) (k : string) :
  NoDup l -> ~ In k l -> NoDup (l ++ [k]).
Proof.
  intros Hnd Hout. apply NoDup_app; [exact Hnd|constructor; [intros []|constructor]|].
  intros x Hx [Heq|[]]. subst x. contradiction.
Qed.

Lemma collect_NoDup (tables : list CleanedTable) (d : list (string * list CleanedTable)) :
  NoDup (map fst d) -> NoDup (map fst (collect tables d)).
Proof.
  revert d. unfold collect.
  induction tables as [|t tables IH]; intros d Hnd; simpl; [exact Hnd|].
  apply IH. rewrite setdefault_append_keys.
  destruct (existsb _ (map fst d)) eqn:E; [exact Hnd|].
  apply NoDup_snoc; [exact Hnd|]. intros Hin.
  assert (Ht : existsb (fun x => String.eqb x (c_label t)) (map fst d) = true).
  { apply existsb_exists. exists (c_label t). split; [exact Hin|apply String.eqb_refl]. }
  congruence.
Qed.

(** The label columns of the combined table are the labels of the files,
    each once, in order of first use. *)
Lemma combined_cols (local_files : list (LocalTable * string))
    (national_files : list (list NationalRow * string)) (c : WideTable) :
  combined local_files national_files = Some c ->
  w_cols c = map fst (all_metrics local_files national_files) /\ NoDup (w_cols c).
Proof.
  unfold combined. intros Hc.
  assert (Hcols : w_cols c = map fst (merged_dfs (all_metrics local_files national_files))).
  { destruct (merged_dfs (all_metrics local_files national_files)) as [|[label m] rest];
      [discriminate|].
    injection Hc as <-.
    apply (join_inv_fold rest [(label, m)]), join_inv_first. }
  unfold merged_dfs in Hcols. rewrite map_map in Hcols. simpl in Hcols.
  split; [exact Hcols|]. rewrite Hcols. unfold all_metrics.
  apply collect_NoDup, collect_NoDup. constructor.
Qed.

Lemma sort_values_cols (c : WideTable) : w_cols (sort_values c) = w_cols c.
Proof. reflexivity. Qed.

Lemma enumerate_from_snd {X} (i : nat) (l : list X) :
  map snd (enumerate_from i l) = l.
Proof.
  revert i. induction l as [|x l IH]; intros i; simpl; [reflexivity|].
  rewrite IH. reflexivity.
Qed.

Lemma filter_map_snd {X Y} (f : Y -> bool) (l : list (X * Y)) :
  map snd (filter (fun p => f (snd p)) l) = filter f (map snd l).
Proof.
  induction l as [|[x y] l IH]; simpl; [reflexivity|].
  destruct (f y); simpl; rewrite IH; reflexivity.
Qed.

(** The sheets are keyed by the metric columns, in column order. *)
Lemma pivots_keys (c : WideTable) :
  NoDup (w_cols c) -> map fst (pivots c) = filter is_metric (w_cols c).
Proof.
  intros Hnd. unfold pivots.
  assert (Hm : map snd (metric_columns c) = filter is_metric (w_cols c)).
  { unfold metric_columns.
    transitivity (filter is_metric (map snd (enumerate_from 0 (w_cols c)))).
    - exact (filter_map_snd is_metric (enumerate_from 0 (w_cols c))).
    - rewrite enumerate_from_snd. reflexivity. }
  assert (Hnd' : NoDup (map fst (@nil (string * PivotSheet)) ++ map snd (metric_columns c))).
  { simpl. rewrite Hm. apply NoDup_filter, Hnd. }
  rewrite <- Hm. change (map snd (metric_columns c))
    with (map fst (@nil (string * PivotSheet)) ++ map snd (metric_columns c))%list.
  clear Hm. revert Hnd'. generalize (@nil (string * PivotSheet)).
  induction (metric_columns c) as [|[j col] mcs IH]; intros acc Hacc; simpl.
  - symmetry. apply app_nil_r.
  - simpl in Hacc. rewrite IH.
    + rewrite dict_set_keys, existsb_eqb_false.
      * rewrite <- app_assoc. reflexivity.
      * apply NoDup_remove_2 in Hacc. intros Hin. apply Hacc, in_or_app. auto.
    + rewrite dict_set_keys, existsb_eqb_false.
      * rewrite <- app_assoc. exact Hacc.
      * apply NoDup_remove_2 in Hacc. intros Hin. apply Hacc, in_or_app. auto.
Qed.

(** *** Titles that openpyxl takes as they are *)

Lemma write_titled_fresh (n : string) (cells : Grid) (wb : Workbook) :
  ~ In n (map fst wb) -> write_titled n cells wb = (wb ++ [(n, cells)])%list.
Proof.
  induction wb as [|[n' g] wb IH]; cbn [write_titled map fst In app]; [reflexivity|].
  intros Hout. destruct (String.eqb_spec n' n) as [->|Hne]; [exfalso; auto|].
  rewrite IH by auto. reflexivity.
Qed.

Lemma eqb_nocase_sym (a b : string) : eqb_nocase a b = eqb_nocase b a.
Proof. unfold eqb_nocase. apply String.eqb_sym. Qed.

Lemma eqb_nocase_refl (a : string) : eqb_nocase a a = true.
Proof. unfold eqb_nocase. apply String.eqb_refl. Qed.

Lemma plain_title_spec (t : string) :
  plain_title t = true ->
  t <> "" /\ invalid_title t = false /\ eqb_nocase t "Sheet" = false.
Proof.
  unfold plain_title. rewrite !andb_true_iff, !negb_true_iff.
  intros [[H1 H2] H3]. split; [|auto]. apply String.eqb_neq. exact H1.
Qed.

Lemma titles_taken_spec (names : list string) :
  titles_taken names = true ->
  forall a, In a names ->
    is_ascii a = true /\ plain_title a = true /\
    forall b, In b names -> eqb_nocase a b = true -> a = b.
Proof.
  unfold titles_taken. rewrite forallb_forall. intros H a Ha.
  specialize (H a Ha). rewrite !andb_true_iff in H. destruct H as [[H1 H2] H3].
  split; [exact H1|]. split; [exact H2|]. intros b Hb Heq.
  rewrite forallb_forall in H3. specialize (H3 b Hb). rewrite Heq in H3.
  apply String.eqb_eq. exact H3.
Qed.

(** A plain title that differs, case apart, from the plain titles of the
    workbook is given to the new worksheet as it is. *)
Lemma new_title_taken (names : list string) (name : string) :
  plain_title name = true ->
  (forall n, In n names -> plain_title n = true) ->
  (forall n, In n names -> eqb_nocase name n = true -> name = n) ->
  ~ In name names ->
  new_title names name = Some name.
Proof.
  intros Hp Hnames Hcase Hout.
  destruct (plain_title_spec name Hp) as (Hne & Hinv & Hsheet).
  unfold new_title. destruct name as [|c name]; [contradiction Hne; reflexivity|].
  rewrite Hinv.
  assert (Hcreated : avoid_duplicate_name names "Sheet" = "Sheet").
  { unfold avoid_duplicate_name. rewrite existsb_none; [reflexivity|].
    intros n Hn. rewrite eqb_nocase_sym.
    apply (plain_title_spec n (Hnames n Hn)). }
  rewrite Hcreated.
  assert (Hdiff : String.eqb "Sheet" (String c name) = false).
  { apply String.eqb_neq. intros E. rewrite <- E in Hsheet. discriminate Hsheet. }
  rewrite Hdiff. unfold avoid_duplicate_name. rewrite existsb_none; [reflexivity|].
  intros n Hn. apply in_app_or in Hn.
  destruct Hn as [Hn|Hn]; [|destruct Hn as [Hn|Hn]; [subst n; exact Hsheet|destruct Hn]].
  destruct (eqb_nocase (String c name) n) eqn:E; [|reflexivity].
  exfalso. apply Hout. rewrite (Hcase n Hn E). exact Hn.
Qed.

Lemma write_cells_taken (name : string) (cells : Grid) (wb : Workbook) :
  plain_title name = true ->
  (forall n, In n (sheetnames wb) -> plain_title n = true) ->
  (forall n, In n (sheetnames wb) -> eqb_nocase name n = true -> name = n) ->
  write_cells name cells wb = Some (write_titled name cells wb).
Proof.
  intros Hp Hnames Hcase. unfold write_cells.
  destruct (existsb (String.eqb name) (sheetnames wb)) eqn:E; [reflexivity|].
  assert (Hout : ~ In name (sheetnames wb)).
  { intros Hin. assert (Ht : existsb (String.eqb name) (sheetnames wb) = true).
    { apply existsb_exists. exists name. split; [exact Hin|apply String.eqb_refl]. }
    congruence. }
  rewrite (new_title_taken _ _ Hp Hnames Hcase Hout).
  rewrite write_titled_fresh by exact Hout. reflexivity.
Qed.

Lemma export_taken_from (all : list string) (pv : list (string * PivotSheet))
    (wb : Workbook) :
  titles_taken all = true ->
  incl (sheetnames wb) all ->
  incl (map (fun sp => truncate31 (fst sp)) pv) all ->
  fold_left (fun wb sp =>
               match wb with
               | Some wb => write_cells (truncate31 (fst sp)) (to_excel_cells (snd sp)) wb
               | None => None
               end)
            pv (Some wb) =
  Some (fold_left (fun wb sp =>
                     write_titled (truncate31 (fst sp)) (to_excel_cells (snd sp)) wb)
                  pv wb).
Proof.
  intros Hall. pose proof (titles_taken_spec all Hall) as Hspec.
  revert wb. induction pv as [|sp pv IH]; intros wb Hwb Hpv; cbn [fold_left]; [reflexivity|].
  assert (Hin : In (truncate31 (fst sp)) all) by (apply Hpv; left; reflexivity).
  rewrite write_cells_taken.
  - apply IH.
    + intros n Hn. unfold sheetnames in Hn. apply write_titled_In in Hn.
      destruct Hn as [->|Hn]; [exact Hin|apply Hwb, Hn].
    + intros n Hn. apply Hpv. right. exact Hn.
  - apply (Hspec _ Hin).
  - intros n Hn. apply (Hspec n), Hwb, Hn.
  - intros n Hn. apply (Hspec _ Hin), Hwb, Hn.
Qed.

(** When openpyxl takes the titles as they are, the export is the workbook
    of the sheets under the titles asked for. *)
Lemma export_taken (pv : list (string * PivotSheet)) :
  titles_taken (map (fun sp => truncate31 (fst sp)) pv) = true ->
  export pv = Some (export_titled pv).
Proof.
  intros H. unfold export, export_titled.
  apply (export_taken_from _ pv [] H); [intros n []|apply incl_refl].
Qed.

Lemma fold_raised (pv : list (string * PivotSheet)) :
  fold_left (fun (wb : option Workbook) sp =>
               match wb with
               | Some wb => write_cells (truncate31 (fst sp)) (to_excel_cells (snd sp)) wb
               | None => None
               end)
            pv None = None.
Proof. induction pv as [|sp pv IH]; cbn [fold_left]; [reflexivity|exact IH]. Qed.

(** The first title that is empty or holds a forbidden character ends the
    export. *)
Lemma export_raises (pre post : list (string * PivotSheet)) (label : string)
    (p : PivotSheet) :
  titles_taken (map (fun sp => truncate31 (fst sp)) pre) = true ->
  truncate31 label = "" \/ invalid_title (truncate31 label) = true ->
  export (pre ++ (label, p) :: post) = None.
Proof.
  intros Hpre Hbad. unfold export. rewrite fold_left_app. fold (export pre).
  rewrite (export_taken pre Hpre). cbn [fold_left fst snd].
  assert (Hnp : plain_title (truncate31 label) = false).
  { unfold plain_title. destruct Hbad as [-> | ->]; [reflexivity|].
    rewrite andb_false_r. reflexivity. }
  assert (Hw : write_cells (truncate31 label) (to_excel_cells p) (export_titled pre) = None).
  { unfold write_cells. rewrite existsb_none.
    - unfold new_title. destruct Hbad as [->|Hinv]; [reflexivity|].
      rewrite Hinv. destruct (truncate31 label); reflexivity.
    - intros n Hn. apply String.eqb_neq. intros E. subst n.
      apply (proj2 (export_names pre)) in Hn.
      apply (titles_taken_spec _ Hpre) in Hn. destruct Hn as (_ & Hn & _). congruence. }
  rewrite Hw. apply fold_raised.
Qed.

(** C9, as stated, fails: the worksheet of two labels with one truncation
    is not the later sheet.  The later sheet (Month, England) is written
    over the earlier one (Month, North East and North Cumbria, ORG A), whose
    third column stays. *)
Lemma truncated_sheets_overlay :
  truncate31 label_all = truncate31 label_75 /\
  option_map (fun c => pivots (sort_values c))
             (combined [(collision_local, label_all)] [(example_national, label_75)]) =
    Some [(label_all, sheet_all); (label_75, sheet_75)] /\
  run [(collision_local, label_all)] [(example_national, label_75)] =
    [StSuccess "✅ Processing complete!";
     StDownload "📥 Download Excel File"
       [("Patients on 10 or more medicine",
         [[XText "Month"; XText "England"; XText "ORG A"];
          [XText "Jan-24"; XNumber (85 # 2); XNumber 50]])]
       "overprescribing_charts.xlsx"] /\
  option_map (wb_lookup (truncate31 label_75))
             (export [(label_all, sheet_all); (label_75, sheet_75)]) <>
    Some (Some (to_excel_cells sheet_75)).
Proof.
  split; [reflexivity|]. split; [reflexivity|]. split; [reflexivity|].
  vm_compute. discriminate.
Qed.

(** C9, amended.  The sheets are keyed by the label columns of the combined
    table, which are the labels of the files, each once.  The sheet of a
    label is written under the label's first 31 characters, which are the
    label itself when an ASCII label has at most 31 characters.  When
    openpyxl takes these titles as they are (ASCII titles that are not
    empty, hold none of the characters \ * ? : / [ ], are not 'Sheet' in
    any case, and of which no two differ in case only), the workbook has one
    worksheet per title.  A worksheet holds the sheets of all labels with
    its title, each written over the ones before it from the top-left
    corner: where the sheet written last has a cell the worksheet has that
    cell, elsewhere the cells written before stay, and the worksheet is the
    sheet itself when no other label was written to it before.  The first
    title that is empty or holds a forbidden character makes the export
    raise, and no workbook is produced. *)
Theorem export_worksheets (pv : list (string * PivotSheet)) :
  (forall local_files national_files c,
      combined local_files national_files = Some c ->
      NoDup (w_cols c) /\
      w_cols c = map fst (all_metrics local_files national_files) /\
      map fst (pivots (sort_values c)) = filter is_metric (w_cols c)) /\
  (forall label, is_ascii label = true -> (String.length label <= 31)%nat ->
                 truncate31 label = label) /\
  (titles_taken (map (fun sp => truncate31 (fst sp)) pv) = true ->
   exists wb,
     export pv = Some wb /\
     NoDup (sheetnames wb) /\
     (forall name, In name (sheetnames wb) <->
                   In name (map (fun sp => truncate31 (fst sp)) pv)) /\
     (forall name, wb_lookup name wb = overlay_all (sheets_for name pv) None) /\
     (forall pre label p post,
         pv = (pre ++ (label, p) :: post)%list ->
         sheets_for (truncate31 label) post = [] ->
         exists g,
           wb_lookup (truncate31 label) wb = Some g /\
           (forall i j, grid_cell g i j =
                        match grid_cell (to_excel_cells p) i j with
                        | Some c => Some c
                        | None =>
                            match overlay_all (sheets_for (truncate31 label) pre) None with
                            | Some old => grid_cell old i j
                            | None => None
                            end
                        end) /\
           (sheets_for (truncate31 label) pre = [] -> g = to_excel_cells p))) /\
  (forall pre label p post,
      pv = (pre ++ (label, p) :: post)%list ->
      titles_taken (map (fun sp => truncate31 (fst sp)) pre) = true ->
      truncate31 label = "" \/ invalid_title (truncate31 label) = true ->
      export pv = None).
Proof.
  assert (Hlookup : forall name,
             wb_lookup name (export_titled pv) = overlay_all (sheets_for name pv) None).
  { intros name. unfold export_titled. rewrite wb_lookup_fold. reflexivity. }
  split; [|split; [|split]].
  - intros local_files national_files c Hc.
    destruct (combined_cols local_files national_files c Hc) as [Hcols Hnd].
    split; [exact Hnd|]. split; [exact Hcols|].
    apply (pivots_keys (sort_values c)). exact Hnd.
  - intros label _ Hlen. apply substring_all, Hlen.
  - intros Htaken. exists (export_titled pv).
    split; [apply export_taken, Htaken|].
    split; [apply export_names|]. split; [apply export_names|].
    split; [exact Hlookup|].
    intros pre label p post -> Hpost. rewrite Hlookup.
    unfold sheets_for in *. rewrite filter_app, map_app. simpl.
    rewrite String.eqb_refl. simpl. rewrite Hpost.
    unfold overlay_all. rewrite fold_left_app. simpl.
    set (before := fold_left write_over
                     (map (fun sp : string * PivotSheet => to_excel_cells (snd sp))
                          (filter (fun sp : string * PivotSheet =>
                                     String.eqb (truncate31 (fst sp)) (truncate31 label)) pre))
                     None).
    destruct before as [old|] eqn:Eb; simpl.
    + exists (overlay (to_excel_cells p) old). split; [reflexivity|]. split.
      * intros i j. apply grid_cell_overlay.
      * intros Hpre. subst before. rewrite Hpre in Eb. discriminate.
    + exists (to_excel_cells p). split; [reflexivity|]. split; [|reflexivity].
      intros i j. destruct (grid_cell (to_excel_cells p) i j); reflexivity.
  - intros pre label p post -> Hpre Hbad. apply export_raises; assumption.
Qed.

Lemma export_worksheets_witness :
  exists wb g,
    export [(label_all, sheet_all); (label_75, sheet_75)] = Some wb /\
    wb_lookup (truncate31 label_75) wb = Some g /\
    grid_cell g 0 1 = Some (XText "England") /\
    grid_cell g 0 2 = Some (XText "ORG A").
Proof.
  destruct (export_worksheets [(label_all, sheet_all); (label_75, sheet_75)])
    as (_ & _ & Htaken & _).
  destruct (Htaken eq_refl) as (wb & Hwb & _ & _ & _ & Hlast).
  destruct (Hlast [(label_all, sheet_all)] label_75 sheet_75 [] eq_refl eq_refl)
    as (g & Hg & Hcells & _).
  exists wb, g. split; [exact Hwb|]. split; [exact Hg|].
  rewrite !Hcells. split; reflexivity.
Defined.

(** What openpyxl does with the titles it does not take as they are: a
    title that differs in case only from one of the workbook gets a counter,
    and a title with a forbidden character or an empty title ends the run
    with the exception. *)
Example titles_not_taken :
  option_map sheetnames
    (export [("Screening (%)", sheet_all); ("screening (%)", sheet_75)]) =
    Some ["Screening (%)"; "screening (%)1"] /\
  option_map sheetnames
    (export [("Sheet1", sheet_all); ("sheet", sheet_75); ("SHEET", sheet_75)]) =
    Some ["Sheet1"; "sheet2"; "SHEET3"] /\
  export [("Statins/All (%)", sheet_all)] = None /\
  export [("", sheet_all)] = None /\
  run [(example_local, "Statins/All (%)")] [] = [StException "ValueError"].
Proof. vm_compute. repeat split. Qed.

(** ** The end-to-end examples of the specification *)

Example end_to_end_local :
  run [(example_local, "Screening (%)")] [] =
    [StSuccess "✅ Processing complete!";
     StDownload "📥 Download Excel File"
       [("Screening (%)",
         [[XText "Month"; XText "North East and North Cumbria"; XText "ORG A"];
          [XText "Jan-24"; XNumber 50; XNumber 50];
          [XText "Feb-24"; XNumber 50; XNumber 50]])]
       "overprescribing_charts.xlsx"].
Proof. reflexivity. Qed.

Example end_to_end_with_national :
  run [(example_local, "Screening (%)")] [(example_national, "Screening (%)")] =
    [StSuccess "✅ Processing complete!";
     StDownload "📥 Download Excel File"
       [("Screening (%)",
         [[XText "Month"; XText "England"; XText "North East and North Cumbria";
           XText "ORG A"];
          [XText "Jan-24"; XNumber (85 # 2); XNumber 50; XNumber 50];
          [XText "Feb-24"; XBlank; XNumber 50; XNumber 50]])]
       "overprescribing_charts.xlsx"].
Proof. reflexivity. Qed.

(** Rounding goes to the even neighbour on a tie of the float64 product;
    months parse without regard to case and only in the form Mon-YY. *)
Example round2_samples :
  round2 (1 # 8) = float64 (12 # 100) /\ round2 (3 # 8) = float64 (38 # 100) /\
  round2 (5 # 8) = float64 (62 # 100) /\ round2 150 = 150.
Proof. vm_compute. repeat split. Qed.

Example strptime_samples :
  strptime "Jan-24" = Some (2024, 1)%nat /\ strptime "sep-07" = Some (2007, 9)%nat /\
  strptime "Dec-69" = Some (1969, 12)%nat /\ strptime "January 2024" = None /\
  strptime "Jan-2024" = None.
Proof. repeat split. Qed.

(** * Further properties *)

(** ** Organisation names *)

Lemma dict_get_In (d : list (string * string)) (k v : string) :
  dict_get d k = Some v -> In (k, v) d.
Proof.
  induction d as [|[k' v'] d IH]; simpl; [discriminate|].
  destruct (String.eqb_spec k k') as [->|_].
  - intros [= ->]. left. reflexivity.
  - intros Hd. right. apply IH, Hd.
Qed.

Lemma display_names_unmapped (k v : string) :
  In (k, v) organisation_legend_mapping ->
  dict_get organisation_legend_mapping v = None.
Proof.
  intros Hin.
  assert (Hall : forallb (fun kv => match dict_get organisation_legend_mapping (snd kv) with
                                    | None => true
                                    | Some _ => false
                                    end)
                         organisation_legend_mapping = true) by reflexivity.
  rewrite forallb_forall in Hall. specialize (Hall (k, v) Hin).
  change (snd (k, v)) with v in Hall.
  destruct (dict_get organisation_legend_mapping v); [discriminate|reflexivity].
Qed.

(** X1. Renaming organisations settles in one step: renaming a renamed cell
    changes nothing, a name that is no key of the mapping is kept as it is,
    and a cell is missing after renaming exactly when it was missing
    before. *)
Theorem replace_settles (cell : option string) :
  replace organisation_legend_mapping (replace organisation_legend_mapping cell) =
    replace organisation_legend_mapping cell /\
  (forall s, cell = Some s -> dict_get organisation_legend_mapping s = None ->
             replace organisation_legend_mapping cell = Some s) /\
  (replace organisation_legend_mapping cell = None <-> cell = None).
Proof.
  unfold replace. split; [|split].
  - destruct cell as [s|]; [|reflexivity].
    destruct (dict_get organisation_legend_mapping s) as [v|] eqn:E.
    + apply dict_get_In, display_names_unmapped in E. rewrite E. reflexivity.
    + rewrite E. reflexivity.
  - intros s -> Hs. rewrite Hs. reflexivity.
  - destruct cell as [s|]; [|tauto].
    destruct (dict_get organisation_legend_mapping s); split; intros Hn; discriminate Hn.
Qed.

Lemma replace_settles_witness :
  replace organisation_legend_mapping (Some "NHS WEST YORKSHIRE ICB - 02T") =
    Some "NHS WEST YORKSHIRE ICB - 02T".
Proof.
  destruct (replace_settles (Some "NHS WEST YORKSHIRE ICB - 02T")) as (_ & Hkeep & _).
  apply Hkeep; reflexivity.
Defined.

(** ** Months *)

Lemma month_number_bounds (names : list string) (i : nat) (s : string) (m : nat) :
  month_number names i s = Some m -> (i <= m < i + List.length names)%nat.
Proof.
  revert i. induction names as [|nm names IH]; simpl; intros i; [discriminate|].
  destruct (String.eqb (lower_string nm) (lower_string s)).
  - intros [= <-]. lia.
  - intros Hm. apply IH in Hm. lia.
Qed.

Lemma two_digit_year_valid (y1 y2 : ascii) (mo : nat) :
  is_digit y1 = true -> is_digit y2 = true -> (1 <= mo <= 12)%nat ->
  valid_month
    (if (10 * digit_val y1 + digit_val y2 <=? 68)%nat
     then (2000 + (10 * digit_val y1 + digit_val y2))%nat
     else (1900 + (10 * digit_val y1 + digit_val y2))%nat, mo).
Proof.
  unfold is_digit, digit_val, valid_month. rewrite !andb_true_iff, !Nat.leb_le.
  intros E1 E2 Hmo.
  destruct (Nat.leb_spec (10 * (nat_of_ascii y1 - 48) + (nat_of_ascii y2 - 48)) 68);
    cbn [fst snd]; lia.
Qed.

Lemma strptime_valid (s : string) (m : Month) : strptime s = Some m -> valid_month m.
Proof.
  unfold strptime.
  destruct s as [|a [|b [|c [|h s]]]]; try discriminate.
  destruct h as [[] [] [] [] [] [] [] []]; try discriminate.
  destruct s as [|y1 [|y2 [|z s]]]; try discriminate.
  destruct (is_digit y1) eqn:E1; destruct (is_digit y2) eqn:E2; try discriminate.
  cbn [andb].
  destruct (month_number month_abbr 1 (String a (String b (String c EmptyString))))
    as [mo|] eqn:Em; [|discriminate].
  intros Hm. apply month_number_bounds in Em. cbn [month_abbr List.length] in Em.
  assert (Heq : m = (if (10 * digit_val y1 + digit_val y2 <=? 68)%nat
                     then (2000 + (10 * digit_val y1 + digit_val y2))%nat
                     else (1900 + (10 * digit_val y1 + digit_val y2))%nat, mo))
    by congruence.
  rewrite Heq. apply two_digit_year_valid; [exact E1|exact E2|lia].
Qed.

Lemma all_months_round_trip :
  forallb (fun m => month_eqb (strptime (strftime m)) (Some m)) all_months = true.
Proof. vm_compute. reflexivity. Qed.

Lemma month_eqb_eq (a b : option Month) : month_eqb a b = true -> a = b.
Proof.
  destruct a as [[y m]|], b as [[y' m']|]; simpl; try discriminate; [|reflexivity].
  rewrite andb_true_iff, !Nat.eqb_eq. intros [-> ->]. reflexivity.
Qed.

Lemma strftime_round_trip (m : Month) : valid_month m -> strptime (strftime m) = Some m.
Proof.
  intros [Hy Hm]. apply month_eqb_eq.
  pose proof all_months_round_trip as Hall. rewrite forallb_forall in Hall.
  apply Hall. unfold all_months. destruct m as [y mo]. cbn [fst snd] in Hy, Hm.
  apply in_prod; apply in_seq; lia.
Qed.

(** X2. A month that parses is a month of the years 1969 to 2068; written
    back with [strftime] it parses to the same month, so two parsed months
    with the same text are the same month. *)
Theorem month_round_trip (s : string) (m : Month) :
  strptime s = Some m ->
  valid_month m /\
  strptime (strftime m) = Some m /\
  (forall s' m', strptime s' = Some m' -> strftime m' = strftime m -> m' = m).
Proof.
  intros Hs. pose proof (strptime_valid s m Hs) as Hv.
  split; [exact Hv|]. split; [apply strftime_round_trip, Hv|].
  intros s' m' Hs' Heq. apply strptime_valid in Hs'.
  apply strftime_round_trip in Hs'. rewrite Heq, (strftime_round_trip m Hv) in Hs'.
  congruence.
Qed.

Lemma month_round_trip_witness :
  valid_month (2024, 1)%nat /\
  strptime (strftime (2024, 1)%nat) = Some (2024, 1)%nat /\
  (forall s' m', strptime s' = Some m' -> strftime m' = strftime (2024, 1)%nat ->
                 m' = (2024, 1)%nat).
Proof. apply (month_round_trip "jan-24" (2024, 1)%nat). reflexivity. Defined.

(** ** The grouping of the local normalizer *)

(** X3. For a local extract of counts, line 63 leaves one row per
    (organisation, month), ordered by organisation and then month.  A key
    has a row exactly when some row that line 59 kept is grouped under it,
    and the row's Numerator and Denominator are the totals of the two
    columns over those rows, a missing cell counting as 0; the totals are
    counts again, so that the sums of pandas are these numbers. *)
Theorem grouped_sums (df : LocalTable) (k : Key) :
  whole_counts df ->
  sorted (grouped df) /\
  NoDup (map fst (grouped df)) /\
  (rows_of_key k df = [] -> lookup k (grouped df) = None) /\
  (rows_of_key k df <> [] ->
   exists N D,
     lookup k (grouped df) = Some (N, D) /\
     N == Qsum (map (fun r => nz (l_num r)) (rows_of_key k df)) /\
     D == Qsum (map (fun r => nz (l_den r)) (rows_of_key k df)) /\
     is_count N /\ is_count D).
Proof.
  intros Hdf. split; [apply groupby_sorted|]. split; [apply groupby_NoDup|].
  pose proof (grouped_lookup df k) as Hl. split.
  - intros E. rewrite E in Hl. exact Hl.
  - intros Hne. destruct (rows_of_key k df) as [|r rs] eqn:E; [contradiction Hne; reflexivity|].
    exists (fold_left add_skipna (map l_num (r :: rs)) 0),
           (fold_left add_skipna (map l_den (r :: rs)) 0).
    split; [exact Hl|].
    split; [rewrite fold_add_skipna, map_map; ring|].
    split; [rewrite fold_add_skipna, map_map; ring|].
    assert (Hin : In (k, (fold_left add_skipna (map l_num (r :: rs)) 0,
                          fold_left add_skipna (map l_den (r :: rs)) 0)) (grouped df))
      by (apply lookup_In; exact Hl).
    pose proof (grouped_counts df Hdf) as Hc. rewrite Forall_forall in Hc.
    exact (Hc _ Hin).
Qed.

Lemma grouped_sums_witness :
  sorted (grouped two_org_table) /\
  NoDup (map fst (grouped two_org_table)) /\
  (rows_of_key ("ORG A", (2024, 1)%nat) two_org_table = [] ->
   lookup ("ORG A", (2024, 1)%nat) (grouped two_org_table) = None) /\
  (rows_of_key ("ORG A", (2024, 1)%nat) two_org_table <> [] ->
   exists N D,
     lookup ("ORG A", (2024, 1)%nat) (grouped two_org_table) = Some (N, D) /\
     N == Qsum (map (fun r => nz (l_num r))
                    (rows_of_key ("ORG A", (2024, 1)%nat) two_org_table)) /\
     D == Qsum (map (fun r => nz (l_den r))
                    (rows_of_key ("ORG A", (2024, 1)%nat) two_org_table)) /\
     is_count N /\ is_count D).
Proof.
  apply (grouped_sums two_org_table ("ORG A", (2024, 1)%nat)). count_cells.
Defined.

(** The rows of the worked extract: the row of the closed practice and the
    row without organisation enter no sum, and the missing Numerator counts
    as 0. *)
Example two_org_table_grouped :
  grouped two_org_table =
    [(("ORG A", (2024, 1)%nat), (10, 140)); (("ORG A", (2024, 2)%nat), (7, 0));
     (("ORG B", (2024, 1)%nat), (20, 100))] /\
  icb (grouped two_org_table) =
    [(("North East and North Cumbria", (2024, 1)%nat), (30, 240));
     (("North East and North Cumbria", (2024, 2)%nat), (7, 0))] /\
  map c_value (c_rows (clean_local two_org_table "Metric 1 (%)")) =
    [Some (float64 (714 # 100)); Some 0; Some 20; Some (25 # 2); Some 0].
Proof. vm_compute. repeat split. Qed.




(** X5. For a local extract of counts, the Numerator and the Denominator of
    the rollup row of a month are the totals of those columns (a missing
    cell counting as 0) over every row of that month that line 59 kept and
    that has an organisation, whatever the organisation; the totals are
    counts again. *)
Theorem icb_totals (df : LocalTable) (m : Month) (nd : Q * Q) :
  whole_counts df ->
  In (("North East and North Cumbria", m), nd) (icb (grouped df)) ->
  fst nd == Qsum (map (fun r => nz (l_num r)) (rows_of_month m df)) /\
  snd nd == Qsum (map (fun r => nz (l_den r)) (rows_of_month m df)) /\
  is_count (fst nd) /\ is_count (snd nd).
Proof.
  intros Hdf Hin.
  pose proof (icb_counts df Hdf) as Hc. rewrite Forall_forall in Hc.
  specialize (Hc _ Hin). cbn [fst snd] in Hc.
  unfold icb in Hin. apply in_map_iff in Hin.
  destruct Hin as ([m' nd'] & Heq & Hin). cbn [fst snd] in Heq.
  injection Heq as Hm Hnd. subst m' nd'.
  destruct (icb_row_totals df m nd Hin) as [HN HD]. tauto.
Qed.

Lemma icb_totals_witness :
  30 == Qsum (map (fun r => nz (l_num r)) (rows_of_month (2024, 1)%nat two_org_table)) /\
  240 == Qsum (map (fun r => nz (l_den r)) (rows_of_month (2024, 1)%nat two_org_table)) /\
  is_count 30 /\ is_count 240.
Proof.
  apply (icb_totals two_org_table (2024, 1)%nat (30, 240)).
  - count_cells.
  - left. reflexivity.
Defined.

(** ** The keys of a cleaned local table *)

Lemma NoDup_map_injective {X Y} (f : X -> Y) (l : list X) :
  (forall a b, f a = f b -> a = b) -> NoDup l -> NoDup (map f l).
Proof.
  intros Hinj. induction l as [|x l IH]; intros Hnd; cbn [map]; [constructor|].
  inversion Hnd as [|? ? Hout Hnd']; subst. constructor; [|apply IH, Hnd'].
  intros Hin. apply in_map_iff in Hin. destruct Hin as (y & Hy & Hin).
  apply Hinj in Hy. subst y. contradiction.
Qed.

Lemma grouped_keys (df : LocalTable) (k : Key) :
  In k (map fst (grouped df)) <->
  exists r, In r (practice_kept df) /\ local_key r = Some k.
Proof.
  unfold grouped. rewrite groupby_keys, dropna_keys_keys. unfold local_keyed.
  rewrite map_map, in_map_iff. cbn [fst]. split.
  - intros (r & Hk & Hin). exists r. split; [exact Hin|exact Hk].
  - intros (r & Hin & Hk). exists r. split; [exact Hk|exact Hin].
Qed.

Lemma local_key_org (r : LocalRow) (k : Key) :
  local_key r = Some k -> replace organisation_legend_mapping (l_org r) = Some (fst k).
Proof.
  unfold local_key, row_key.
  destruct (replace organisation_legend_mapping (l_org r)) as [o|]; [|discriminate].
  destruct (to_datetime (l_month r)); [|discriminate].
  intros [= <-]. reflexivity.
Qed.

Lemma icb_keys (g : list (Key * (Q * Q))) :
  map fst (icb g) = map (fun m => (icb_name, m)) (map fst (month_sums g)).
Proof. unfold icb. rewrite !map_map. reflexivity. Qed.

(** X6. When no row of a local extract is renamed to (or already carries)
    the name of the region, the cleaned local table has no two rows with
    the same organisation and month; and in any case every row of it has an
    organisation, a month and a value. *)
Theorem clean_local_keys_unique (df : LocalTable) (pct_col : string) :
  Forall (fun r => replace organisation_legend_mapping (l_org r) <> Some icb_name)
         (l_rows df) ->
  NoDup (clean_keys (clean_local df pct_col)) /\
  Forall (fun c => c_org c <> None /\ c_month c <> None /\ c_value c <> None)
         (c_rows (clean_local df pct_col)).
Proof.
  intros Hrows. split.
  - unfold clean_keys, clean_local. cbn [c_rows]. rewrite map_map.
    change (fun x : Key * (Q * Q) => (c_org (pct_row x), c_month (pct_row x)))
      with (fun x : Key * (Q * Q) => (Some (fst (fst x)), Some (snd (fst x)))).
    rewrite <- (map_map fst (fun k : Key => (Some (fst k), Some (snd k)))).
    apply NoDup_map_injective.
    + intros [o m] [o' m'] [= -> ->]. reflexivity.
    + unfold with_icb. rewrite map_app. apply NoDup_app.
      * apply groupby_NoDup.
      * rewrite icb_keys. apply NoDup_map_injective.
        -- intros a b [= ->]. reflexivity.
        -- apply groupby_NoDup.
      * intros k Hg Hi. rewrite icb_keys in Hi. apply in_map_iff in Hi.
        destruct Hi as (m & <- & _). apply grouped_keys in Hg.
        destruct Hg as (r & Hin & Hk). apply local_key_org in Hk.
        rewrite Forall_forall in Hrows.
        apply (Hrows r (practice_kept_incl df r Hin)). exact Hk.
  - unfold clean_local. cbn [c_rows]. apply Forall_map, Forall_forall.
    intros r _. cbn [pct_row c_org c_month c_value]. repeat split; discriminate.
Qed.

Lemma clean_local_keys_unique_witness :
  NoDup (clean_keys (clean_local example_local "Screening (%)")) /\
  Forall (fun c => c_org c <> None /\ c_month c <> None /\ c_value c <> None)
         (c_rows (clean_local example_local "Screening (%)")).
Proof.
  apply (clean_local_keys_unique example_local "Screening (%)").
  repeat constructor; discriminate.
Defined.

Lemma NoDup_app_disjoint {X} (l1 l2 : list X) (x : X) :
  NoDup (l1 ++ l2) -> In x l1 -> In x l2 -> False.
Proof.
  induction l1 as [|y l1 IH]; cbn [app]; intros Hnd H1 H2; [destruct H1|].
  inversion Hnd as [|? ? Hout Hnd']; subst. destruct H1 as [->|H1].
  - apply Hout, in_or_app. right. exact H2.
  - exact (IH Hnd' H1 H2).
Qed.

Lemma pct_rows_vals (k : Key) (l : list (Key * (Q * Q))) :
  vals k (dropna_keys (clean_keyed (map pct_row l))) =
  map (fun nd => Some (percentage (fst nd) (snd nd))) (vals k l).
Proof.
  unfold vals, clean_keyed. induction l as [|[[o m] [n d]] l IH]; [reflexivity|].
  cbn [map pct_row c_org c_month c_value row_key fst snd dropna_keys filter].
  destruct (key_eqb k (o, m)); cbn [map snd fst]; rewrite IH; reflexivity.
Qed.

(** X7. When an organisation of a local extract has the name of the region
    for some month, the cleaned table has two rows of that name and month,
    and the merge of the label keeps the first: the organisation's own
    percentage, not the rollup of the region. *)
Theorem region_name_shadows_rollup (df : LocalTable) (pct_col : string) (m : Month)
    (nd : Q * Q) :
  In ((icb_name, m), nd) (grouped df) ->
  In (Some icb_name, Some m) (clean_keys (clean_local df pct_col)) /\
  ~ NoDup (clean_keys (clean_local df pct_col)) /\
  lookup (icb_name, m) (merge_label [clean_local df pct_col]) =
    Some (Some (percentage (fst nd) (snd nd))).
Proof.
  intros Hin.
  assert (Hmonth : In m (map fst (month_sums (grouped df)))).
  { unfold month_sums. apply groupby_keys. rewrite map_map. cbn [fst].
    apply in_map_iff. exists ((icb_name, m), nd). auto. }
  assert (Hkeys : clean_keys (clean_local df pct_col) =
                  (map (fun k : Key => (Some (fst k), Some (snd k))) (map fst (grouped df)) ++
                   map (fun k : Key => (Some (fst k), Some (snd k)))
                       (map fst (icb (grouped df))))%list).
  { unfold clean_keys, clean_local, with_icb. cbn [c_rows].
    rewrite !map_map, map_app. reflexivity. }
  assert (H1 : In (Some icb_name, Some m)
                  (map (fun k : Key => (Some (fst k), Some (snd k))) (map fst (grouped df)))).
  { rewrite map_map. apply in_map_iff. exists ((icb_name, m), nd). auto. }
  assert (H2 : In (Some icb_name, Some m)
                  (map (fun k : Key => (Some (fst k), Some (snd k)))
                       (map fst (icb (grouped df))))).
  { rewrite icb_keys, map_map. apply in_map_iff. exists m. auto. }
  split; [|split].
  - rewrite Hkeys. apply in_or_app. left. exact H1.
  - rewrite Hkeys. intros Hnd. exact (NoDup_app_disjoint _ _ _ Hnd H1 H2).
  - rewrite merge_label_lookup. cbn [map List.concat]. rewrite app_nil_r.
    unfold key_values, clean_local, with_icb. cbn [c_rows].
    rewrite pct_rows_vals, vals_app, map_app.
    apply In_lookup in Hin; [|apply groupby_sorted].
    assert (Hv : In nd (@vals Key (Q * Q) _ (icb_name, m) (grouped df))).
    { apply vals_In, lookup_In. exact Hin. }
    set (vs := @vals Key (Q * Q) _ (icb_name, m) (grouped df)) in *.
    assert (Hu : vs = [] \/ exists v, vs = [v])
      by (apply (vals_unique (icb_name, m) (grouped df)), groupby_NoDup).
    clearbody vs. destruct Hu as [->|[v ->]].
    + destruct Hv.
    + destruct Hv as [->|[]]. reflexivity.
Qed.

Lemma region_name_shadows_rollup_witness :
  In (Some icb_name, Some (2024, 1)%nat)
     (clean_keys (clean_local region_named_table "Screening (%)")) /\
  ~ NoDup (clean_keys (clean_local region_named_table "Screening (%)")) /\
  lookup (icb_name, (2024, 1)%nat) (merge_label [clean_local region_named_table "Screening (%)"]) =
    Some (Some (percentage 10 100)).
Proof.
  apply (region_name_shadows_rollup region_named_table "Screening (%)" (2024, 1)%nat (10, 100)).
  left. reflexivity.
Defined.

(** ** The tables of a label *)

Lemma dict_find_setdefault_append (label l : string) (t : CleanedTable)
    (d : list (string * list CleanedTable)) :
  dict_find label (setdefault_append l t d) =
  if String.eqb l label
  then Some (match dict_find label d with
             | Some ts => ts ++ [t]
             | None => [t]
             end)%list
  else dict_find label d.
Proof.
  induction d as [|[l' ts] d IH]; cbn [setdefault_append dict_find].
  - destruct (String.eqb l label); reflexivity.
  - destruct (String.eqb_spec l' l) as [->|Hne]; cbn [dict_find].
    + destruct (String.eqb l label); reflexivity.
    + rewrite IH. destruct (String.eqb_spec l' label) as [->|Hne'].
      * destruct (String.eqb_spec l label) as [->|_]; [congruence|reflexivity].
      * reflexivity.
Qed.

Lemma dict_find_collect (label : string) (tables : list CleanedTable)
    (d : list (string * list CleanedTable)) :
  dict_find label (collect tables d) =
  match with_label label tables with
  | [] => dict_find label d
  | ts => Some (match dict_find label d with
                | Some ts0 => ts0 ++ ts
                | None => ts
                end)%list
  end.
Proof.
  unfold collect, with_label. revert d.
  induction tables as [|t tables IH]; intros d; cbn [fold_left filter]; [reflexivity|].
  rewrite IH, dict_find_setdefault_append.
  destruct (String.eqb (c_label t) label).
  - destruct (filter (fun t0 => String.eqb (c_label t0) label) tables) as [|t' ts];
      destruct (dict_find label d) as [ts0|]; try reflexivity.
    rewrite <- app_assoc. reflexivity.
  - reflexivity.
Qed.

(** X8. [all_metrics] has each label once, and under a label exactly the
    cleaned tables made with that label, in the order they were made:
    local files in upload order, then national files in upload order.  A
    label no file has is not a key. *)
Theorem all_metrics_by_label (local_files : list (LocalTable * string))
    (national_files : list (list NationalRow * string)) (label : string) :
  NoDup (map fst (all_metrics local_files national_files)) /\
  dict_find label (all_metrics local_files national_files) =
    match with_label label (cleaned_tables local_files national_files) with
    | [] => None
    | ts => Some ts
    end.
Proof.
  split.
  - unfold all_metrics. apply collect_NoDup, collect_NoDup. constructor.
  - unfold all_metrics, cleaned_tables. rewrite !dict_find_collect.
    unfold with_label. rewrite filter_app. cbn [dict_find].
    destruct (filter _ (map (fun fl => clean_local (fst fl) (snd fl)) local_files))
      as [|t ts];
      destruct (filter _ (map (fun fl => clean_national (fst fl) (snd fl)) national_files))
      as [|t' ts']; try reflexivity.
    rewrite app_nil_r. reflexivity.
Qed.

(** ** The cells of the combined table *)

Lemma Forall2_map_l {X Y Z} (R : Y -> Z -> Prop) (f : X -> Y) (l : list X) (l' : list Z) :
  Forall2 R (map f l) l' <-> Forall2 (fun x z => R (f x) z) l l'.
Proof.
  revert l'. induction l as [|x l IH]; intros l'; cbn [map]; split; intros HF.
  - inversion HF. constructor.
  - inversion HF. constructor.
  - inversion HF; subst. constructor; [assumption|]. apply IH. assumption.
  - inversion HF; subst. constructor; [assumption|]. apply IH. assumption.
Qed.

Lemma cell_from_merge_label (k : Key) (label : string) (dfs : list CleanedTable)
    (cell : option Q) :
  cell_from k (label, merge_label dfs) cell ->
  cell = first_valid (List.concat (map (key_values k) dfs)).
Proof.
  unfold cell_from. cbn [snd]. pose proof (merge_label_lookup dfs k) as Hl.
  intros [Hin|[Hout ->]].
  - unfold merge_label in Hin. apply In_lookup in Hin; [|apply groupby_sorted].
    fold (merge_label dfs) in Hin. rewrite Hin in Hl.
    destruct (List.concat (map (key_values k) dfs)); [discriminate|congruence].
  - destruct (lookup k (merge_label dfs)) as [c|] eqn:E.
    + exfalso. apply Hout. apply In_keys_lookup. congruence.
    + destruct (List.concat (map (key_values k) dfs)); [reflexivity|discriminate].
Qed.

(** X9. In every row of the combined table, the cell under a label is the
    first value that is not missing among the rows of that organisation and
    month in the cleaned tables of the label, taken in the order the tables
    were made; it is empty when there is none. *)
Theorem combined_cells (local_files : list (LocalTable * string))
    (national_files : list (list NationalRow * string)) (c : WideTable) :
  combined local_files national_files = Some c ->
  Forall
    (fun row =>
       Forall2
         (fun ld cell =>
            cell = first_valid (List.concat (map (key_values (fst row)) (snd ld))))
         (all_metrics local_files national_files) (snd row))
    (w_rows c).
Proof.
  unfold combined. intros Hc.
  assert (Hinv : join_inv (merged_dfs (all_metrics local_files national_files)) c).
  { destruct (merged_dfs (all_metrics local_files national_files)) as [|[label m] rest];
      [discriminate|].
    injection Hc as <-. apply (join_inv_fold rest [(label, m)]), join_inv_first. }
  destruct Hinv as (_ & _ & Hcells). eapply Forall_impl; [|exact Hcells].
  intros [k cells] HF. cbn [fst snd] in *. unfold merged_dfs in HF.
  apply (proj1 (Forall2_map_l (cell_from k)
                  (fun ld : string * list CleanedTable => (fst ld, merge_label (snd ld)))
                  _ _)) in HF.
  eapply Forall2_impl; [|exact HF].
  intros [label dfs] cell Hcell. cbn [fst snd] in *.
  apply (cell_from_merge_label k label dfs cell Hcell).
Qed.

Lemma combined_cells_witness :
  Forall
    (fun row =>
       Forall2
         (fun ld cell =>
            cell = first_valid (List.concat (map (key_values (fst row)) (snd ld))))
         (all_metrics [(example_local, "Screening (%)")] [(example_national, "Screening (%)")])
         (snd row))
    [(("England", (2024, 1)%nat), [Some (85 # 2)]);
     (("North East and North Cumbria", (2024, 1)%nat), [Some 50]);
     (("North East and North Cumbria", (2024, 2)%nat), [Some 50]);
     (("ORG A", (2024, 1)%nat), [Some 50]);
     (("ORG A", (2024, 2)%nat), [Some 50])].
Proof.
  apply (combined_cells [(example_local, "Screening (%)")]
                        [(example_national, "Screening (%)")]
                        {| w_cols := ["Screening (%)"];
                           w_rows := [(("England", (2024, 1)%nat), [Some (85 # 2)]);
                                      (("North East and North Cumbria", (2024, 1)%nat), [Some 50]);
                                      (("North East and North Cumbria", (2024, 2)%nat), [Some 50]);
                                      (("ORG A", (2024, 1)%nat), [Some 50]);
                                      (("ORG A", (2024, 2)%nat), [Some 50])] |}).
  reflexivity.
Defined.

(** ** The sorted table *)

Lemma not_gt_trans {K} `{OrdLaws K} (a b c : K) :
  cmp a b <> Gt -> cmp b c <> Gt -> cmp a c <> Gt.
Proof.
  intros Hab Hbc.
  destruct (cmp a b) eqn:Eab; [| |congruence].
  - apply cmp_eq in Eab. subst b. exact Hbc.
  - destruct (cmp b c) eqn:Ebc; [| |congruence].
    + apply cmp_eq in Ebc. subst c. congruence.
    + rewrite (cmp_trans a b c Eab Ebc). discriminate.
Qed.

Lemma insert_row_ordered (r : Key * list (option Q)) (l : list (Key * list (option Q))) :
  rows_ordered l -> rows_ordered (insert_row r l).
Proof.
  induction l as [|r' l IH]; cbn [insert_row rows_ordered]; intros Hl.
  - split; [constructor|exact I].
  - destruct Hl as [Hall Hl].
    assert (Hcase : cmp (sort_key r) (sort_key r') = Lt \/
                    cmp (sort_key r) (sort_key r') <> Lt) by
      (destruct (cmp (sort_key r) (sort_key r')); auto; right; discriminate).
    destruct Hcase as [Elt|Enlt].
    + rewrite Elt. cbn [rows_ordered]. split; [|split; assumption].
      constructor; [rewrite Elt; discriminate|].
      eapply Forall_impl; [|exact Hall]. intros x Hx.
      apply (not_gt_trans _ (sort_key r')); [rewrite Elt; discriminate|exact Hx].
    + replace (match cmp (sort_key r) (sort_key r') with
               | Lt => r :: r' :: l
               | _ => r' :: insert_row r l
               end) with (r' :: insert_row r l)
        by (destruct (cmp (sort_key r) (sort_key r')); congruence).
      cbn [rows_ordered]. split; [|apply IH, Hl].
      apply Forall_forall. intros x Hx.
      apply (Permutation_in _ (insert_row_perm r l)) in Hx. destruct Hx as [<-|Hx].
      * rewrite (cmp_antisym (sort_key r) (sort_key r')).
        destruct (cmp (sort_key r) (sort_key r')); cbn [CompOpp]; congruence.
      * rewrite Forall_forall in Hall. apply Hall, Hx.
Qed.

(** X10. Line 107 keeps the rows and the columns of the combined table and
    puts the rows in ascending order of month, then organisation. *)
Theorem sort_values_ordered (c : WideTable) :
  rows_ordered (w_rows (sort_values c)) /\
  Permutation (w_rows (sort_values c)) (w_rows c) /\
  w_cols (sort_values c) = w_cols c.
Proof.
  split; [|split; [apply sort_values_perm|reflexivity]].
  unfold sort_values. cbn [w_rows].
  assert (H0 : rows_ordered []) by exact I.
  revert H0. generalize (@nil (Key * list (option Q))).
  induction (w_rows c) as [|r rows IH]; intros acc Hacc; cbn [fold_left]; [exact Hacc|].
  apply IH, insert_row_ordered, Hacc.
Qed.

(** ** The shape and the cells of a sheet *)

Lemma sorted_ascending {K A} `{OrdLaws K} (l : list (K * A)) :
  sorted l -> ascending (map fst l).
Proof.
  induction l as [|[k a] l IH]; cbn [sorted map ascending fst]; [auto|].
  intros [Hb Hs]. split; [|apply IH, Hs].
  unfold below in Hb. apply Forall_map. exact Hb.
Qed.

Lemma sorted_distinct_ascending {K} `{OrdLaws K} (ks : list K) :
  ascending (sorted_distinct ks).
Proof. unfold sorted_distinct. apply sorted_ascending, groupby_sorted. Qed.

Lemma dropna_means_sorted (l : list ((Month * string) * (Q * nat))) :
  sorted l -> sorted (dropna_means l).
Proof.
  induction l as [|[k a] l IH]; cbn [sorted dropna_means]; [auto|].
  intros [Hb Hs]. destruct (mean_of a); [|apply IH, Hs].
  cbn [sorted]. split; [apply dropna_means_below, Hb|apply IH, Hs].
Qed.

Lemma agged_sorted (j : nat) (rows : list (Key * list (option Q))) : sorted (agged j rows).
Proof. unfold agged. apply dropna_means_sorted, groupby_sorted. Qed.

Lemma fold_mean_step_count (vs : list (option Q)) (a : Q * nat) :
  snd (fold_left mean_step vs a) = (snd a + count_valid vs)%nat.
Proof.
  unfold count_valid. revert a.
  induction vs as [|[x|] vs IH]; intros a; cbn [fold_left filter List.length].
  - lia.
  - rewrite IH. cbn [mean_step snd]. lia.
  - rewrite IH. reflexivity.
Qed.

Lemma count_valid_pos (vs : list (option Q)) :
  (0 < count_valid vs)%nat <-> exists v, In v vs /\ v <> None.
Proof.
  unfold count_valid. induction vs as [|[x|] vs IH]; cbn [filter List.length In].
  - split; [lia|]. intros (v & [] & _).
  - split; [|lia]. intros _. exists (Some x). split; [auto|discriminate].
  - rewrite IH. split.
    + intros (v & Hin & Hv). exists v. auto.
    + intros (v & [<-|Hin] & Hv); [congruence|]. exists v. auto.
Qed.

Lemma mean_of_some (a : Q * nat) : mean_of a <> None <-> (0 < snd a)%nat.
Proof.
  unfold mean_of. destruct (snd a); split; intros Hx; try lia; try congruence.
Qed.

Lemma metric_column_In (j : nat) (rows : list (Key * list (option Q)))
    (o : string) (m : Month) (v : option Q) :
  In v (vals (m, o) (metric_column j rows)) <->
  exists cells, In ((o, m), cells) rows /\ nth j cells None = v.
Proof.
  rewrite vals_In. unfold metric_column. rewrite in_map_iff. split.
  - intros ([[o' m'] cells] & Heq & Hin). cbn [fst snd] in Heq.
    injection Heq as -> -> <-. exists cells. auto.
  - intros (cells & Hin & <-). exists ((o, m), cells). auto.
Qed.

(** What the aggregation of the pivot holds for a month and an organisation:
    a mean exactly when some row of them has a value in the column. *)
Lemma agged_some (j : nat) (rows : list (Key * list (option Q))) (o : string) (m : Month) :
  lookup (m, o) (agged j rows) <> None <-> has_value j rows o m.
Proof.
  unfold agged, has_value.
  rewrite dropna_means_lookup by apply groupby_sorted. rewrite lookup_groupby.
  pose proof (metric_column_In j rows o m) as Hin.
  destruct (vals (m, o) (metric_column j rows)) as [|v vs] eqn:E.
  - cbn [fold_group]. split; [congruence|].
    intros (cells & Hc & Hv). destruct (proj2 (Hin (nth j cells None))).
    exists cells. auto.
  - replace (fold_group (0, 0%nat) mean_step None (v :: vs))
      with (Some (fold_left mean_step (v :: vs) (0, 0%nat))) by reflexivity.
    rewrite mean_of_some, fold_mean_step_count. cbn [snd]. rewrite Nat.add_0_l.
    rewrite count_valid_pos. split.
    + intros (x & Hx & Hne). apply Hin in Hx. destruct Hx as (cells & Hc & <-).
      exists cells. auto.
    + intros (cells & Hc & Hv). exists (nth j cells None). split; [|exact Hv].
      apply Hin. exists cells. auto.
Qed.

Lemma lookup_map_index_none {K X} `{OrdLaws K} (g : K -> X) (ks : list K) (k : K) :
  ~ In k ks -> lookup k (map (fun x => (x, g x)) ks) = None.
Proof.
  induction ks as [|k' ks IH]; cbn [map lookup In]; [reflexivity|]. intros Hout.
  destruct (key_eqb_spec k k') as [->|Hne]; [exfalso; auto|]. apply IH. auto.
Qed.

Lemma index_of_some {X} (g : string -> X) (d : X) (l : list string) (o : string) (i : nat) :
  index_of o l = Some i -> nth i (map g l) d = g o.
Proof.
  revert i. induction l as [|x l IH]; cbn [index_of map]; intros i; [discriminate|].
  destruct (String.eqb_spec o x) as [->|Hne].
  - intros [= <-]. reflexivity.
  - destruct (index_of o l) as [i'|]; [|discriminate].
    intros [= <-]. cbn [nth]. apply IH. reflexivity.
Qed.

Lemma index_of_none (l : list string) (o : string) : index_of o l = None -> ~ In o l.
Proof.
  induction l as [|x l IH]; cbn [index_of In]; [auto|].
  destruct (String.eqb_spec o x) as [->|Hne]; [discriminate|].
  destruct (index_of o l); [discriminate|]. intros _ [Heq|Hin]; [congruence|].
  apply IH; auto.
Qed.

(** The cell of a sheet is the mean the aggregation holds, for every month
    and organisation. *)
Lemma pivot_cell_agged (j : nat) (rows : list (Key * list (option Q)))
    (o : string) (m : Month) :
  pivot_cell (pivot_table j rows) m o = lookup (m, o) (agged j rows).
Proof.
  unfold pivot_cell, pivot_table. cbn [pv_rows pv_orgs].
  set (a := agged j rows).
  set (orgs := sorted_distinct (map (fun r : Month * string * Q => snd (fst r)) a)).
  set (months := sorted_distinct (map (fun r : Month * string * Q => fst (fst r)) a)).
  assert (Hkeys : forall x, lookup (m, o) a = Some x -> In m months /\ In o orgs).
  { intros x Hx. apply lookup_In in Hx. split; apply sorted_distinct_In, in_map_iff;
      exists ((m, o), x); auto. }
  destruct (in_dec (fun x y => reflect_dec _ _ (key_eqb_spec x y)) m months) as [Hm|Hm].
  - rewrite (lookup_map_index (fun m => map (fun o => lookup (m, o) a) orgs) months m Hm).
    destruct (index_of o orgs) as [i|] eqn:Ei.
    + apply (index_of_some (fun o => lookup (m, o) a) None orgs o i Ei).
    + apply index_of_none in Ei. destruct (lookup (m, o) a) as [x|] eqn:E; [|reflexivity].
      exfalso. apply Ei, (Hkeys x eq_refl).
  - rewrite (lookup_map_index_none (fun m => map (fun o => lookup (m, o) a) orgs) months m Hm).
    destruct (lookup (m, o) a) as [x|] eqn:E; [|reflexivity].
    exfalso. apply Hm, (Hkeys x eq_refl).
Qed.

Lemma pivot_month_has_value (j : nat) (rows : list (Key * list (option Q))) (m : Month) :
  In m (map fst (pv_rows (pivot_table j rows))) <-> exists o', has_value j rows o' m.
Proof.
  unfold pivot_table. cbn [pv_rows]. rewrite map_map. cbn [fst].
  rewrite map_id, sorted_distinct_In, in_map_iff. split.
  - intros ([[m' o'] x] & Heq & Hin). cbn [fst snd] in Heq. subst m'.
    exists o'. apply agged_some. apply In_lookup in Hin; [|apply agged_sorted].
    congruence.
  - intros (o' & Hv). apply agged_some in Hv.
    destruct (lookup (m, o') (agged j rows)) as [x|] eqn:E; [|congruence].
    exists ((m, o'), x). split; [reflexivity|apply lookup_In, E].
Qed.

(** X11. A sheet has its months in strictly ascending order down the rows
    and its organisations in strictly ascending order across the columns,
    and every row has one cell per organisation. *)
Theorem pivot_table_shape (j : nat) (rows : list (Key * list (option Q))) :
  ascending (map fst (pv_rows (pivot_table j rows))) /\
  ascending (pv_orgs (pivot_table j rows)) /\
  Forall (fun r => List.length (snd r) = List.length (pv_orgs (pivot_table j rows)))
         (pv_rows (pivot_table j rows)).
Proof.
  unfold pivot_table. cbn [pv_rows pv_orgs]. split; [|split].
  - rewrite map_map. cbn [fst]. rewrite map_id. apply sorted_distinct_ascending.
  - apply sorted_distinct_ascending.
  - apply Forall_map, Forall_forall. intros m _. cbn [snd]. apply length_map.
Qed.

(** X12. A cell of a sheet is filled exactly when some row of the table has
    a value in the sheet's column for that organisation and month.  A month
    is a row of the sheet exactly when it has a value for some
    organisation, and an organisation is a column exactly when it has a
    value for some month: a month or an organisation without any value of
    the metric is left out of the sheet. *)
Theorem pivot_table_cells (j : nat) (rows : list (Key * list (option Q)))
    (o : string) (m : Month) :
  (pivot_cell (pivot_table j rows) m o <> None <-> has_value j rows o m) /\
  (In m (map fst (pv_rows (pivot_table j rows))) <-> exists o', has_value j rows o' m) /\
  (In o (pv_orgs (pivot_table j rows)) <-> exists m', has_value j rows o m').
Proof.
  split; [rewrite pivot_cell_agged; apply agged_some|].
  split; [apply pivot_month_has_value|].
  unfold pivot_table. cbn [pv_orgs]. rewrite sorted_distinct_In, in_map_iff. split.
  - intros ([[m' o'] x] & Heq & Hin). cbn [fst snd] in Heq. subst o'.
    exists m'. apply agged_some. apply In_lookup in Hin; [|apply agged_sorted].
    congruence.
  - intros (m' & Hv). apply agged_some in Hv.
    destruct (lookup (m', o) (agged j rows)) as [x|] eqn:E; [|congruence].
    exists ((m', o), x). split; [reflexivity|apply lookup_In, E].
Qed.

(** ** The workbook without colliding names *)

Lemma export_fresh (pv : list (string * PivotSheet)) (wb : Workbook) :
  NoDup (map fst wb ++ map (fun sp => truncate31 (fst sp)) pv) ->
  fold_left (fun wb sp => write_titled (truncate31 (fst sp)) (to_excel_cells (snd sp)) wb)
            pv wb = (wb ++ map written pv)%list.
Proof.
  revert wb. induction pv as [|[label p] pv IH]; intros wb Hnd; cbn [fold_left map].
  - symmetry. apply app_nil_r.
  - cbn [map fst] in Hnd. rewrite write_titled_fresh.
    + rewrite IH.
      * rewrite <- app_assoc. reflexivity.
      * rewrite map_app. cbn [map fst]. rewrite <- app_assoc. exact Hnd.
    + apply NoDup_remove_2 in Hnd. intros Hin. apply Hnd, in_or_app. auto.
Qed.

(** X13. When openpyxl takes the titles as they are and no two labels have
    the same first 31 characters, the workbook has one worksheet per label,
    in the order of the labels, and each worksheet is exactly the sheet of
    its label. *)
Theorem export_distinct_names (pv : list (string * PivotSheet)) :
  titles_taken (map (fun sp => truncate31 (fst sp)) pv) = true ->
  NoDup (map (fun sp => truncate31 (fst sp)) pv) ->
  export pv = Some (map written pv).
Proof.
  intros Htaken Hnd. rewrite (export_taken pv Htaken). f_equal.
  unfold export_titled. rewrite export_fresh; [reflexivity|exact Hnd].
Qed.

Lemma export_distinct_names_witness :
  export [("Screening (%)", sheet_all); ("Asthma reviews (%)", sheet_75)] =
    Some (map written [("Screening (%)", sheet_all); ("Asthma reviews (%)", sheet_75)]).
Proof.
  apply (export_distinct_names [("Screening (%)", sheet_all); ("Asthma reviews (%)", sheet_75)]).
  - reflexivity.
  - repeat constructor; cbn; intuition discriminate.
Defined.

Lemma substring_length (n : nat) (s : string) : (String.length (substring 0 n s) <= n)%nat.
Proof.
  revert s. induction n as [|n IH]; intros [|c s]; cbn [substring String.length]; try lia.
  specialize (IH s). lia.
Qed.

Lemma write_titled_length (n : string) (cells : Grid) (wb : Workbook) :
  (List.length (write_titled n cells wb) <= S (List.length wb))%nat.
Proof.
  induction wb as [|[n' g] wb IH]; cbn [write_titled List.length]; [lia|].
  destruct (String.eqb n' n); cbn [List.length]; lia.
Qed.

(** X14. When openpyxl takes the titles as they are, no worksheet title is
    longer than 31 characters, and the workbook has no more worksheets than
    there are sheets to write. *)
Theorem export_bounds (pv : list (string * PivotSheet)) :
  titles_taken (map (fun sp => truncate31 (fst sp)) pv) = true ->
  exists wb,
    export pv = Some wb /\
    Forall (fun name => is_ascii name = true /\ (String.length name <= 31)%nat)
           (sheetnames wb) /\
    (List.length wb <= List.length pv)%nat.
Proof.
  intros Htaken. exists (export_titled pv).
  split; [apply export_taken, Htaken|]. split.
  - apply Forall_forall. intros name Hin. apply export_names in Hin. split.
    + apply (titles_taken_spec _ Htaken name Hin).
    + apply in_map_iff in Hin. destruct Hin as (sp & <- & _). apply substring_length.
  - unfold export_titled.
    assert (Hgen : forall wb,
               (List.length
                  (fold_left (fun wb sp => write_titled (truncate31 (fst sp))
                                             (to_excel_cells (snd sp)) wb) pv wb)
                <= List.length wb + List.length pv)%nat).
    { clear Htaken.
      induction pv as [|sp pv IH]; intros wb; cbn [fold_left List.length]; [lia|].
      specialize (IH (write_titled (truncate31 (fst sp)) (to_excel_cells (snd sp)) wb)).
      pose proof (write_titled_length (truncate31 (fst sp)) (to_excel_cells (snd sp)) wb).
      lia. }
    apply (Hgen []).
Qed.

Lemma export_bounds_witness :
  exists wb,
    export [(label_all, sheet_all); (label_75, sheet_75)] = Some wb /\
    Forall (fun name => is_ascii name = true /\ (String.length name <= 31)%nat)
           (sheetnames wb) /\
    (List.length wb <= 2)%nat.
Proof.
  apply (export_bounds [(label_all, sheet_all); (label_75, sheet_75)]). reflexivity.
Defined.

(** A title that openpyxl does not take as it is can end longer: the second
    of two titles of 31 characters that differ in case only gets a counter
    and has 32 characters. *)
Example retitled_sheet_is_longer :
  option_map (map String.length)
    (option_map sheetnames
       (export [("Patients on 10 or more medicines (%)", sheet_all);
                ("PATIENTS ON 10 OR MORE MEDICINES (%)", sheet_75)])) =
    Some [31; 32]%nat.
Proof. vm_compute. reflexivity. Qed.

(** ** The default labels *)

Lemma string_length_append (a b : string) :
  String.length (a ++ b) = (String.length a + String.length b)%nat.
Proof. induction a as [|c a IH]; cbn [append String.length]; [reflexivity|]. rewrite IH. reflexivity. Qed.

Lemma append_cancel_r (a b s : string) : a ++ s = b ++ s -> a = b.
Proof.
  revert b. induction a as [|c a IH]; intros [|c' b] Heq; cbn [append] in Heq.
  - reflexivity.
  - apply (f_equal String.length) in Heq. cbn [String.length] in Heq.
    rewrite string_length_append in Heq. lia.
  - apply (f_equal String.length) in Heq. cbn [String.length] in Heq.
    rewrite string_length_append in Heq. lia.
  - injection Heq as -> Heq. f_equal. apply IH, Heq.
Qed.

Lemma default_label_inj (i j : nat) : default_label i = default_label j -> i = j.
Proof.
  unfold default_label. intros Heq.
  assert (Hs : NilEmpty.string_of_uint (Nat.to_uint (i + 1)) ++ " (%)" =
               NilEmpty.string_of_uint (Nat.to_uint (j + 1)) ++ " (%)").
  { cbn [append] in Heq. injection Heq as Heq. exact Heq. }
  apply append_cancel_r in Hs.
  assert (Hu : Some (Nat.to_uint (i + 1)) = Some (Nat.to_uint (j + 1))).
  { rewrite <- !NilEmpty.usu. rewrite Hs. reflexivity. }
  injection Hu as Hu. apply Unsigned.to_uint_inj in Hu. lia.
Qed.

Lemma combine_fst {X Y} (l : list X) (l' : list Y) :
  List.length l = List.length l' -> map (fun x => fst x) (combine l l') = l.
Proof.
  revert l'. induction l as [|x l IH]; intros [|y l'] Hl; cbn [combine map fst];
    try reflexivity; try discriminate.
  rewrite IH; [reflexivity|]. cbn [List.length] in Hl. lia.
Qed.

Lemma combine_snd {X Y} (l : list X) (l' : list Y) :
  List.length l = List.length l' -> map snd (combine l l') = l'.
Proof.
  revert l'. induction l as [|x l IH]; intros [|y l'] Hl; cbn [combine map snd];
    try reflexivity; try discriminate.
  rewrite IH; [reflexivity|]. cbn [List.length] in Hl. lia.
Qed.

Lemma with_labels_untouched {X} (files : list X) (i : nat) :
  with_labels i (untouched files) =
  map (fun fk => (fst fk, default_label (snd fk))) (combine files (seq i (List.length files))).
Proof.
  unfold untouched. revert i. induction files as [|f files IH]; intros i; [reflexivity|].
  cbn [map with_labels text_input List.length seq combine fst snd].
  rewrite IH. reflexivity.
Qed.

(** X15. Files whose label boxes are left as they are keep their order and
    get the labels "Metric 1 (%)", "Metric 2 (%)", ... by position; the
    labels of different positions differ, so no two files of one kind share
    a default label. *)
Theorem default_labels_distinct {X} (files : list X) :
  map fst (with_labels 0 (untouched files)) = files /\
  map snd (with_labels 0 (untouched files)) =
    map default_label (seq 0 (List.length files)) /\
  NoDup (map snd (with_labels 0 (untouched files))) /\
  default_label 0 = "Metric 1 (%)" /\
  (forall i j, default_label i = default_label j -> i = j).
Proof.
  rewrite with_labels_untouched, !map_map. cbn [fst snd].
  assert (Hlen : List.length files = List.length (seq 0 (List.length files)))
    by (symmetry; apply length_seq).
  assert (Hfst : map (fun x => fst x) (combine files (seq 0 (List.length files))) = files)
    by (apply combine_fst, Hlen).
  assert (Hsnd : map (fun x => default_label (snd x)) (combine files (seq 0 (List.length files)))
                 = map default_label (seq 0 (List.length files))).
  { rewrite <- (map_map snd default_label). rewrite combine_snd by exact Hlen. reflexivity. }
  split; [exact Hfst|]. split; [exact Hsnd|]. split; [|split].
  - rewrite Hsnd. apply NoDup_map_injective; [apply default_label_inj|apply seq_NoDup].
  - reflexivity.
  - apply default_label_inj.
Qed.

(** ** The month texts of a sheet *)

Lemma to_datetime_valid (cell : option string) (m : Month) :
  to_datetime cell = Some m -> valid_month m.
Proof. destruct cell as [s|]; cbn [to_datetime]; [apply strptime_valid|discriminate]. Qed.

Lemma local_key_month (r : LocalRow) (k : Key) :
  local_key r = Some k -> valid_month (snd k).
Proof.
  unfold local_key, row_key.
  destruct (replace organisation_legend_mapping (l_org r)) as [o|]; [|discriminate].
  destruct (to_datetime (l_month r)) as [m|] eqn:E; [|discriminate].
  intros [= <-]. apply (to_datetime_valid _ _ E).
Qed.

Lemma grouped_months_valid (df : LocalTable) (k : Key) :
  In k (map fst (grouped df)) -> valid_month (snd k).
Proof.
  intros Hin. apply grouped_keys in Hin. destruct Hin as (r & _ & Hk).
  apply (local_key_month r k Hk).
Qed.

Lemma clean_local_months_valid (df : LocalTable) (pct_col : string) (c : CleanRow) (m : Month) :
  In c (c_rows (clean_local df pct_col)) -> c_month c = Some m -> valid_month m.
Proof.
  unfold clean_local, with_icb. cbn [c_rows]. intros Hin Hm.
  apply in_map_iff in Hin. destruct Hin as ([k nd] & <- & Hin).
  cbn [pct_row c_month fst snd] in Hm. injection Hm as <-.
  apply in_app_or in Hin. destruct Hin as [Hin|Hin].
  - apply (grouped_months_valid df k). apply in_map_iff. exists (k, nd). auto.
  - unfold icb in Hin. apply in_map_iff in Hin. destruct Hin as ([m' nd'] & Heq & Hin).
    cbn [fst snd] in Heq. injection Heq as <- _. cbn [snd].
    assert (Hk : In m' (map fst (month_sums (grouped df))))
      by (apply in_map_iff; exists (m', nd'); auto).
    unfold month_sums in Hk. apply groupby_keys in Hk. rewrite map_map in Hk.
    cbn [fst] in Hk. apply in_map_iff in Hk. destruct Hk as ([k' nd''] & <- & Hk).
    apply (grouped_months_valid df k'). apply in_map_iff. exists (k', nd''). auto.
Qed.

Lemma cleaned_tables_months_valid (local_files : list (LocalTable * string))
    (national_files : list (list NationalRow * string)) (t : CleanedTable) (c : CleanRow)
    (m : Month) :
  In t (cleaned_tables local_files national_files) -> In c (c_rows t) ->
  c_month c = Some m -> valid_month m.
Proof.
  unfold cleaned_tables. intros Ht Hc Hm. apply in_app_or in Ht.
  destruct Ht as [Ht|Ht]; apply in_map_iff in Ht; destruct Ht as ([df l] & <- & _).
  - apply (clean_local_months_valid df l c m Hc Hm).
  - cbn [fst snd clean_national c_rows] in Hc. apply in_map_iff in Hc.
    destruct Hc as (r & <- & _). cbn [national_row c_month] in Hm.
    apply (to_datetime_valid _ _ Hm).
Qed.

Lemma dict_find_In {X} (k : string) (x : X) (d : list (string * X)) :
  NoDup (map fst d) -> In (k, x) d -> dict_find k d = Some x.
Proof.
  induction d as [|[k' x'] d IH]; cbn [map fst In dict_find]; [intros _ []|].
  intros Hnd [Heq|Hin]; inversion Hnd as [|? ? Hout Hnd']; subst.
  - injection Heq as -> ->. rewrite String.eqb_refl. reflexivity.
  - destruct (String.eqb_spec k' k) as [->|_]; [|apply IH; assumption].
    exfalso. apply Hout. apply in_map_iff. exists (k, x). auto.
Qed.

Lemma all_metrics_tables (local_files : list (LocalTable * string))
    (national_files : list (list NationalRow * string)) (label : string)
    (ts : list CleanedTable) (t : CleanedTable) :
  In (label, ts) (all_metrics local_files national_files) -> In t ts ->
  In t (cleaned_tables local_files national_files).
Proof.
  intros Hin Ht.
  assert (Hnd : NoDup (map fst (all_metrics local_files national_files)))
    by (unfold all_metrics; apply collect_NoDup, collect_NoDup; constructor).
  apply (dict_find_In label ts _ Hnd) in Hin.
  unfold all_metrics in Hin. rewrite !dict_find_collect in Hin. cbn [dict_find] in Hin.
  unfold cleaned_tables. apply in_or_app.
  destruct (with_label label (map (fun fl => clean_national (fst fl) (snd fl)) national_files))
    as [|t1 ts1] eqn:En;
    destruct (with_label label (map (fun fl => clean_local (fst fl) (snd fl)) local_files))
    as [|t2 ts2] eqn:El; try discriminate; injection Hin as <-.
  - left. rewrite <- El in Ht. apply filter_In in Ht. tauto.
  - right. rewrite <- En in Ht. apply filter_In in Ht. tauto.
  - change (In t ((t2 :: ts2) ++ t1 :: ts1)) in Ht.
    apply in_app_or in Ht. destruct Ht as [Ht|Ht].
    + left. rewrite <- El in Ht. apply filter_In in Ht. tauto.
    + right. rewrite <- En in Ht. apply filter_In in Ht. tauto.
Qed.

(** Every month of the combined table is a month [strptime] gave. *)
Lemma combined_months_valid (local_files : list (LocalTable * string))
    (national_files : list (list NationalRow * string)) (c : WideTable) (k : Key) :
  combined local_files national_files = Some c ->
  In k (map fst (w_rows c)) -> valid_month (snd k).
Proof.
  unfold combined. intros Hc Hk.
  assert (Hinv : join_inv (merged_dfs (all_metrics local_files national_files)) c).
  { destruct (merged_dfs (all_metrics local_files national_files)) as [|[label m] rest];
      [discriminate|].
    injection Hc as <-. apply (join_inv_fold rest [(label, m)]), join_inv_first. }
  destruct Hinv as (_ & Hkeys & _). apply Hkeys in Hk. destruct Hk as ([label m] & Ht & Hk).
  unfold merged_dfs in Ht. apply in_map_iff in Ht. destruct Ht as ([label' ts] & Heq & Ht).
  cbn [fst snd] in Heq. injection Heq as -> <-. cbn [snd] in Hk.
  apply merge_label_keys in Hk. destruct Hk as (row & Hrow & Hkey).
  apply in_concat in Hrow. destruct Hrow as (rows & Hrows & Hrow).
  apply in_map_iff in Hrows. destruct Hrows as (t & <- & Hts).
  pose proof (all_metrics_tables _ _ _ _ t Ht Hts) as Hclean.
  unfold row_key in Hkey. destruct (c_org row); [|discriminate].
  destruct (c_month row) as [mo|] eqn:Em; [|discriminate]. injection Hkey as <-.
  apply (cleaned_tables_months_valid _ _ t row mo Hclean Hrow Em).
Qed.

Lemma NoDup_map_injective_on {X Y} (f : X -> Y) (P : X -> Prop) (l : list X) :
  (forall a b, P a -> P b -> f a = f b -> a = b) -> Forall P l -> NoDup l -> NoDup (map f l).
Proof.
  intros Hinj. induction l as [|x l IH]; intros HP Hnd; cbn [map]; [constructor|].
  inversion Hnd as [|? ? Hout Hnd']; subst. inversion HP as [|? ? Hx HP']; subst.
  constructor; [|apply IH; assumption].
  intros Hin. apply in_map_iff in Hin. destruct Hin as (y & Hy & Hin).
  rewrite Forall_forall in HP'. apply Hinj in Hy; [|apply HP', Hin|exact Hx].
  subst y. contradiction.
Qed.

(** X16. In every sheet of a run the Month column reads back: the text of
    each row parses to the month of the row, and no two rows of a sheet
    have the same text. *)
Theorem sheet_month_texts (local_files : list (LocalTable * string))
    (national_files : list (list NationalRow * string)) (c : WideTable) :
  combined local_files national_files = Some c ->
  Forall
    (fun lp =>
       Forall (fun r => strptime (strftime (fst r)) = Some (fst r)) (pv_rows (snd lp)) /\
       NoDup (map (fun r => strftime (fst r)) (pv_rows (snd lp))))
    (pivots (sort_values c)).
Proof.
  intros Hc. eapply Forall_impl; [|apply (pivots_columns (sort_values c))].
  intros [label p] (j & _ & Hp). cbn [fst snd] in *. subst p.
  assert (Hvalid : Forall (fun r : Month * list (option Q) => valid_month (fst r))
                          (pv_rows (pivot_table j (w_rows (sort_values c))))).
  { apply Forall_forall. intros [m cells] Hin.
    assert (Hm : In m (map fst (pv_rows (pivot_table j (w_rows (sort_values c))))))
      by (apply in_map_iff; exists (m, cells); auto).
    apply pivot_month_has_value in Hm.
    destruct Hm as (o & cells' & Hrow & _).
    apply (Permutation_in _ (sort_values_perm c)) in Hrow. cbn [fst].
    apply (combined_months_valid local_files national_files c (o, m) Hc).
    apply in_map_iff. exists ((o, m), cells'). auto. }
  split.
  - eapply Forall_impl; [|exact Hvalid]. intros r Hr. apply strftime_round_trip, Hr.
  - rewrite <- (map_map fst strftime).
    apply (NoDup_map_injective_on strftime valid_month).
    + intros a b Ha Hb Heq. apply strftime_round_trip in Ha, Hb. congruence.
    + apply Forall_map. exact Hvalid.
    + unfold pivot_table. cbn [pv_rows]. rewrite map_map. cbn [fst]. rewrite map_id.
      apply sorted_distinct_NoDup.
Qed.

Lemma sheet_month_texts_witness :
  Forall
    (fun lp =>
       Forall (fun r => strptime (strftime (fst r)) = Some (fst r)) (pv_rows (snd lp)) /\
       NoDup (map (fun r => strftime (fst r)) (pv_rows (snd lp))))
    [("Screening (%)",
      {| pv_orgs := ["England"; "North East and North Cumbria"; "ORG A"];
         pv_rows := [((2024, 1)%nat, [Some (85 # 2); Some 50; Some 50]);
                     ((2024, 2)%nat, [None; Some 50; Some 50])] |})].
Proof.
  apply (sheet_month_texts [(example_local, "Screening (%)")]
                           [(example_national, "Screening (%)")]
                           {| w_cols := ["Screening (%)"];
                              w_rows := [(("England", (2024, 1)%nat), [Some (85 # 2)]);
                                         (("North East and North Cumbria", (2024, 1)%nat), [Some 50]);
                                         (("North East and North Cumbria", (2024, 2)%nat), [Some 50]);
                                         (("ORG A", (2024, 1)%nat), [Some 50]);
                                         (("ORG A", (2024, 2)%nat), [Some 50])] |}).
  reflexivity.
Defined.

(** ** The worksheets of a run *)

(** X17. When every label of a run has at most 31 characters (and is not
    the name of a key column) and openpyxl takes the labels as titles as
    they are, the workbook has exactly one worksheet per label, titled by
    the label, in the order in which the labels were first used: local
    files first, then national files; and when line 59 raises for no local
    file, the run shows the success message and offers this workbook for
    download. *)
Theorem run_worksheet_names (local_files : list (LocalTable * string))
    (national_files : list (list NationalRow * string)) (c : WideTable) :
  combined local_files national_files = Some c ->
  Forall (fun label => (String.length label <= 31)%nat /\ is_metric label = true)
         (map fst (all_metrics local_files national_files)) ->
  titles_taken (map fst (all_metrics local_files national_files)) = true ->
  exists wb,
    export (pivots (sort_values c)) = Some wb /\
    sheetnames wb = map fst (all_metrics local_files national_files) /\
    (Forall (fun fl => filter_practice (fst fl) <> None) local_files ->
     run local_files national_files =
       [StSuccess "✅ Processing complete!";
        StDownload "📥 Download Excel File" wb "overprescribing_charts.xlsx"]).
Proof.
  intros Hc Hlabels Htaken.
  destruct (combined_cols local_files national_files c Hc) as [Hcols Hnd].
  rewrite <- Hcols in Hlabels, Htaken |- *.
  assert (Hkeys : map fst (pivots (sort_values c)) = w_cols c).
  { rewrite (pivots_keys (sort_values c)) by exact Hnd. cbn [sort_values w_cols].
    apply filter_all. eapply Forall_impl; [|exact Hlabels]. intros l [_ Hl]. exact Hl. }
  assert (Htrunc : map (fun sp : string * PivotSheet => truncate31 (fst sp))
                       (pivots (sort_values c)) = w_cols c).
  { rewrite <- (map_map fst truncate31), Hkeys.
    rewrite <- (map_id (w_cols c)) at 2. apply map_ext_in. intros l Hl.
    rewrite Forall_forall in Hlabels. apply substring_all, (Hlabels l Hl). }
  assert (Hexp : export (pivots (sort_values c)) =
                 Some (export_titled (pivots (sort_values c)))).
  { apply export_taken. rewrite Htrunc. exact Htaken. }
  exists (export_titled (pivots (sort_values c))).
  split; [exact Hexp|]. split.
  - unfold export_titled, sheetnames. rewrite export_fresh.
    + cbn [app]. unfold written. rewrite map_map. cbn [fst]. exact Htrunc.
    + cbn [map app]. rewrite Htrunc. exact Hnd.
  - intros Hfiles. unfold run.
    assert (Hall : forallb (fun fl : LocalTable * string =>
                              match filter_practice (fst fl) with
                              | Some _ => true
                              | None => false
                              end) local_files = true).
    { apply forallb_forall. intros fl Hfl. rewrite Forall_forall in Hfiles.
      specialize (Hfiles fl Hfl). destruct (filter_practice (fst fl)); congruence. }
    rewrite Hall, Hc, Hexp. reflexivity.
Qed.

Lemma run_worksheet_names_witness :
  exists wb,
    export (pivots (sort_values
      {| w_cols := ["Screening (%)"];
         w_rows := [(("England", (2024, 1)%nat), [Some (85 # 2)]);
                    (("North East and North Cumbria", (2024, 1)%nat), [Some 50]);
                    (("North East and North Cumbria", (2024, 2)%nat), [Some 50]);
                    (("ORG A", (2024, 1)%nat), [Some 50]);
                    (("ORG A", (2024, 2)%nat), [Some 50])] |})) = Some wb /\
    sheetnames wb = map fst (all_metrics [(example_local, "Screening (%)")]
                                         [(example_national, "Screening (%)")]) /\
    (Forall (fun fl : LocalTable * string => filter_practice (fst fl) <> None)
            [(example_local, "Screening (%)")] ->
     run [(example_local, "Screening (%)")] [(example_national, "Screening (%)")] =
       [StSuccess "✅ Processing complete!";
        StDownload "📥 Download Excel File" wb "overprescribing_charts.xlsx"]).
Proof.
  apply (run_worksheet_names [(example_local, "Screening (%)")]
                             [(example_national, "Screening (%)")]).
  - reflexivity.
  - repeat constructor.
  - reflexivity.
Defined.
